(** * The asynchronous acceptor of the interprocess library

    A shallow embedding of [src/interprocess/acceptor.cpp]: the named-pipe
    acceptor whose event loop creates pipe instances, waits on the
    connect / deferred-work / stop events, dispatches accepted clients to a
    callback and reports fatal errors through an exception callback.

    The Win32 kernel is the environment of the program.  It is modelled in
    [Module Win32]: handles are allocated fresh, event objects carry their
    reset mode and signaled state, and the outcome of every call that may
    fail is read from an oracle.  The values returned by the blocking wait
    are an input of the loop (the script of wake-ups it receives).

    The loop thread runs as a coroutine of the thread that owns the
    acceptor: [Listen] runs it until its wait finds the script empty, where
    it is suspended with its local variables; the join of [Stop] resumes it
    from there, with a script of its own.  Every call into the kernel and
    every callback is logged in a trace, in the order in which it is made.

    [Module ServerTest] embeds the message callback of
    [src/tests/server_test.cpp]. *)

From Stdlib Require Import ZArith Ascii String List Lia DecimalString DecimalPos.
From stdpp Require Import base option gmap list.
Import ListNotations.

Local Open Scope Z_scope.

Abbreviation HANDLE := Z (only parsing).
Abbreviation DWORD := Z (only parsing).

(** ** The kernel *)

Module Win32.

Definition NULL : HANDLE := 0.
Definition INVALID_HANDLE_VALUE : HANDLE := -1.

Definition WAIT_OBJECT_0 : DWORD := 0.
Definition WAIT_IO_COMPLETION : DWORD := 192.
Definition WAIT_FAILED : DWORD := 4294967295.

Definition ERROR_INVALID_HANDLE : DWORD := 6.
Definition ERROR_PIPE_CONNECTED : DWORD := 535.
Definition ERROR_IO_PENDING : DWORD := 997.

(** An event object: [CreateEvent]'s bManualReset and its current state. *)
Record EventObj := { ev_manual_reset : bool; ev_signaled : bool }.

(** What the environment answers to the n-th call that may fail.
    [None]: the call succeeds.  [Some e]: it fails and [GetLastError]
    then returns [e].  For [ConnectNamedPipe], [None] is a nonzero return
    value and [Some e] is a zero return value with last error [e]. *)
Record Oracle := {
  on_CreateEvent : nat -> option DWORD;
  on_CreateNamedPipe : nat -> option DWORD;
  on_ConnectNamedPipe : nat -> option DWORD;
  on_GetOverlappedResult : nat -> option DWORD;
  on_SetEvent : nat -> option DWORD;
  on_WaitFailed : nat -> DWORD
}.

Record Kernel := {
  oracle : Oracle;
  clock : nat;                    (* fallible calls made so far *)
  next_handle : HANDLE;           (* the next handle value handed out *)
  objects : gmap Z EventObj;      (* the open event objects *)
  last_error : DWORD              (* the last-error code of the loop thread *)
}.

Definition boot (o : Oracle) : Kernel :=
  {| oracle := o; clock := 0; next_handle := 1; objects := ∅; last_error := 0 |}.

Definition answered (e : option DWORD) (k : Kernel) : Kernel :=
  {| oracle := oracle k; clock := S (clock k); next_handle := next_handle k;
     objects := objects k;
     last_error := match e with Some c => c | None => last_error k end |}.

Definition with_objects (m : gmap Z EventObj) (k : Kernel) : Kernel :=
  {| oracle := oracle k; clock := clock k; next_handle := next_handle k;
     objects := m; last_error := last_error k |}.

Definition allocate (k : Kernel) : Kernel :=
  {| oracle := oracle k; clock := clock k; next_handle := next_handle k + 1;
     objects := objects k; last_error := last_error k |}.

Definition with_last_error (e : DWORD) (k : Kernel) : Kernel :=
  {| oracle := oracle k; clock := clock k; next_handle := next_handle k;
     objects := objects k; last_error := e |}.

(** The last-error code is kept per thread.  The loop thread is the only
    thread of the program that reads its own, so that one is kept: a call
    made on another thread does to the kernel what it does, and leaves
    the last-error code of the loop thread as it was. *)
Definition on_other_thread {A} (call : Kernel -> A * Kernel) (k : Kernel)
  : A * Kernel :=
  let (a, k') := call k in (a, with_last_error (last_error k) k').

(** A thread starts with last-error code 0. *)
Definition thread_started (k : Kernel) : Kernel := with_last_error 0 k.

Definition set_signaled (b : bool) (ev : EventObj) : EventObj :=
  {| ev_manual_reset := ev_manual_reset ev; ev_signaled := b |}.

(** The state an event is left in by a wait that it satisfied. *)
Definition observed (ev : EventObj) : EventObj :=
  set_signaled (ev_manual_reset ev) ev.

Definition CreateEvent (bManualReset bInitialState : bool) (k : Kernel)
  : HANDLE * Kernel :=
  let r := on_CreateEvent (oracle k) (clock k) in
  match r with
  | None =>
      let h := next_handle k in
      (h, with_objects
            (<[h := {| ev_manual_reset := bManualReset;
                       ev_signaled := bInitialState |}]> (objects k))
            (allocate (answered r k)))
  | Some _ => (NULL, answered r k)
  end.

Definition CloseHandle (h : HANDLE) (k : Kernel) : Kernel :=
  with_objects (delete h (objects k)) k.

Definition SetEvent (h : HANDLE) (k : Kernel) : bool * Kernel :=
  match objects k !! h with
  | None => (false, answered (Some ERROR_INVALID_HANDLE) k)
  | Some ev =>
      let r := on_SetEvent (oracle k) (clock k) in
      match r with
      | None => (true, with_objects (<[h := set_signaled true ev]> (objects k))
                         (answered r k))
      | Some _ => (false, answered r k)
      end
  end.

Definition CreateNamedPipe (k : Kernel) : HANDLE * Kernel :=
  let r := on_CreateNamedPipe (oracle k) (clock k) in
  match r with
  | None => (next_handle k, allocate (answered r k))
  | Some _ => (INVALID_HANDLE_VALUE, answered r k)
  end.

(** An overlapped operation sets the event of its OVERLAPPED record to
    the nonsignaled state when it begins. *)
Definition ConnectNamedPipe (hEvent : HANDLE) (k : Kernel) : bool * Kernel :=
  let r := on_ConnectNamedPipe (oracle k) (clock k) in
  let k' := with_objects (alter (set_signaled false) hEvent (objects k))
              (answered r k) in
  match r with
  | None => (true, k')
  | Some _ => (false, k')
  end.

Definition GetOverlappedResult (k : Kernel) : bool * Kernel :=
  let r := on_GetOverlappedResult (oracle k) (clock k) in
  match r with
  | None => (true, answered r k)
  | Some _ => (false, answered r k)
  end.

(** The handle that a return value of the wait names, if it names one. *)
Definition satisfied_by (handles : list HANDLE) (ret : DWORD) : option HANDLE :=
  if (WAIT_OBJECT_0 <=? ret) && (ret <? WAIT_OBJECT_0 + Z.of_nat (length handles))
  then handles !! Z.to_nat (ret - WAIT_OBJECT_0)
  else None.

(** The wait returns what the environment makes it return.  When the
    value names one of the handles, that event was signaled: an auto-reset
    event is consumed, a manual-reset event stays signaled. *)
Definition WaitForMultipleObjectsEx (handles : list HANDLE) (ret : DWORD)
    (k : Kernel) : DWORD * Kernel :=
  let r := if ret =? WAIT_FAILED
           then Some (on_WaitFailed (oracle k) (clock k)) else None in
  let k' := answered r k in
  match satisfied_by handles ret with
  | Some h => (ret, with_objects (alter observed h (objects k')) k')
  | None => (ret, k')
  end.

End Win32.

Import Win32.

(** ** The acceptor *)

(** Modelled from the spec: the [ConnectionExcepton] class, declared in a
    header that is not among the sources; the single error kind, carrying a
    human-readable message that embeds the platform error code. *)
Record ConnectionExcepton := { what : string }.

(** What can be in flight in the try block of the thread function, and
    what its [std::exception_ptr] then points to: an error of the
    acceptor's own kind, or an object of whatever type a callback threw,
    of which the acceptor looks at nothing ([thrown] tells one such object
    from another). *)
Inductive Exception :=
| Connection (e : ConnectionExcepton)
| Foreign (thrown : nat).

Coercion Connection : ConnectionExcepton >-> Exception.

(** What the acceptor does, as seen from outside: its calls into the
    kernel with their results, its callbacks, and the exceptions raised in
    its try block, by its own code or by a callback. *)
Inductive Action :=
| CreateEventA (bManualReset bInitialState : bool) (ret : HANDLE)
| CloseHandleA (h : HANDLE)
| SetEventA (h : HANDLE) (ret : bool)
| CreateNamedPipeA (name : string) (ret : HANDLE)
| ConnectNamedPipeA (pipe hEvent : HANDLE) (ret : bool)
| GetOverlappedResultA (pipe hEvent : HANDLE) (ret : bool)
| DisconnectNamedPipeA (pipe : HANDLE)
| WaitA (handles : list HANDLE) (ret : DWORD)
| NewConnectionA (pipe write_event : HANDLE)
| AsyncIoA
| ExceptionA (eptr : option Exception)
| ThrowA (e : Exception).

(** [std::to_string] on an unsigned value. *)
Definition to_string (n : DWORD) : string :=
  NilZero.string_of_uint (N.to_uint (Z.to_N n)).

(** The OVERLAPPED record of the pending connect. *)
Record OVERLAPPED := {
  Internal : Z; InternalHigh : Z; Offset : Z; OffsetHigh : Z; hEvent : HANDLE
}.

Definition ZeroMemory : OVERLAPPED :=
  {| Internal := 0; InternalHigh := 0; Offset := 0; OffsetHigh := 0; hEvent := 0 |}.

(** The loop thread as the other threads see it: suspended in the wait with
    its local variables, or past the end of [LinstenInThread]. *)
Inductive Thread :=
| Waiting (conn_event write_event : HANDLE) (pedding : bool)
| Exited.

(** The result of code that may throw. *)
Inductive Res (A : Type) :=
| Val (a : A)
| Exc (e : Exception).
Arguments Val {A} a.
Arguments Exc {A} e.

(** How control leaves the loop, other than by an exception: the return of
    the stop case, or the thread is suspended in the wait (no wake-up is left
    in the script); the locals are kept for when it resumes. *)
Inductive LoopExit :=
| Return
| Suspend (conn_event write_event : HANDLE) (pedding : bool).

Section Acceptor.

(** The state of the code behind the callbacks. *)
Context {U : Type}.

(** A callback of the loop runs on the state of the code behind it, and
    returns or throws. *)
Definition Callback := U -> Res unit * U.

Definition NewConnectionCallback := HANDLE -> HANDLE -> Callback.

(** The exception callback is called after the handler, outside the try
    block; it is taken to return. *)
Definition ExceptionCallback := option Exception -> U -> U.

Record Acceptor := {
  pipe_name_ : string;
  next_pipe_ : HANDLE;
  close_event_ : HANDLE;
  connect_overlap_ : OVERLAPPED;
  listen_thread_ : option Thread;     (* [Some]: joinable *)
  new_connection_callback_ : option NewConnectionCallback;
  exception_callback_ : option ExceptionCallback;
  async_io_callback_ : option Callback
}.

Record State := {
  acc : Acceptor;
  ker : Kernel;
  user : U;
  trace : list Action
}.

Definition set_acc (a : Acceptor) (s : State) : State :=
  {| acc := a; ker := ker s; user := user s; trace := trace s |}.
Definition set_ker (k : Kernel) (s : State) : State :=
  {| acc := acc s; ker := k; user := user s; trace := trace s |}.
Definition set_user (u : U) (s : State) : State :=
  {| acc := acc s; ker := ker s; user := u; trace := trace s |}.
Definition log (a : Action) (s : State) : State :=
  {| acc := acc s; ker := ker s; user := user s; trace := trace s ++ [a] |}.

Definition set_next_pipe_ (h : HANDLE) (a : Acceptor) : Acceptor :=
  {| pipe_name_ := pipe_name_ a; next_pipe_ := h; close_event_ := close_event_ a;
     connect_overlap_ := connect_overlap_ a; listen_thread_ := listen_thread_ a;
     new_connection_callback_ := new_connection_callback_ a;
     exception_callback_ := exception_callback_ a;
     async_io_callback_ := async_io_callback_ a |}.
Definition set_connect_overlap_ (o : OVERLAPPED) (a : Acceptor) : Acceptor :=
  {| pipe_name_ := pipe_name_ a; next_pipe_ := next_pipe_ a;
     close_event_ := close_event_ a;
     connect_overlap_ := o; listen_thread_ := listen_thread_ a;
     new_connection_callback_ := new_connection_callback_ a;
     exception_callback_ := exception_callback_ a;
     async_io_callback_ := async_io_callback_ a |}.
Definition set_listen_thread_ (t : option Thread) (a : Acceptor) : Acceptor :=
  {| pipe_name_ := pipe_name_ a; next_pipe_ := next_pipe_ a;
     close_event_ := close_event_ a;
     connect_overlap_ := connect_overlap_ a; listen_thread_ := t;
     new_connection_callback_ := new_connection_callback_ a;
     exception_callback_ := exception_callback_ a;
     async_io_callback_ := async_io_callback_ a |}.
Definition set_hEvent (h : HANDLE) (o : OVERLAPPED) : OVERLAPPED :=
  {| Internal := Internal o; InternalHigh := InternalHigh o; Offset := Offset o;
     OffsetHigh := OffsetHigh o; hEvent := h |}.

(** *** The calls into the kernel, logged *)

Definition Sys (A : Type) := State -> A * State.

Definition sysCreateEvent (bManualReset bInitialState : bool) : Sys HANDLE :=
  fun s => let (h, k) := Win32.CreateEvent bManualReset bInitialState (ker s) in
           (h, log (CreateEventA bManualReset bInitialState h) (set_ker k s)).

Definition sysCloseHandle (h : HANDLE) : Sys unit :=
  fun s => (tt, log (CloseHandleA h) (set_ker (Win32.CloseHandle h (ker s)) s)).

Definition sysSetEvent (h : HANDLE) : Sys bool :=
  fun s => let (b, k) := Win32.SetEvent h (ker s) in
           (b, log (SetEventA h b) (set_ker k s)).

(** [std::string::c_str] as a callee reads it: the characters before the
    first NUL. *)
Fixpoint c_str (str : string) : string :=
  match str with
  | EmptyString => EmptyString
  | String c rest => if Ascii.eqb c "000" then EmptyString
                     else String c (c_str rest)
  end.

(** The other arguments of [CreateNamedPipe] are the same constants at
    every call (duplex overlapped access, message mode, unlimited
    instances, the buffer sizes and the time-out of the header). *)
Definition sysCreateNamedPipe (name : string) : Sys HANDLE :=
  fun s => let (h, k) := Win32.CreateNamedPipe (ker s) in
           (h, log (CreateNamedPipeA name h) (set_ker k s)).

Definition sysConnectNamedPipe (pipe : HANDLE) (o : OVERLAPPED) : Sys bool :=
  fun s => let (b, k) := Win32.ConnectNamedPipe (hEvent o) (ker s) in
           (b, log (ConnectNamedPipeA pipe (hEvent o) b) (set_ker k s)).

Definition sysGetOverlappedResult (pipe : HANDLE) (o : OVERLAPPED) : Sys bool :=
  fun s => let (b, k) := Win32.GetOverlappedResult (ker s) in
           (b, log (GetOverlappedResultA pipe (hEvent o) b) (set_ker k s)).

Definition sysDisconnectNamedPipe (pipe : HANDLE) : Sys unit :=
  fun s => (tt, log (DisconnectNamedPipeA pipe) s).

Definition sysWaitForMultipleObjectsEx (handles : list HANDLE) (ret : DWORD)
  : Sys DWORD :=
  fun s => let (r, k) := Win32.WaitForMultipleObjectsEx handles ret (ker s) in
           (r, log (WaitA handles r) (set_ker k s)).

(** [GetLastError] is called on the loop thread only. *)
Definition GetLastError : Sys DWORD := fun s => (last_error (ker s), s).

(** The calls that the thread owning the acceptor makes itself:
    [CreateEvent] in the constructor, [SetEvent] in [Stop]. *)
Definition ownerCreateEvent (bManualReset bInitialState : bool) : Sys HANDLE :=
  fun s => let (h, k) := on_other_thread
                           (Win32.CreateEvent bManualReset bInitialState) (ker s) in
           (h, log (CreateEventA bManualReset bInitialState h) (set_ker k s)).

Definition ownerSetEvent (h : HANDLE) : Sys bool :=
  fun s => let (b, k) := on_other_thread (Win32.SetEvent h) (ker s) in
           (b, log (SetEventA h b) (set_ker k s)).

(** *** Code that may throw *)

Definition M (A : Type) := State -> Res A * State.

Definition ret {A} (a : A) : M A := fun s => (Val a, s).

Definition bind {A B} (m : M A) (f : A -> M B) : M B :=
  fun s => match m s with
           | (Val a, s') => f a s'
           | (Exc e, s') => (Exc e, s')
           end.

Definition sys {A} (c : Sys A) : M A := fun s => let (a, s') := c s in (Val a, s').

Definition get {A} (f : Acceptor -> A) : M A := fun s => (Val (f (acc s)), s).

Definition modify (f : Acceptor -> Acceptor) : M unit :=
  fun s => (Val tt, set_acc (f (acc s)) s).

(** [std::rethrow_exception(std::make_exception_ptr(ConnectionExcepton(msg)))] *)
Definition throw {A} (msg : string) : M A :=
  fun s => let e := Connection {| what := msg |} in (Exc e, log (ThrowA e) s).

(** [msg.append(std::to_string(GetLastError()))] and the throw of it. *)
Definition fail_GLE {A} (msg : string) : M A :=
  bind (sys GetLastError) (fun e => throw (String.append msg (to_string e))).

Notation "'let*' x ':=' m 'in' k" := (bind m (fun x => k))
  (at level 10, x name, m at level 100, k at level 200, only parsing).
Notation "m ;;; k" := (bind m (fun _ => k))
  (at level 200, k at level 200, only parsing).

(** *** The scoped resource guard *)

(** Modelled from the spec: the [ScopeGuard] utility, declared in a header
    that is not among the sources; it wraps a release action and runs it
    when its scope is left, on every exit path, unless it was dismissed. *)
Record ScopeGuard := { release : Sys unit; dismissed : bool }.

Definition MakeGuard (r : Sys unit) : ScopeGuard :=
  {| release := r; dismissed := false |}.

Definition Dismiss (g : ScopeGuard) : ScopeGuard :=
  {| release := release g; dismissed := true |}.

Definition leave_scope (g : ScopeGuard) (s : State) : State :=
  if dismissed g then s else snd (release g s).

(** A block in the scope of guard [g].  The guard fires when the block is
    left by a return or by an exception, not while the thread is
    suspended inside it. *)
Definition scoped (g : ScopeGuard) (body : M LoopExit) : M LoopExit :=
  fun s => match body s with
           | (Val (Suspend c w p), s') => (Val (Suspend c w p), s')
           | (r, s') => (r, leave_scope g s')
           end.

(** *** Acceptor::CreateConnectInstance *)

Definition CreateConnectInstance : M bool :=
  let* name := get pipe_name_ in
  let* h := sys (sysCreateNamedPipe (c_str name)) in
  modify (set_next_pipe_ h) ;;;
  (if h =? INVALID_HANDLE_VALUE
   then fail_GLE "CreateNamedPipe failed GLE = "
   else ret tt) ;;;
  let pendding := false in
  (* Start an overlapped connection for this pipe instance. *)
  let* next_pipe := get next_pipe_ in
  let* overlap := get connect_overlap_ in
  let* connected := sys (sysConnectNamedPipe next_pipe overlap) in
  (* Overlapped ConnectNamedPipe should return zero. *)
  (if connected : bool
   then fail_GLE "ConnectNamedPipe failed GLE = "
   else ret tt) ;;;
  let* gle := sys GetLastError in
  if gle =? ERROR_IO_PENDING then
    (* The overlapped connection in progress. *)
    ret true
  else if gle =? ERROR_PIPE_CONNECTED then
    (* Client is already connected, so signal an event. *)
    let* signaled := sys (sysSetEvent (hEvent overlap)) in
    if signaled : bool then ret pendding
    else (* jump to default *) fail_GLE "ConnectNamedPipe failed GLE = "
  else
    (* If an error occurs during the connect operation... *)
    fail_GLE "ConnectNamedPipe failed GLE = ".

(** *** Acceptor::LinstenInThread *)

(** The call of a callback inside the try block: what it throws is in
    flight in the thread function. *)
Definition call_back (a : Action) (cb : Callback) : M unit :=
  fun s => let (r, u) := cb (user s) in
           let s' := log a (set_user u s) in
           match r with
           | Val _ => (Val tt, s')
           | Exc e => (Exc e, log (ThrowA e) s')
           end.

Definition call_new_connection (pipe write_event : HANDLE) : M unit :=
  fun s => match new_connection_callback_ (acc s) with
           | Some cb => call_back (NewConnectionA pipe write_event)
                          (cb pipe write_event) s
           | None => (Val tt, s)
           end.

Definition call_async_io : M unit :=
  fun s => match async_io_callback_ (acc s) with
           | Some cb => call_back AsyncIoA cb s
           | None => (Val tt, s)
           end.

Definition call_exception (eptr : option Exception) (s : State) : State :=
  match exception_callback_ (acc s) with
  | Some cb => log (ExceptionA eptr) (set_user (cb eptr (user s)) s)
  | None => s
  end.

(** The [for (;;)] of the thread function, over the values the successive
    waits return.  [events] is the array { conn_event, write_event,
    close_event_ }. *)
Fixpoint loop (waits : list DWORD) (conn_event write_event : HANDLE)
    (events : list HANDLE) (pedding : bool) : M LoopExit :=
  match waits with
  | [] => ret (Suspend conn_event write_event pedding)
  | w :: waits' =>
      let* wait := sys (sysWaitForMultipleObjectsEx events w) in
      if wait =? WAIT_OBJECT_0 then
        (* If an operation is pending, get the result of the
           connect operation. *)
        (if pedding then
           let* next_pipe := get next_pipe_ in
           let* overlap := get connect_overlap_ in
           let* success := sys (sysGetOverlappedResult next_pipe overlap) in
           if success : bool then ret tt
           else fail_GLE "ConnectNamedPipe failed GLE = "
         else ret tt) ;;;
        let* next_pipe := get next_pipe_ in
        call_new_connection next_pipe write_event ;;;
        let* pedding' := CreateConnectInstance in
        loop waits' conn_event write_event events pedding'
      else if wait =? WAIT_OBJECT_0 + 1 then
        (* Send operation pendding *)
        call_async_io ;;;
        loop waits' conn_event write_event events pedding
      else if wait =? WAIT_OBJECT_0 + 2 then
        ret Return
      else if wait =? WAIT_IO_COMPLETION then
        loop waits' conn_event write_event events pedding
      else
        (* An error occurred in the wait function. *)
        fail_GLE "Unexpected error GLE = "
  end.

(** The try block, from its first statement. *)
Definition try_block (waits : list DWORD) : M LoopExit :=
  let* conn_event := sys (sysCreateEvent true true) in
  let auto_release_conn_event := MakeGuard (sysCloseHandle conn_event) in
  if conn_event =? NULL then
    scoped (Dismiss auto_release_conn_event)
      (fail_GLE "CreateEvent (connect event) failed GLE = ")
  else scoped auto_release_conn_event (
    let* write_event := sys (sysCreateEvent false false) in
    let auto_release_write_event := MakeGuard (sysCloseHandle write_event) in
    if write_event =? NULL then
      scoped (Dismiss auto_release_write_event)
        (fail_GLE "CreateEvent (write event) failed GLE = ")
    else scoped auto_release_write_event (
      let* close_event := get close_event_ in
      let events := [conn_event; write_event; close_event] in
      modify (fun a => set_connect_overlap_
                         (set_hEvent conn_event (connect_overlap_ a)) a) ;;;
      let* pedding := CreateConnectInstance in
      loop waits conn_event write_event events pedding)).

(** The try block, from the wait in which the thread was suspended. *)
Definition try_block_resumed (conn_event write_event : HANDLE) (pedding : bool)
    (waits : list DWORD) : M LoopExit :=
  scoped (MakeGuard (sysCloseHandle conn_event)) (
    scoped (MakeGuard (sysCloseHandle write_event)) (
      let* close_event := get close_event_ in
      loop waits conn_event write_event
        [conn_event; write_event; close_event] pedding)).

(** What follows the try block: the handler, and the delivery of the
    exception pointer.  The [return] of the stop case leaves the function
    from inside the try block. *)
Definition run_thread (body : M LoopExit) (s : State) : Thread * State :=
  match body s with
  | (Val Return, s') => (Exited, s')
  | (Val (Suspend c w p), s') => (Waiting c w p, s')
  | (Exc e, s') =>
      let eptr := Some e in
      (Exited, call_exception eptr s')
  end.

Definition LinstenInThread (waits : list DWORD) : State -> Thread * State :=
  run_thread (try_block waits).

Definition resume (t : Thread) (waits : list DWORD) (s : State) : Thread * State :=
  match t with
  | Waiting c w p => run_thread (try_block_resumed c w p waits) s
  | Exited => (Exited, s)
  end.

(** *** The public members *)

(** How a call made by the owner of the acceptor ends. *)
Inductive Outcome :=
| Finished (s : State)
| Hangs            (* a join that never returns *)
| Terminates.      (* std::terminate *)

Definition Acceptor_ctor (endpoint : string) (o : Oracle) (u : U) : State :=
  let s0 := {| acc := {| pipe_name_ := String.append "\\.\pipe\" endpoint;
                         next_pipe_ := NULL;
                         close_event_ := NULL;
                         connect_overlap_ := ZeroMemory;
                         listen_thread_ := None;
                         new_connection_callback_ := None;
                         exception_callback_ := None;
                         async_io_callback_ := None |};
               ker := boot o; user := u; trace := [] |} in
  let (h, s1) := ownerCreateEvent false false s0 in
  set_acc {| pipe_name_ := pipe_name_ (acc s1);
             next_pipe_ := NULL;
             close_event_ := h;
             connect_overlap_ := ZeroMemory;
             listen_thread_ := None;
             new_connection_callback_ := None;
             exception_callback_ := None;
             async_io_callback_ := None |} s1.

(** [Listen] starts the thread and swaps it into [listen_thread_]; the
    temporary that receives the previous thread is destroyed, which is
    std::terminate when that thread is joinable.  The new thread runs,
    from last-error code 0, until it is suspended in a wait for which
    [waits] has no value. *)
Definition Listen (waits : list DWORD) (s : State) : Outcome :=
  match listen_thread_ (acc s) with
  | Some _ => Terminates
  | None =>
      let (t, s') := LinstenInThread waits
                       (set_ker (thread_started (ker s)) s) in
      Finished (set_acc (set_listen_thread_ (Some t) (acc s')) s')
  end.

(** [Stop]; [waits] are the values that the waits of the loop thread
    return while the caller is in [join]. *)
Definition Stop (waits : list DWORD) (s : State) : Outcome :=
  let s1 := snd (ownerSetEvent (close_event_ (acc s)) s) in
  let s2 := snd (sysDisconnectNamedPipe (next_pipe_ (acc s1)) s1) in
  match listen_thread_ (acc s2) with
  | Some t =>
      match resume t waits s2 with
      | (Exited, s3) => Finished (set_acc (set_listen_thread_ None (acc s3)) s3)
      | (Waiting _ _ _, _) => Hangs
      end
  | None => Finished s2
  end.

Definition Acceptor_dtor (waits : list DWORD) (s : State) : Outcome :=
  match Stop waits s with
  | Finished s1 =>
      let s2 := snd (sysCloseHandle (next_pipe_ (acc s1)) s1) in
      Finished (snd (sysCloseHandle (close_event_ (acc s2)) s2))
  | o => o
  end.

Definition SetNewConnectionCallback (cb : option NewConnectionCallback)
    (s : State) : State :=
  set_acc {| pipe_name_ := pipe_name_ (acc s); next_pipe_ := next_pipe_ (acc s);
             close_event_ := close_event_ (acc s);
             connect_overlap_ := connect_overlap_ (acc s);
             listen_thread_ := listen_thread_ (acc s);
             new_connection_callback_ := cb;
             exception_callback_ := exception_callback_ (acc s);
             async_io_callback_ := async_io_callback_ (acc s) |} s.

Definition SetExceptionCallback (cb : option ExceptionCallback)
    (s : State) : State :=
  set_acc {| pipe_name_ := pipe_name_ (acc s); next_pipe_ := next_pipe_ (acc s);
             close_event_ := close_event_ (acc s);
             connect_overlap_ := connect_overlap_ (acc s);
             listen_thread_ := listen_thread_ (acc s);
             new_connection_callback_ := new_connection_callback_ (acc s);
             exception_callback_ := cb;
             async_io_callback_ := async_io_callback_ (acc s) |} s.

Definition MoveIOFunctionToAlertableThread (cb : option Callback)
    (s : State) : State :=
  set_acc {| pipe_name_ := pipe_name_ (acc s); next_pipe_ := next_pipe_ (acc s);
             close_event_ := close_event_ (acc s);
             connect_overlap_ := connect_overlap_ (acc s);
             listen_thread_ := listen_thread_ (acc s);
             new_connection_callback_ := new_connection_callback_ (acc s);
             exception_callback_ := exception_callback_ (acc s);
             async_io_callback_ := cb |} s.

End Acceptor.

Arguments Acceptor : clear implicits.
Arguments State : clear implicits.
Arguments Outcome : clear implicits.
Arguments M : clear implicits.
Arguments Sys : clear implicits.

(** ** Reading the trace *)

Definition is_throw (a : Action) : bool :=
  match a with ThrowA _ => true | _ => false end.

Definition is_exception_call (a : Action) : bool :=
  match a with ExceptionA _ => true | _ => false end.

Definition is_close (h : HANDLE) (a : Action) : bool :=
  match a with CloseHandleA h' => h' =? h | _ => false end.


Definition is_create_event (a : Action) : bool :=
  match a with CreateEventA _ _ _ => true | _ => false end.

Definition is_create_auto_reset_event (a : Action) : bool :=
  match a with CreateEventA false _ _ => true | _ => false end.

Definition is_release (a : Action) : Prop :=
  match a with CloseHandleA _ => True | _ => False end.

Definition is_rearm_tail (a : Action) : Prop :=
  match a with
  | ConnectNamedPipeA _ _ _ | SetEventA _ _ | ThrowA _ => True
  | _ => False
  end.

Fixpoint tally (p : Action -> bool) (t : list Action) : nat :=
  match t with
  | [] => O
  | a :: t' => if p a then S (tally p t') else tally p t'
  end.

(** The handle an action obtained from the kernel, if it obtained one. *)
Definition created (a : Action) : option HANDLE :=
  match a with
  | CreateEventA _ _ h => if h =? NULL then None else Some h
  | CreateNamedPipeA _ h => if h =? INVALID_HANDLE_VALUE then None else Some h
  | _ => None
  end.

Definition created_event (a : Action) : option HANDLE :=
  match a with
  | CreateEventA _ _ h => if h =? NULL then None else Some h
  | _ => None
  end.

Definition created_pipe (a : Action) : option HANDLE :=
  match a with
  | CreateNamedPipeA _ h => if h =? INVALID_HANDLE_VALUE then None else Some h
  | _ => None
  end.

(** The handle an action closed. *)
Definition closed (a : Action) : option HANDLE :=
  match a with CloseHandleA h => Some h | _ => None end.

Fixpoint occurrences (h : HANDLE) (l : list HANDLE) : nat :=
  match l with
  | [] => O
  | x :: l' => if x =? h then S (occurrences h l') else occurrences h l'
  end.

(** The value [next_pipe_] holds after the actions of [t], from [h0]. *)
Fixpoint last_pipe (h0 : HANDLE) (t : list Action) : HANDLE :=
  match t with
  | [] => h0
  | CreateNamedPipeA _ h :: t' => last_pipe h t'
  | _ :: t' => last_pipe h0 t'
  end.

(** What was logged after the first [n] actions. *)
Definition since {U} (s s' : State U) : list Action :=
  drop (length (trace s)) (trace s').

(** What the scope guards of the thread function log when control leaves
    the try block with [r]. *)
Definition unwound (r : Res LoopExit) (ce we : HANDLE) : list Action :=
  match r with
  | Val (Suspend _ _ _) => []
  | _ => [CloseHandleA we; CloseHandleA ce]
  end.

(** The actions the loop and [CreateConnectInstance] may log. *)
Definition loop_action (name : string) (ce we : HANDLE) (evs : list HANDLE)
    (a : Action) : Prop :=
  match a with
  | CreateNamedPipeA n _ => n = c_str name
  | ConnectNamedPipeA _ h _ => h = ce
  | SetEventA h _ => h = ce
  | GetOverlappedResultA _ h _ => h = ce
  | WaitA hs _ => hs = evs
  | NewConnectionA _ w => w = we
  | AsyncIoA => True
  | ThrowA _ => True
  | _ => False
  end.

(** What the loop, the scope guards and the delivery of the exception may
    log, for the write event [we] and the wait on [evs]. *)
Definition looped_action (we : HANDLE) (evs : list HANDLE) (a : Action) : Prop :=
  match a with
  | NewConnectionA _ w => w = we
  | WaitA hs _ => hs = evs
  | CreateEventA _ _ _ => False
  | _ => True
  end.

(** A throw ends the actions of code that throws, and only of such code. *)
Definition throw_shape {A} (r : Res A) (d : list Action) : Prop :=
  match r with
  | Val _ => tally is_throw d = O
  | Exc e => exists d', d = d' ++ [ThrowA e] /\ tally is_throw d' = O
  end.

(** How the actions of the loop end, by the way control leaves it: a return
    follows a wait that the stop event satisfied; a suspended loop keeps the
    locals it was entered with. *)
Definition exit_shape (evs : list HANDLE) (ce we : HANDLE)
    (r : Res LoopExit) (d : list Action) : Prop :=
  throw_shape r d /\
  match r with
  | Val Return => exists d', d = d' ++ [WaitA evs (WAIT_OBJECT_0 + 2)]
  | Val (Suspend c w _) => c = ce /\ w = we
  | Exc _ => True
  end.

(** ** The lifetime of an acceptor *)

(** The event handles the acceptor holds open: its stop event, and the two
    events of a loop that is suspended in its wait. *)
Definition held {U} (s : State U) : list HANDLE :=
  (if close_event_ (acc s) =? NULL then [] else [close_event_ (acc s)])
  ++ match listen_thread_ (acc s) with
     | Some (Waiting c w _) => [c; w]
     | _ => []
     end.

(** The calls the owner of an acceptor makes between its construction and
    its destruction. *)
Inductive Call {U : Type} :=
| CallSetNewConnectionCallback (cb : option (NewConnectionCallback (U:=U)))
| CallSetExceptionCallback (cb : option (ExceptionCallback (U:=U)))
| CallMoveIOFunctionToAlertableThread (cb : option (Callback (U:=U)))
| CallListen (waits : list DWORD)
| CallStop (waits : list DWORD).
Arguments Call : clear implicits.

Definition call {U} (c : Call U) (s : State U) : Outcome U :=
  match c with
  | CallSetNewConnectionCallback cb => Finished (SetNewConnectionCallback cb s)
  | CallSetExceptionCallback cb => Finished (SetExceptionCallback cb s)
  | CallMoveIOFunctionToAlertableThread cb =>
      Finished (MoveIOFunctionToAlertableThread cb s)
  | CallListen waits => Listen waits s
  | CallStop waits => Stop waits s
  end.

Fixpoint calls {U} (cs : list (Call U)) (s : State U) : Outcome U :=
  match cs with
  | [] => Finished s
  | c :: cs' =>
      match call c s with
      | Finished s' => calls cs' s'
      | o => o
      end
  end.

(** Construction, the calls [cs], destruction; [waits] are the values the
    waits of the loop return while the destructor joins it. *)
Definition lifetime {U} (endpoint : string) (o : Oracle) (u : U)
    (cs : list (Call U)) (waits : list DWORD) : Outcome U :=
  match calls cs (Acceptor_ctor endpoint o u) with
  | Finished s => Acceptor_dtor waits s
  | o => o
  end.

Definition finished {U} (o : Outcome U) : option (State U) :=
  match o with Finished s => Some s | _ => None end.

(** ** Scenarios *)

(** What the callbacks of the scenarios write down. *)
Inductive Note :=
| Accepted (pipe write_event : HANDLE)
| Failed (eptr : option Exception)
| DeferredWork.

Definition note_connection : NewConnectionCallback (U:=list Note) :=
  fun pipe write_event u => (Val tt, u ++ [Accepted pipe write_event]).
Definition note_exception : ExceptionCallback (U:=list Note) :=
  fun eptr u => u ++ [Failed eptr].
Definition note_io : Callback (U:=list Note) :=
  fun u => (Val tt, u ++ [DeferredWork]).

Definition refuse_io (thrown : nat) : Callback (U:=list Note) :=
  fun u => (Exc (Foreign thrown), u ++ [DeferredWork]).

(** Every call succeeds and every connect is pending. *)
Definition calm : Oracle :=
  {| on_CreateEvent := fun _ => None;
     on_CreateNamedPipe := fun _ => None;
     on_ConnectNamedPipe := fun _ => Some ERROR_IO_PENDING;
     on_GetOverlappedResult := fun _ => None;
     on_SetEvent := fun _ => None;
     on_WaitFailed := fun _ => ERROR_INVALID_HANDLE |}.


(** Every connect is pending and its client goes away before the result
    is fetched (broken pipe). *)
Definition client_gone : Oracle :=
  {| on_CreateEvent := fun _ => None;
     on_CreateNamedPipe := fun _ => None;
     on_ConnectNamedPipe := fun _ => Some ERROR_IO_PENDING;
     on_GetOverlappedResult := fun _ => Some 109;
     on_SetEvent := fun _ => None;
     on_WaitFailed := fun _ => ERROR_INVALID_HANDLE |}.

(** No pipe instance can be created (pipe busy). *)
Definition no_pipes : Oracle :=
  {| on_CreateEvent := fun _ => None;
     on_CreateNamedPipe := fun _ => Some 231;
     on_ConnectNamedPipe := fun _ => Some ERROR_IO_PENDING;
     on_GetOverlappedResult := fun _ => None;
     on_SetEvent := fun _ => None;
     on_WaitFailed := fun _ => ERROR_INVALID_HANDLE |}.

(** The event of the constructor is the last one the kernel has (not
    enough memory for another). *)
Definition no_events_left : Oracle :=
  {| on_CreateEvent := fun n => match n with O => None | S _ => Some 8 end;
     on_CreateNamedPipe := fun _ => None;
     on_ConnectNamedPipe := fun _ => Some ERROR_IO_PENDING;
     on_GetOverlappedResult := fun _ => None;
     on_SetEvent := fun _ => None;
     on_WaitFailed := fun _ => ERROR_INVALID_HANDLE |}.

(** A constructed acceptor with its three callbacks set. *)
Definition served (o : Oracle) : State (list Note) :=
  MoveIOFunctionToAlertableThread (Some note_io)
    (SetExceptionCallback (Some note_exception)
       (SetNewConnectionCallback (Some note_connection)
          (Acceptor_ctor "svc-a" o []))).


(** The same, with a deferred-work callback that throws. *)
Definition overworked (o : Oracle) : State (list Note) :=
  MoveIOFunctionToAlertableThread (Some (refuse_io 9)) (served o).

(** A constructed acceptor with only the exception callback set. *)
Definition unserved (o : Oracle) : State (list Note) :=
  SetExceptionCallback (Some note_exception) (Acceptor_ctor "svc-a" o []).

(** The state of the thread function where the connect event is bound and
    the first pipe instance is about to be created. *)
Definition armed (s : State (list Note)) : State (list Note) :=
  let (ce, s1) := sysCreateEvent true true s in
  let (we, s2) := sysCreateEvent false false s1 in
  set_acc (set_connect_overlap_ (set_hEvent ce (connect_overlap_ (acc s2)))
             (acc s2)) s2.

(** The acceptor blocked in its first wait. *)
Definition listening (o : Oracle) : State (list Note) :=
  snd (LinstenInThread [] (served o)).

(** The acceptor of the scenarios after [Listen], its thread blocked in the
    first wait. *)
Definition started : Outcome (list Note) := Listen [] (served calm).



(** One client is accepted, then the acceptor is destroyed. *)
Definition one_client : Outcome (list Note) :=
  lifetime "svc-a" calm []
    [CallSetNewConnectionCallback (Some note_connection);
     CallSetExceptionCallback (Some note_exception);
     CallListen [WAIT_OBJECT_0]]
    [WAIT_OBJECT_0 + 2].


(** The state in which the destructor leaves the first scenario. *)
Definition one_client_end : State (list Note) :=
  default (served calm) (finished one_client).

(** ** The message callback of the test server *)

(** A shallow embedding of [OnMessage] in [src/tests/server_test.cpp]: it
    parses the message as a number, prints it with a running index, and
    sends the message back on the connection. *)

Module ServerTest.

Definition LLONG_MAX : Z := 9223372036854775807.
Definition LLONG_MIN : Z := -9223372036854775808.
Definition INT_MAX : Z := 2147483647.
Definition INT_MIN : Z := -2147483648.

(** The exceptions of [std::stoll]. *)
Inductive StollError :=
| invalid_argument
| out_of_range.

(** [isspace] in the C locale: the space, and the control characters from
    the horizontal tab to the carriage return. *)
Definition isspace (c : ascii) : bool :=
  let n := Z.of_N (N_of_ascii c) in
  (n =? 32) || ((9 <=? n) && (n <=? 13)).

Definition digit_of (c : ascii) : option Z :=
  let n := Z.of_N (N_of_ascii c) in
  if (48 <=? n) && (n <=? 57) then Some (n - 48) else None.

Fixpoint skip_spaces (s : string) : string :=
  match s with
  | String c r => if isspace c then skip_spaces r else s
  | EmptyString => s
  end.

(** The value of the decimal digits at the head of [s], after [acc]. *)
Fixpoint read_digits (s : string) (acc : Z) : Z :=
  match s with
  | String c r =>
      match digit_of c with
      | Some d => read_digits r (10 * acc + d)
      | None => acc
      end
  | EmptyString => acc
  end.

Definition starts_with_digit (s : string) : bool :=
  match s with
  | String c _ => match digit_of c with Some _ => true | None => false end
  | EmptyString => false
  end.

(** [std::stoll(str)], base 10: leading white space is skipped, then an
    optional sign and the longest run of digits are read; what follows is
    ignored.  With no digit to read it throws [std::invalid_argument], with
    a value that no [long long] holds [std::out_of_range]. *)
Definition stoll (str : string) : StollError + Z :=
  let s := skip_spaces str in
  let (negative, s) :=
    match s with
    | String "-" r => (true, r)
    | String "+" r => (false, r)
    | _ => (false, s)
    end in
  if starts_with_digit s then
    let v := read_digits s 0 in
    let v := if negative then - v else v in
    if (LLONG_MIN <=? v) && (v <=? LLONG_MAX) then inr v else inl out_of_range
  else inl invalid_argument.

(** [static_cast<int>] of a [long long]: the low 32 bits, as a signed
    value. *)
Definition to_int (v : Z) : Z := (v + 2 ^ 31) mod 2 ^ 32 - 2 ^ 31.

(** What [printf] writes for a [%d]. *)
Definition print_d (n : Z) : string := NilZero.string_of_int (Z.to_int n).

Definition newline : string := String "010" EmptyString.

(** A connection, by its identity. *)
Definition ConnectionPtr := nat.

(** The process as [OnMessage] sees it: its static counter, the standard
    output, and the messages handed to [Connection::Send] so far. *)
Record Process := {
  i : Z;
  stdout : string;
  sent : list (ConnectionPtr * string)
}.

(** Modelled from the spec: [Connection::Send], of a class whose header
    and implementation are not among the sources; the call is written
    down with its connection and its argument. *)
Definition Send (conn : ConnectionPtr) (msg : string) (p : Process) : Process :=
  {| i := i p; stdout := stdout p; sent := sent p ++ [(conn, msg)] |}.

(** How a call of [OnMessage] ends.  [Undefined]: the increment of the
    counter overflows. *)
Inductive Returns :=
| Normal (p : Process)
| Throws (e : StollError) (p : Process)
| Undefined.

Definition OnMessage (conn : ConnectionPtr) (msg : string) (p : Process)
  : Returns :=
  match stoll msg with
  | inl e => Throws e p
  | inr v =>
      let m := to_int v in
      if i p =? INT_MAX then Undefined
      else
        let line := ("[" ++ print_d (i p) ++ "]: " ++ print_d m ++ newline)%string in
        Normal (Send conn msg
                  {| i := i p + 1;
                     stdout := (stdout p ++ line)%string;
                     sent := sent p |})
  end.

(** [OnMessage] called for one message after the other, as long as it
    returns. *)
Fixpoint OnMessages (msgs : list (ConnectionPtr * string)) (p : Process)
  : Returns :=
  match msgs with
  | [] => Normal p
  | (conn, msg) :: msgs' =>
      match OnMessage conn msg p with
      | Normal p' => OnMessages msgs' p'
      | r => r
      end
  end.

(** The lines that [OnMessage] prints for the messages [msgs], the counter
    being [n] before the first. *)
Fixpoint lines (n : Z) (msgs : list (ConnectionPtr * string)) : string :=
  match msgs with
  | [] => EmptyString
  | (_, msg) :: msgs' =>
      ("[" ++ print_d n ++ "]: "
         ++ print_d (to_int (match stoll msg with inr v => v | inl _ => 0 end))
         ++ newline ++ lines (n + 1) msgs')%string
  end.

(** The value [v] as [stoll] returns it. *)
Definition in_range (v : Z) : StollError + Z :=
  if (LLONG_MIN <=? v) && (v <=? LLONG_MAX) then inr v else inl out_of_range.

Definition parses (m : ConnectionPtr * string) : bool :=
  match stoll (snd m) with inr _ => true | inl _ => false end.

Fixpoint all_spaces (s : string) : bool :=
  match s with
  | String c r => isspace c && all_spaces r
  | EmptyString => true
  end.

End ServerTest.

(** ** The judgements of the proofs *)

Section Judgements.

Context {U : Type}.
Implicit Types (s : State U) (d : list Action).

Definition next (s : State U) : Z := next_handle (ker s).

(** [Ran P s s' d]: from [s] to [s'] the code logged the actions [d], all
    in [P]; it assigned no field of the acceptor but [next_pipe_], which
    holds the result of the last pipe creation; the handles it obtained are
    the ones the kernel handed out in between. *)
Record Ran (P : Action -> Prop) (s s' : State U) (d : list Action) : Prop := {
  ran_trace : trace s' = trace s ++ d;
  ran_actions : Forall P d;
  ran_acc : acc s' = set_next_pipe_ (next_pipe_ (acc s')) (acc s);
  ran_pipe : next_pipe_ (acc s') = last_pipe (next_pipe_ (acc s)) d;
  ran_next : next s <= next s';
  ran_created : 0 < next s -> omap created d = seqZ (next s) (next s' - next s);
  ran_oracle : oracle (ker s') = oracle (ker s)
}.

Definition Spec (name : string) (ce we : HANDLE) (evs : list HANDLE)
    {A} (m : M U A) : Prop :=
  forall s, pipe_name_ (acc s) = name -> hEvent (connect_overlap_ (acc s)) = ce ->
    exists d, Ran (loop_action name ce we evs) s (snd (m s)) d
              /\ throw_shape (fst (m s)) d.

(** [hev] is the event of the OVERLAPPED record, [ce] the local of the
    loop; the thread function binds the one to the other. *)
Definition SpecL (name : string) (hev ce we : HANDLE) (evs : list HANDLE)
    (m : M U LoopExit) : Prop :=
  forall s, pipe_name_ (acc s) = name -> hEvent (connect_overlap_ (acc s)) = hev ->
    exists d, Ran (loop_action name hev we evs) s (snd (m s)) d
              /\ exit_shape evs ce we (fst (m s)) d.

(** [Moved s s' d]: as [Ran], for code that may also assign
    [connect_overlap_] and log any action that creates no pipe. *)
Record Moved (s s' : State U) (d : list Action) : Prop := {
  mv_trace : trace s' = trace s ++ d;
  mv_acc : acc s' = set_next_pipe_ (next_pipe_ (acc s'))
                      (set_connect_overlap_ (connect_overlap_ (acc s')) (acc s));
  mv_pipe : next_pipe_ (acc s') = last_pipe (next_pipe_ (acc s)) d;
  mv_next : next s <= next s';
  mv_created : 0 < next s -> omap created d = seqZ (next s) (next s' - next s);
  mv_oracle : oracle (ker s') = oracle (ker s)
}.

(** The actions of a run of the try block, by the way it ends. *)
Inductive thread_delta (name : string) (close : HANDLE)
  : Res LoopExit -> list Action -> Prop :=
| td_no_conn_event e :
    thread_delta name close (Exc e) [CreateEventA true true NULL; ThrowA e]
| td_no_write_event ce e :
    ce <> NULL ->
    thread_delta name close (Exc e)
      [CreateEventA true true ce; CreateEventA false false NULL;
       ThrowA e; CloseHandleA ce]
| td_looped ce we dl r :
    ce <> NULL -> we <> NULL ->
    Forall (loop_action name ce we [ce; we; close]) dl ->
    exit_shape [ce; we; close] ce we r dl ->
    thread_delta name close r
      (CreateEventA true true ce :: CreateEventA false false we
         :: dl ++ unwound r ce we).

(** The state in which the connect-ready branch reaches its callback. *)
Definition connect_confirmed (evs : list HANDLE) (pedding : bool) s : State U :=
  let s1 := snd (sysWaitForMultipleObjectsEx evs WAIT_OBJECT_0 s) in
  if pedding
  then snd (sysGetOverlappedResult (next_pipe_ (acc s)) (connect_overlap_ (acc s)) s1)
  else s1.

(** Between the calls of its owner, the handles of an acceptor are in
    order: the kernel handed out 1, 2, ... one per successful creation;
    [next_pipe_] is the result of the last pipe creation; and the events
    created so far are the events closed so far and the events held. *)
Record Inv (s : State U) : Prop := {
  inv_next : 0 < next s;
  inv_created : omap created (trace s) = seqZ 1 (next s - 1);
  inv_pipe : next_pipe_ (acc s) = last_pipe NULL (trace s);
  inv_events : omap created_event (trace s) ≡ₚ omap closed (trace s) ++ held s
}.

(** [Advanced s s' d]: what every piece of code of the acceptor does to the
    handles while it logs [d]. *)
Record Advanced (s s' : State U) (d : list Action) : Prop := {
  adv_trace : trace s' = trace s ++ d;
  adv_close_event : close_event_ (acc s') = close_event_ (acc s);
  adv_pipe : next_pipe_ (acc s') = last_pipe (next_pipe_ (acc s)) d;
  adv_next : next s <= next s';
  adv_created : 0 < next s -> omap created d = seqZ (next s) (next s' - next s)
}.

(** Where a run of the thread function is entered: at its first statement,
    or back in the wait in which it was suspended. *)
Inductive Entry :=
| FromStart
| FromWait (conn_event write_event : HANDLE) (pedding : bool).

Definition try_segment (en : Entry) (waits : list DWORD) : M U LoopExit :=
  match en with
  | FromStart => try_block waits
  | FromWait c w p => try_block_resumed c w p waits
  end.

Definition thread_function (en : Entry) (waits : list DWORD)
  : State U -> Thread * State U :=
  run_thread (try_segment en waits).

(** The actions of a run of the try block from [en], by the way it ends. *)
Definition run_delta (en : Entry) (name : string) (hev close : HANDLE)
    (r : Res LoopExit) (d : list Action) : Prop :=
  match en with
  | FromStart => thread_delta name close r d
  | FromWait c w _ =>
      exists dl, d = dl ++ unwound r c w
                 /\ Forall (loop_action name hev w [c; w; close]) dl
                 /\ exit_shape [c; w; close] c w r dl
  end.

(** The code [m], and when it ends suspended the loop over [waits] from
    there. *)
Definition then_resumed (waits : list DWORD) (evs : list HANDLE)
    (m : M U LoopExit) : M U LoopExit :=
  fun s => match m s with
           | (Val (Suspend c w p), s1) => loop waits c w evs p s1
           | r => r
           end.

End Judgements.

(** ** The runs of the loop, action by action *)

(** The exception a failure throws: the text of the failing place, then the
    last-error code in decimal. *)
Definition failure (text : string) (code : DWORD) : Exception :=
  Connection {| what := String.append text (to_string code) |}.

(** The ways through [CreateConnectInstance]: the pipe instance [h] it
    asked for, what it returned or threw, and what it logged.  [le] is the
    last-error code of the thread when control leaves the code: the code in
    the message of what it throws. *)
Inductive rearmed (name : string) (hev : HANDLE) (le : DWORD)
  : HANDLE -> Res bool -> list Action -> Prop :=
| rearmed_no_pipe :
    rearmed name hev le INVALID_HANDLE_VALUE
      (Exc (failure "CreateNamedPipe failed GLE = " le))
      [CreateNamedPipeA (c_str name) INVALID_HANDLE_VALUE;
       ThrowA (failure "CreateNamedPipe failed GLE = " le)]
| rearmed_connected_at_once h :
    h <> INVALID_HANDLE_VALUE ->
    rearmed name hev le h (Exc (failure "ConnectNamedPipe failed GLE = " le))
      [CreateNamedPipeA (c_str name) h; ConnectNamedPipeA h hev true;
       ThrowA (failure "ConnectNamedPipe failed GLE = " le)]
| rearmed_pending h :
    h <> INVALID_HANDLE_VALUE ->
    rearmed name hev le h (Val true)
      [CreateNamedPipeA (c_str name) h; ConnectNamedPipeA h hev false]
| rearmed_client_there h :
    h <> INVALID_HANDLE_VALUE ->
    rearmed name hev le h (Val false)
      [CreateNamedPipeA (c_str name) h; ConnectNamedPipeA h hev false;
       SetEventA hev true]
| rearmed_not_signaled h :
    h <> INVALID_HANDLE_VALUE ->
    rearmed name hev le h (Exc (failure "ConnectNamedPipe failed GLE = " le))
      [CreateNamedPipeA (c_str name) h; ConnectNamedPipeA h hev false;
       SetEventA hev false;
       ThrowA (failure "ConnectNamedPipe failed GLE = " le)]
| rearmed_connect_failed h :
    h <> INVALID_HANDLE_VALUE ->
    le <> ERROR_IO_PENDING -> le <> ERROR_PIPE_CONNECTED ->
    rearmed name hev le h (Exc (failure "ConnectNamedPipe failed GLE = " le))
      [CreateNamedPipeA (c_str name) h; ConnectNamedPipeA h hev false;
       ThrowA (failure "ConnectNamedPipe failed GLE = " le)].

(** What a connect-ready wake logs before it re-arms: the result of a
    pending connect, and the callback when one is registered. *)
Definition fetched (pipe hev : HANDLE) (pedding : bool) : list Action :=
  if pedding then [GetOverlappedResultA pipe hev true] else [].

Definition delivery (registered : bool) (pipe we : HANDLE) : list Action :=
  if registered then [NewConnectionA pipe we] else [].

Definition deferred (registered : bool) : list Action :=
  if registered then [AsyncIoA] else [].

(** The ways through the loop, from a wait with current endpoint [pipe] and
    pending flag [pedding]: how control leaves it, and what it logged.  [nc]
    and [io] tell whether the new-connection and the deferred-work callbacks
    are registered; [le] is the last-error code of the thread when control
    leaves the loop. *)
Inductive looped (name : string) (hev ce we : HANDLE) (evs : list HANDLE)
    (nc io : bool) (le : DWORD)
  : HANDLE -> bool -> Res LoopExit -> list Action -> Prop :=
| looped_suspended pipe pedding :
    looped name hev ce we evs nc io le pipe pedding
      (Val (Suspend ce we pedding)) []
| looped_accepted pipe pedding h pedding' dr r d :
    rearmed name hev le h (Val pedding') dr ->
    looped name hev ce we evs nc io le h pedding' r d ->
    looped name hev ce we evs nc io le pipe pedding r
      (WaitA evs WAIT_OBJECT_0
         :: fetched pipe hev pedding ++ delivery nc pipe we ++ dr ++ d)
| looped_accepted_last pipe pedding h e dr :
    rearmed name hev le h (Exc e) dr ->
    looped name hev ce we evs nc io le pipe pedding (Exc e)
      (WaitA evs WAIT_OBJECT_0
         :: fetched pipe hev pedding ++ delivery nc pipe we ++ dr)
| looped_connect_failed pipe :
    looped name hev ce we evs nc io le pipe true
      (Exc (failure "ConnectNamedPipe failed GLE = " le))
      [WaitA evs WAIT_OBJECT_0; GetOverlappedResultA pipe hev false;
       ThrowA (failure "ConnectNamedPipe failed GLE = " le)]
| looped_refused pipe pedding e :
    nc = true ->
    looped name hev ce we evs nc io le pipe pedding (Exc e)
      (WaitA evs WAIT_OBJECT_0
         :: fetched pipe hev pedding ++ [NewConnectionA pipe we; ThrowA e])
| looped_deferred pipe pedding r d :
    looped name hev ce we evs nc io le pipe pedding r d ->
    looped name hev ce we evs nc io le pipe pedding r
      (WaitA evs (WAIT_OBJECT_0 + 1) :: deferred io ++ d)
| looped_deferred_thrown pipe pedding e :
    io = true ->
    looped name hev ce we evs nc io le pipe pedding (Exc e)
      [WaitA evs (WAIT_OBJECT_0 + 1); AsyncIoA; ThrowA e]
| looped_stopped pipe pedding :
    looped name hev ce we evs nc io le pipe pedding (Val Return)
      [WaitA evs (WAIT_OBJECT_0 + 2)]
| looped_alerted pipe pedding r d :
    looped name hev ce we evs nc io le pipe pedding r d ->
    looped name hev ce we evs nc io le pipe pedding r
      (WaitA evs WAIT_IO_COMPLETION :: d)
| looped_unexpected pipe pedding w :
    w <> WAIT_OBJECT_0 -> w <> WAIT_OBJECT_0 + 1 -> w <> WAIT_OBJECT_0 + 2 ->
    w <> WAIT_IO_COMPLETION ->
    looped name hev ce we evs nc io le pipe pedding
      (Exc (failure "Unexpected error GLE = " le))
      [WaitA evs w; ThrowA (failure "Unexpected error GLE = " le)].

(** The first pipe instance, then the loop. *)
Inductive accepting (name : string) (hev ce we : HANDLE) (evs : list HANDLE)
    (nc io : bool) (le : DWORD) : Res LoopExit -> list Action -> Prop :=
| accepting_looped h pedding dr r d :
    rearmed name hev le h (Val pedding) dr ->
    looped name hev ce we evs nc io le h pedding r d ->
    accepting name hev ce we evs nc io le r (dr ++ d)
| accepting_failed h e dr :
    rearmed name hev le h (Exc e) dr ->
    accepting name hev ce we evs nc io le (Exc e) dr.

(** The ways through the try block from its first statement. *)
Inductive tried (name : string) (close : HANDLE) (nc io : bool) (le : DWORD)
  : Res LoopExit -> list Action -> Prop :=
| tried_no_conn_event :
    tried name close nc io le
      (Exc (failure "CreateEvent (connect event) failed GLE = " le))
      [CreateEventA true true NULL;
       ThrowA (failure "CreateEvent (connect event) failed GLE = " le)]
| tried_no_write_event ce :
    ce <> NULL ->
    tried name close nc io le
      (Exc (failure "CreateEvent (write event) failed GLE = " le))
      [CreateEventA true true ce; CreateEventA false false NULL;
       ThrowA (failure "CreateEvent (write event) failed GLE = " le);
       CloseHandleA ce]
| tried_accepting ce we r d :
    ce <> NULL -> we <> NULL ->
    accepting name ce ce we [ce; we; close] nc io le r d ->
    tried name close nc io le r
      (CreateEventA true true ce :: CreateEventA false false we
         :: d ++ unwound r ce we).

(** The ways through the try block from [en], with [pipe] the current
    endpoint when it is entered. *)
Definition try_trace (en : Entry) (name : string) (hev close : HANDLE)
    (nc io : bool) (le : DWORD) (pipe : HANDLE) (r : Res LoopExit)
    (d : list Action) : Prop :=
  match en with
  | FromStart => tried name close nc io le r d
  | FromWait c w p =>
      exists dl, d = dl ++ unwound r c w
                 /\ looped name hev c w [c; w; close] nc io le pipe p r dl
  end.

Definition registered {A} (cb : option A) : bool :=
  match cb with Some _ => true | None => false end.

(** What the thread function logs after its try block. *)
Definition reported {A B} (r : Res A) (cb : option B) : list Action :=
  match r, cb with
  | Exc e, Some _ => [ExceptionA (Some e)]
  | _, _ => []
  end.

(** The thread as [run_thread] leaves it. *)
Definition thread_of (r : Res LoopExit) : Thread :=
  match r with
  | Val (Suspend c w p) => Waiting c w p
  | _ => Exited
  end.

(** The endpoint that waits for its client after an action: the pipe
    instance just created, none once it has been handed to the callback. *)
Definition await (aw : option HANDLE) (a : Action) : option HANDLE :=
  match a with
  | CreateNamedPipeA _ _ => created_pipe a
  | NewConnectionA _ _ => None
  | _ => aw
  end.

Fixpoint awaiting (aw : option HANDLE) (t : list Action) : option HANDLE :=
  match t with
  | [] => aw
  | a :: t' => awaiting (await aw a) t'
  end.

(** Every endpoint handed to the callback is the one that was waiting. *)
Fixpoint in_turn (aw : option HANDLE) (t : list Action) : Prop :=
  match t with
  | [] => True
  | a :: t' =>
      match a with
      | NewConnectionA pipe _ => aw = Some pipe
      | _ => True
      end /\ in_turn (await aw a) t'
  end.

Definition is_create_pipe (a : Action) : bool :=
  match a with CreateNamedPipeA _ _ => true | _ => false end.

Definition is_new_connection (a : Action) : bool :=
  match a with NewConnectionA _ _ => true | _ => false end.

(** The deliveries that ended with an exception: the invocations of the
    new-connection callback that a throw follows at once.  [delivered]
    tells whether such an invocation is the action before [t]. *)
Fixpoint refusals (delivered : bool) (t : list Action) : nat :=
  match t with
  | [] => O
  | a :: t' =>
      ((if delivered && is_throw a then 1 else 0)
       + refusals (is_new_connection a) t')%nat
  end.

Definition is_connect_wake (a : Action) : bool :=
  match a with WaitA _ r => r =? WAIT_OBJECT_0 | _ => false end.

Definition named (name : string) (a : Action) : Prop :=
  match a with CreateNamedPipeA n _ => n = name | _ => True end.

(** The text with which the thread function reports the failure of the
    call that action [a] is. *)
Definition blames (a : Action) : option string :=
  match a with
  | CreateEventA true _ _ => Some "CreateEvent (connect event) failed GLE = "%string
  | CreateEventA false _ _ => Some "CreateEvent (write event) failed GLE = "%string
  | CreateNamedPipeA _ _ => Some "CreateNamedPipe failed GLE = "%string
  | ConnectNamedPipeA _ _ _ | SetEventA _ _ | GetOverlappedResultA _ _ _ =>
      Some "ConnectNamedPipe failed GLE = "%string
  | WaitA _ _ => Some "Unexpected error GLE = "%string
  | _ => None
  end.

Definition is_callback (a : Action) : bool :=
  match a with NewConnectionA _ _ | AsyncIoA => true | _ => false end.

(** The exception [e] is in flight after action [a], the last-error code
    of the thread being [code]: [a] is a call the thread function blames,
    and [e] is its error with the text of that call and [code]; or [a] is a
    callback, which threw [e]. *)
Definition accounts (code : DWORD) (a : Action) (e : Exception) : Prop :=
  match blames a with
  | Some text => e = failure text code
  | None => is_callback a = true
  end.

(** Every exception follows the call it blames, with that call's text, or
    the callback that threw it. *)
Fixpoint explained (code : DWORD) (prev : option Action) (t : list Action)
  : Prop :=
  match t with
  | [] => True
  | a :: t' =>
      match a with
      | ThrowA e => exists b, prev = Some b /\ accounts code b e
      | _ => True
      end /\ explained code (Some a) t'
  end.

(** The first action of a run of the thread function. *)
Definition is_run_start (a : Action) : bool :=
  match a with CreateEventA true _ _ => true | _ => false end.

Definition is_failed_result (a : Action) : bool :=
  match a with GetOverlappedResultA _ _ false => true | _ => false end.

Definition is_deferred_wake (a : Action) : bool :=
  match a with WaitA _ r => r =? WAIT_OBJECT_0 + 1 | _ => false end.

Definition is_async_io (a : Action) : bool :=
  match a with AsyncIoA => true | _ => false end.

(** A count that looks at no action around the waits of the loop: the
    events of the run, the re-arming, the throws. *)
Definition counts_wakes_only (p : Action -> bool) : Prop :=
  (forall m i h, p (CreateEventA m i h) = false)
  /\ (forall h, p (CloseHandleA h) = false)
  /\ (forall n x, p (CreateNamedPipeA n x) = false)
  /\ (forall x y b, p (ConnectNamedPipeA x y b) = false)
  /\ (forall x b, p (SetEventA x b) = false)
  /\ (forall e, p (ThrowA e) = false).

(** What the owner of the acceptor logs on its own thread. *)
Definition owner_action (a : Action) : Prop :=
  match a with
  | SetEventA _ _ | DisconnectNamedPipeA _ | CloseHandleA _ => True
  | _ => False
  end.



(** The values of the wait for which the loop has a case. *)
Definition is_expected_wake (w : DWORD) : bool :=
  (w =? WAIT_OBJECT_0) || (w =? WAIT_OBJECT_0 + 1) || (w =? WAIT_OBJECT_0 + 2)
  || (w =? WAIT_IO_COMPLETION).

Section Traced.

Context {U : Type}.

(** The fields of the acceptor that a run of the loop reads and does not
    assign. *)
Definition configured (name : string) (hev : HANDLE) (nc io : bool)
    (s : State U) : Prop :=
  pipe_name_ (acc s) = name
  /\ hEvent (connect_overlap_ (acc s)) = hev
  /\ registered (new_connection_callback_ (acc s)) = nc
  /\ registered (async_io_callback_ (acc s)) = io.

(** From [s] the code [m] logs actions that [G] accepts, with its result
    and the last-error code it leaves. *)
Definition traced {A} (m : M U A) (s : State U)
    (G : DWORD -> Res A -> list Action -> Prop) : Prop :=
  exists d, trace (snd (m s)) = trace s ++ d
            /\ G (last_error (ker (snd (m s)))) (fst (m s)) d.


(** So far every endpoint was handed over in its turn, and while the loop
    waits the current endpoint waits for its client. *)
Definition turns_kept (s : State U) : Prop :=
  in_turn None (trace s)
  /\ forall c w p, listen_thread_ (acc s) = Some (Waiting c w p) ->
       awaiting None (trace s) = Some (next_pipe_ (acc s)).



Definition is_setter (c : Call U) : bool :=
  match c with
  | CallListen _ | CallStop _ => false
  | _ => true
  end.

Definition is_listen (c : Call U) : bool :=
  match c with CallListen _ => true | _ => false end.

(** What an acceptor that has not listened logs between its construction
    and its destruction, [h] being its stop event. *)
Definition idle_step (h : HANDLE) (a : Action) : Prop :=
  a = DisconnectNamedPipeA NULL
  \/ exists b, a = SetEventA h b /\ (h = NULL -> b = false).

(** An acceptor that has not listened. *)
Definition idle (h : HANDLE) (u : U) (s : State U) : Prop :=
  listen_thread_ (acc s) = None /\ next_pipe_ (acc s) = NULL
  /\ close_event_ (acc s) = h /\ user s = u
  /\ objects (ker s) !! NULL = None
  /\ exists mid, trace s = CreateEventA false false h :: mid
                 /\ Forall (idle_step h) mid.

(** So far no more exceptions were reported than runs of the thread
    function were started, a run that still waits not counted. *)
Definition reports_kept (s : State U) : Prop :=
  (tally is_exception_call (trace s)
   + match listen_thread_ (acc s) with
     | Some (Waiting _ _ _) => 1
     | _ => 0
     end
   <= tally is_run_start (trace s))%nat.

End Traced.


(** ** How the code of the loop thread moves the state *)

Section Shape.

Context {U : Type}.
Implicit Types (s : State U) (d : list Action).

Lemma last_pipe_app h d1 d2 :
  last_pipe h (d1 ++ d2) = last_pipe (last_pipe h d1) d2.
Proof.
  revert h. induction d1 as [|a d1 IH]; intros h; simpl; [reflexivity|].
  destruct a; apply IH.
Qed.

Lemma tally_app p (t1 t2 : list Action) :
  tally p (t1 ++ t2) = (tally p t1 + tally p t2)%nat.
Proof.
  induction t1 as [|a t1 IH]; simpl; [reflexivity|].
  destruct (p a); simpl; rewrite IH; reflexivity.
Qed.

Lemma Ran_refl P s : Ran P s s [].
Proof.
  split; simpl; try reflexivity.
  - rewrite app_nil_r. reflexivity.
  - constructor.
  - destruct (acc s); reflexivity.
  - intros _. rewrite Z.sub_diag. reflexivity.
Qed.

Lemma Ran_trans P s s1 s2 d1 d2 :
  Ran P s s1 d1 -> Ran P s1 s2 d2 -> Ran P s s2 (d1 ++ d2).
Proof.
  intros [T1 A1 C1 N1 H1 K1 O1] [T2 A2 C2 N2 H2 K2 O2]. split.
  - rewrite T2, T1, app_assoc. reflexivity.
  - apply Forall_app; split; assumption.
  - rewrite C2, C1. destruct (acc s); reflexivity.
  - rewrite last_pipe_app, <- N1. exact N2.
  - lia.
  - intros Hpos. rewrite omap_app, K1, K2 by lia.
    replace (next s2 - next s) with ((next s1 - next s) + (next s2 - next s1)) by lia.
    rewrite seqZ_app by lia. f_equal. f_equal. lia.
  - congruence.
Qed.

Lemma Ran_weaken (P Q : Action -> Prop) s s' d :
  (forall a, P a -> Q a) -> Ran P s s' d -> Ran Q s s' d.
Proof.
  intros HPQ [T A C N H K O]. split; try assumption.
  eapply Forall_impl; eassumption.
Qed.

(** A step that logs one action, obtains no handle and assigns no field. *)
Lemma Ran_log (P : Action -> Prop) s s' a :
  P a -> created a = None -> last_pipe (next_pipe_ (acc s)) [a] = next_pipe_ (acc s) ->
  acc s' = acc s -> trace s' = trace s ++ [a] ->
  next s' = next s -> oracle (ker s') = oracle (ker s) ->
  Ran P s s' [a].
Proof.
  intros HP Hc Hl Ha Ht Hn Ho. split; simpl; try assumption.
  - constructor; [assumption|constructor].
  - rewrite Ha. destruct (acc s); reflexivity.
  - rewrite Ha. symmetry. exact Hl.
  - lia.
  - intros _. rewrite Hc, Hn, Z.sub_diag. reflexivity.
Qed.

Ltac ran_log :=
  eapply Ran_log; [ | | | | reflexivity | | ];
  try reflexivity; try exact I; try assumption.

Lemma seqZ_one (m : Z) : seqZ m (m + 1 - m) = [m].
Proof. replace (m + 1 - m) with 1 by lia. reflexivity. Qed.

Lemma CreateConnectInstance_spec name ce we evs :
  Spec (U:=U) name ce we evs CreateConnectInstance.
Proof.
  intros s Hname Hce. subst name ce.
  unfold CreateConnectInstance, bind, get, sys, modify, fail_GLE, throw, ret,
    sysCreateNamedPipe, sysConnectNamedPipe, sysSetEvent, GetLastError,
    Win32.CreateNamedPipe, Win32.ConnectNamedPipe, Win32.SetEvent.
  simpl.
  destruct (on_CreateNamedPipe (oracle (ker s)) (clock (ker s))) as [c|] eqn:Ec; simpl.
  - (* CreateNamedPipe failed *)
    eexists. split; [split|]; simpl.
    + rewrite <- app_assoc. reflexivity.
    + repeat constructor.
    + destruct (acc s); reflexivity.
    + reflexivity.
    + unfold next; simpl; lia.
    + intros _. unfold next; simpl. rewrite Z.sub_diag. reflexivity.
    + reflexivity.
    + eexists [_]. split; reflexivity.
  - destruct (next_handle (ker s) =? INVALID_HANDLE_VALUE) eqn:Ei; simpl.
    + (* a handle equal to INVALID_HANDLE_VALUE: only from a kernel
         whose counter is not positive *)
      eexists. split; [split|]; simpl.
      * rewrite <- app_assoc. reflexivity.
      * repeat constructor.
      * destruct (acc s); reflexivity.
      * reflexivity.
      * unfold next; simpl; lia.
      * intros Hpos. unfold next in *. apply Z.eqb_eq in Ei.
        unfold INVALID_HANDLE_VALUE in Ei. lia.
      * reflexivity.
      * eexists [_]. split; reflexivity.
    + destruct (on_ConnectNamedPipe (oracle (ker s)) (S (clock (ker s)))) as [c|] eqn:En; simpl.
      * destruct (c =? ERROR_IO_PENDING) eqn:E1; simpl;
          [|destruct (c =? ERROR_PIPE_CONNECTED) eqn:E2; simpl;
            [destruct (alter (set_signaled false) (hEvent (connect_overlap_ (acc s)))
                         (objects (ker s)) !! hEvent (connect_overlap_ (acc s))) eqn:El; simpl;
             [destruct (on_SetEvent (oracle (ker s)) (S (S (clock (ker s))))) eqn:Es; simpl|]|]];
          (eexists; split; [split|]; simpl;
           [ rewrite <- ?app_assoc; reflexivity
           | repeat constructor
           | destruct (acc s); reflexivity
           | reflexivity
           | unfold next; simpl; lia
           | intros _; simpl; rewrite Ei; unfold next; simpl; apply eq_sym, seqZ_one
           | reflexivity
           | first [ reflexivity | eexists (_ :: _ :: _ :: []); split; reflexivity
                   | eexists (_ :: _ :: []); split; reflexivity ] ]).
      * eexists; split; [split|]; simpl;
           [ rewrite <- ?app_assoc; reflexivity
           | repeat constructor
           | destruct (acc s); reflexivity
           | reflexivity
           | unfold next; simpl; lia
           | intros _; simpl; rewrite Ei; unfold next; simpl; apply eq_sym, seqZ_one
           | reflexivity
           | eexists (_ :: _ :: []); split; reflexivity ].
Qed.

Lemma Spec_bind name ce we evs {A B} (m : M U A) (f : A -> M U B) :
  Spec (U:=U) name ce we evs m -> (forall a, Spec (U:=U) name ce we evs (f a)) ->
  Spec (U:=U) name ce we evs (bind m f).
Proof.
  intros Hm Hf s Hname Hce. destruct (Hm s Hname Hce) as (d1 & R1 & T1).
  unfold bind. destruct (m s) as [[a|e] s1]; simpl in *.
  - destruct (Hf a s1) as (d2 & R2 & T2).
    + rewrite (ran_acc _ _ _ _ R1). destruct (acc s); exact Hname.
    + rewrite (ran_acc _ _ _ _ R1). destruct (acc s); exact Hce.
    + exists (d1 ++ d2). split; [eapply Ran_trans; eassumption|].
      destruct (fst (f a s1)); simpl in *.
      * rewrite tally_app, T1, T2. reflexivity.
      * destruct T2 as (d' & -> & T2). exists (d1 ++ d'). split.
        -- rewrite app_assoc. reflexivity.
        -- rewrite tally_app, T1, T2. reflexivity.
  - exists d1. split; assumption.
Qed.

Lemma Spec_ret name ce we evs {A} (a : A) : Spec (U:=U) name ce we evs (ret a).
Proof. intros s _ _. exists []. split; [apply Ran_refl|reflexivity]. Qed.

Lemma Spec_get name ce we evs {A} (f : Acceptor U -> A) :
  Spec (U:=U) name ce we evs (get f).
Proof. intros s _ _. exists []. split; [apply Ran_refl|reflexivity]. Qed.

Lemma Spec_GetLastError name ce we evs : Spec (U:=U) name ce we evs (sys GetLastError).
Proof. intros s _ _. exists []. split; [apply Ran_refl|reflexivity]. Qed.

Lemma Spec_throw name ce we evs {A} msg : Spec (U:=U) name ce we evs (@throw U A msg).
Proof.
  intros s _ _. eexists [_]. split.
  - ran_log.
  - eexists []. split; reflexivity.
Qed.

Lemma Spec_fail_GLE name ce we evs {A} msg :
  Spec (U:=U) name ce we evs (@fail_GLE U A msg).
Proof.
  apply Spec_bind; [apply Spec_GetLastError|]. intros e. apply Spec_throw.
Qed.

Lemma wait_returns handles w k :
  fst (Win32.WaitForMultipleObjectsEx handles w k) = w.
Proof.
  unfold Win32.WaitForMultipleObjectsEx.
  destruct (satisfied_by handles w); reflexivity.
Qed.

Lemma wait_keeps handles w k :
  let k' := snd (Win32.WaitForMultipleObjectsEx handles w k) in
  next_handle k' = next_handle k /\ oracle k' = oracle k
  /\ clock k' = S (clock k).
Proof.
  unfold Win32.WaitForMultipleObjectsEx.
  destruct (satisfied_by handles w); simpl; auto.
Qed.

Lemma sysWait_returns evs w s :
  fst (sysWaitForMultipleObjectsEx evs w s) = w.
Proof.
  unfold sysWaitForMultipleObjectsEx.
  pose proof (wait_returns evs w (ker s)) as H.
  destruct (Win32.WaitForMultipleObjectsEx evs w (ker s)); exact H.
Qed.

Lemma Spec_wait name ce we evs w :
  Spec (U:=U) name ce we evs (sys (sysWaitForMultipleObjectsEx evs w)).
Proof.
  intros s _ _. unfold sys, sysWaitForMultipleObjectsEx.
  pose proof (wait_keeps evs w (ker s)) as (Hn & Ho & _).
  destruct (Win32.WaitForMultipleObjectsEx evs w (ker s)) as [r k]; simpl in *.
  exists [WaitA evs r]. split; [|reflexivity].
  ran_log.
Qed.

Lemma Spec_GetOverlappedResult name ce we evs (s0 : State U) pipe :
  hEvent (connect_overlap_ (acc s0)) = ce ->
  Spec (U:=U) name ce we evs
    (sys (sysGetOverlappedResult pipe (connect_overlap_ (acc s0)))).
Proof.
  intros H0 s _ _. unfold sys, sysGetOverlappedResult, Win32.GetOverlappedResult.
  destruct (on_GetOverlappedResult _ _); simpl; eexists [_];
    (split;
     [ran_log|reflexivity]).
Qed.

Lemma Spec_call_back name ce we evs a (cb : Callback (U:=U)) :
  loop_action name ce we evs a -> created a = None ->
  (forall h, last_pipe h [a] = h) -> is_throw a = false ->
  Spec (U:=U) name ce we evs (call_back a cb).
Proof.
  intros Ha Hc Hl Ht s _ _. unfold call_back.
  destruct (cb (user s)) as [[v|e] u]; simpl.
  - exists [a]. split; [|simpl; rewrite Ht; reflexivity].
    ran_log. apply Hl.
  - exists ([a] ++ [ThrowA e]). split.
    + eapply Ran_trans; [|ran_log].
      eapply (Ran_log _ s (log a (set_user u s)));
        try reflexivity; try assumption. apply Hl.
    + exists [a]. split; [reflexivity|]. simpl. rewrite Ht. reflexivity.
Qed.

Lemma Spec_call_new_connection name ce we evs pipe :
  Spec (U:=U) name ce we evs (call_new_connection pipe we).
Proof.
  intros s Hn Hc. unfold call_new_connection.
  destruct (new_connection_callback_ (acc s)) as [cb|].
  - apply Spec_call_back; auto; reflexivity.
  - exists []. split; [apply Ran_refl|reflexivity].
Qed.

Lemma Spec_call_async_io name ce we evs :
  Spec (U:=U) name ce we evs call_async_io.
Proof.
  intros s Hn Hc. unfold call_async_io.
  destruct (async_io_callback_ (acc s)) as [cb|].
  - apply Spec_call_back; auto; reflexivity.
  - exists []. split; [apply Ran_refl|reflexivity].
Qed.

(** Reading a field and using it is using the field of the current state. *)
Lemma Spec_get_bind name ce we evs {A B} (f : Acceptor U -> A) (g : A -> M U B) :
  (forall s : State U, pipe_name_ (acc s) = name ->
     hEvent (connect_overlap_ (acc s)) = ce -> Spec (U:=U) name ce we evs (g (f (acc s)))) ->
  Spec (U:=U) name ce we evs (bind (get f) g).
Proof. intros H s Hn Hc. exact (H s Hn Hc s Hn Hc). Qed.

Lemma bind_sys {A B} (c : Sys U A) (f : A -> M U B) s :
  bind (sys c) f s = f (fst (c s)) (snd (c s)).
Proof. unfold bind, sys. destruct (c s); reflexivity. Qed.

Lemma exit_shape_app evs ce we r d1 d2 :
  tally is_throw d1 = O -> exit_shape evs ce we r d2 ->
  exit_shape evs ce we r (d1 ++ d2).
Proof.
  intros T1 [T2 E2]. split.
  - destruct r as [x|e]; simpl in *.
    + rewrite tally_app, T1, T2. reflexivity.
    + destruct T2 as (d' & -> & T2). exists (d1 ++ d'). split.
      * rewrite app_assoc. reflexivity.
      * rewrite tally_app, T1, T2. reflexivity.
  - destruct r as [[|c w p]|e]; try assumption.
    destruct E2 as (d' & ->). exists (d1 ++ d'). rewrite app_assoc. reflexivity.
Qed.

Lemma SpecL_bind name hev ce we evs {A} (m : M U A) (f : A -> M U LoopExit) :
  Spec (U:=U) name hev we evs m -> (forall a, SpecL (U:=U) name hev ce we evs (f a)) ->
  SpecL (U:=U) name hev ce we evs (bind m f).
Proof.
  intros Hm Hf s Hname Hce. destruct (Hm s Hname Hce) as (d1 & R1 & T1).
  unfold bind. destruct (m s) as [[a|e] s1]; simpl in *.
  - destruct (Hf a s1) as (d2 & R2 & T2).
    + rewrite (ran_acc _ _ _ _ R1). destruct (acc s); exact Hname.
    + rewrite (ran_acc _ _ _ _ R1). destruct (acc s); exact Hce.
    + exists (d1 ++ d2). split; [eapply Ran_trans; eassumption|].
      apply exit_shape_app; assumption.
  - exists d1. split; [assumption|]. split; [assumption|exact I].
Qed.

Lemma SpecL_get_bind name hev ce we evs {A} (f : Acceptor U -> A)
    (g : A -> M U LoopExit) :
  (forall s : State U, SpecL (U:=U) name hev ce we evs (g (f (acc s)))) ->
  SpecL (U:=U) name hev ce we evs (bind (get f) g).
Proof. intros H s Hn Hc. exact (H s s Hn Hc). Qed.

Lemma loop_spec name hev ce we evs waits :
  forall pedding, SpecL (U:=U) name hev ce we evs (loop waits ce we evs pedding).
Proof.
  induction waits as [|w waits IH]; intros pedding.
  - intros s _ _. exists []. split; [apply Ran_refl|].
    split; [reflexivity|split; reflexivity].
  - intros s Hname Hce. simpl. rewrite bind_sys.
    destruct (Spec_wait name hev we evs w s Hname Hce) as (d1 & R1 & T1).
    unfold sys in R1, T1. rewrite sysWait_returns.
    destruct (sysWaitForMultipleObjectsEx evs w s) as [w' s1] eqn:Ew; simpl in *.
    assert (Hd1 : d1 = [WaitA evs w]).
    { pose proof (ran_trace _ _ _ _ R1) as Ht.
      pose proof (sysWait_returns evs w s) as Hr. rewrite Ew in Hr. simpl in Hr.
      unfold sysWaitForMultipleObjectsEx in Ew.
      destruct (Win32.WaitForMultipleObjectsEx evs w (ker s)) as [r k].
      inversion Ew; subst. simpl in Ht. apply app_inv_head in Ht. congruence. }
    assert (Hname1 : pipe_name_ (acc s1) = name).
    { rewrite (ran_acc _ _ _ _ R1). destruct (acc s); exact Hname. }
    assert (Hce1 : hEvent (connect_overlap_ (acc s1)) = hev).
    { rewrite (ran_acc _ _ _ _ R1). destruct (acc s); exact Hce. }
    assert (Hstep : forall m : M U LoopExit, SpecL (U:=U) name hev ce we evs m ->
              exists d, Ran (loop_action name hev we evs) s (snd (m s1)) d
                        /\ exit_shape evs ce we (fst (m s1)) d).
    { intros m Hm. destruct (Hm s1 Hname1 Hce1) as (d2 & R2 & T2).
      exists (d1 ++ d2). split; [eapply Ran_trans; eassumption|].
      apply exit_shape_app; assumption. }
    destruct (w =? WAIT_OBJECT_0) eqn:E0.
    { apply Hstep. apply SpecL_bind.
      - destruct pedding; [|apply Spec_ret].
        apply Spec_get_bind. intros s2 _ _.
        apply Spec_get_bind. intros s3 _ Hc3.
        apply Spec_bind; [apply Spec_GetOverlappedResult; exact Hc3|].
        intros [|]; [apply Spec_ret|apply Spec_fail_GLE].
      - intros _. apply SpecL_get_bind. intros s2.
        apply SpecL_bind; [apply Spec_call_new_connection|]. intros _.
        apply SpecL_bind; [apply CreateConnectInstance_spec|]. intros p'.
        apply IH. }
    destruct (w =? WAIT_OBJECT_0 + 1) eqn:E1.
    { apply Hstep. apply SpecL_bind; [apply Spec_call_async_io|].
      intros _. apply IH. }
    destruct (w =? WAIT_OBJECT_0 + 2) eqn:E2.
    { apply Z.eqb_eq in E2. subst w d1. exists [WaitA evs (WAIT_OBJECT_0 + 2)].
      split; [exact R1|]. split; [reflexivity|]. exists []. reflexivity. }
    destruct (w =? WAIT_IO_COMPLETION) eqn:E3; [apply Hstep, IH|].
    apply Hstep. apply SpecL_bind; [apply Spec_GetLastError|].
    intros e s2 _ _. eexists [_]. split; [ran_log|].
    split; [|exact I]. exists []. split; reflexivity.
Qed.

(** *** The thread function as a whole *)

Lemma Moved_refl s : Moved s s [].
Proof.
  split; simpl; try reflexivity.
  - rewrite app_nil_r. reflexivity.
  - destruct (acc s); reflexivity.
  - intros _. rewrite Z.sub_diag. reflexivity.
Qed.

Lemma Moved_trans s s1 s2 d1 d2 :
  Moved s s1 d1 -> Moved s1 s2 d2 -> Moved s s2 (d1 ++ d2).
Proof.
  intros [T1 C1 N1 H1 K1 O1] [T2 C2 N2 H2 K2 O2]. split.
  - rewrite T2, T1, app_assoc. reflexivity.
  - rewrite C2, C1. destruct (acc s); reflexivity.
  - rewrite last_pipe_app, <- N1. exact N2.
  - lia.
  - intros Hpos. rewrite omap_app, K1, K2 by lia.
    replace (next s2 - next s) with ((next s1 - next s) + (next s2 - next s1)) by lia.
    rewrite seqZ_app by lia. f_equal. f_equal. lia.
  - congruence.
Qed.

Lemma Moved_of_Ran P s s' d : Ran P s s' d -> Moved s s' d.
Proof.
  intros [T A C N H K O]. split; try assumption.
  destruct (acc s), (acc s'). simpl in *. inversion C; subst. reflexivity.
Qed.

(** One logged action that is not a pipe creation. *)
Lemma Moved_one s s' a :
  trace s' = trace s ++ [a] -> acc s' = acc s ->
  last_pipe (next_pipe_ (acc s)) [a] = next_pipe_ (acc s) ->
  (created a = None /\ next s' = next s
   \/ created a = Some (next s) /\ next s' = next s + 1) ->
  oracle (ker s') = oracle (ker s) ->
  Moved s s' [a].
Proof.
  intros Ht Ha Hp Hc Ho. split; try assumption.
  - rewrite Ha. destruct (acc s); reflexivity.
  - rewrite Ha. symmetry. exact Hp.
  - destruct Hc as [[_ ->]|[_ ->]]; lia.
  - intros _. simpl. destruct Hc as [[-> ->]|[-> ->]].
    + rewrite Z.sub_diag. reflexivity.
    + rewrite seqZ_one. reflexivity.
Qed.

Lemma Moved_CloseHandle h s : Moved s (snd (sysCloseHandle h s)) [CloseHandleA h].
Proof. apply Moved_one; try reflexivity. left. split; reflexivity. Qed.

Lemma Moved_CreateEvent m i s :
  0 < next s ->
  let h := fst (sysCreateEvent m i s) in
  Moved s (snd (sysCreateEvent m i s)) [CreateEventA m i h]
  /\ (h = NULL \/ h = next s /\ next (snd (sysCreateEvent m i s)) = next s + 1).
Proof.
  intros Hpos. unfold sysCreateEvent, Win32.CreateEvent.
  destruct (on_CreateEvent _ _) eqn:E; simpl.
  - split; [|left; reflexivity]. apply Moved_one; try reflexivity.
    left. split; reflexivity.
  - split; [|right; split; reflexivity]. apply Moved_one; try reflexivity.
    right. split; [|reflexivity]. simpl. unfold next in *.
    destruct (next_handle (ker s) =? NULL) eqn:E0; [|reflexivity].
    apply Z.eqb_eq in E0. unfold NULL in E0. lia.
Qed.

Lemma Moved_throw s (e : Exception) : Moved s (log (ThrowA e) s) [ThrowA e].
Proof. apply Moved_one; try reflexivity. left. split; reflexivity. Qed.

(** The loop with its two guards, entered with the events bound. *)
Lemma guarded_loop_spec name hev ce we evs (body : M U LoopExit) s :
  (exists dl, Ran (loop_action name hev we evs) s (snd (body s)) dl
              /\ exit_shape evs ce we (fst (body s)) dl) ->
  let m := scoped (MakeGuard (sysCloseHandle ce))
             (scoped (MakeGuard (sysCloseHandle we)) body) in
  exists dl, Moved s (snd (m s)) (dl ++ unwound (fst (m s)) ce we)
    /\ Forall (loop_action name hev we evs) dl
    /\ exit_shape evs ce we (fst (m s)) dl.
Proof.
  intros (dl & HR & HT) m.
  exists dl. subst m. unfold scoped.
  destruct (body s) as [[[|c w p]|e] s1]; simpl in *;
    pose proof (ran_actions _ _ _ _ HR) as HF; apply Moved_of_Ran in HR;
    (split; [|split]); try assumption.
  - eapply Moved_trans; [exact HR|].
    apply (Moved_trans s1 (snd (sysCloseHandle we s1)) _
             [CloseHandleA we] [CloseHandleA ce]); apply Moved_CloseHandle.
  - rewrite <- (app_nil_r dl) in HR. exact HR.
  - eapply Moved_trans; [exact HR|].
    apply (Moved_trans s1 (snd (sysCloseHandle we s1)) _
             [CloseHandleA we] [CloseHandleA ce]); apply Moved_CloseHandle.
Qed.

Lemma try_block_resumed_spec ce we pedding waits s :
  let r := fst (try_block_resumed ce we pedding waits s) in
  exists dl, Moved s (snd (try_block_resumed ce we pedding waits s))
               (dl ++ unwound r ce we)
    /\ Forall (loop_action (pipe_name_ (acc s)) (hEvent (connect_overlap_ (acc s)))
                 we [ce; we; close_event_ (acc s)]) dl
    /\ exit_shape [ce; we; close_event_ (acc s)] ce we r dl.
Proof.
  apply guarded_loop_spec.
  apply (loop_spec (pipe_name_ (acc s)) (hEvent (connect_overlap_ (acc s))) ce we
           [ce; we; close_event_ (acc s)] waits pedding s eq_refl eq_refl).
Qed.

Lemma bind_get {A B} (f : Acceptor U -> A) (g : A -> M U B) s :
  bind (get f) g s = g (f (acc s)) s.
Proof. reflexivity. Qed.

Lemma bind_modify {B} (f : Acceptor U -> Acceptor U) (g : unit -> M U B) s :
  bind (modify f) g s = g tt (set_acc (f (acc s)) s).
Proof. reflexivity. Qed.

Lemma scoped_unfold g (body : M U LoopExit) s :
  scoped g body s = match body s with
                    | (Val (Suspend c w p), s') => (Val (Suspend c w p), s')
                    | (r, s') => (r, leave_scope g s')
                    end.
Proof. reflexivity. Qed.

Lemma try_block_spec waits s r s' :
  0 < next s -> try_block waits s = (r, s') ->
  exists d, Moved s s' d
    /\ thread_delta (pipe_name_ (acc s)) (close_event_ (acc s)) r d.
Proof.
  intros Hpos E. unfold try_block in E. rewrite bind_sys in E.
  destruct (Moved_CreateEvent true true s Hpos) as [M1 H1].
  set (ce := fst (sysCreateEvent true true s)) in *.
  set (s1 := snd (sysCreateEvent true true s)) in *.
  destruct (ce =? NULL) eqn:Ece.
  { (* no connect event *)
    apply Z.eqb_eq in Ece. rewrite Ece in *.
    simpl in E. inversion E; subst r s'; clear E.
    eexists. split; [|apply td_no_conn_event].
    apply (Moved_trans s s1 _ [_] [_] M1). apply Moved_throw. }
  apply Z.eqb_neq in Ece. destruct H1 as [H1|[H1 N1]]; [contradiction|].
  assert (Hpos1 : 0 < next s1) by lia.
  rewrite scoped_unfold, bind_sys in E.
  destruct (Moved_CreateEvent false false s1 Hpos1) as [M2 H2].
  set (we := fst (sysCreateEvent false false s1)) in *.
  set (s2 := snd (sysCreateEvent false false s1)) in *.
  pose proof (Moved_trans _ _ _ _ _ M1 M2) as M12.
  destruct (we =? NULL) eqn:Ewe.
  { (* no write event *)
    apply Z.eqb_eq in Ewe. rewrite Ewe in *.
    simpl in E. inversion E; subst r s'; clear E.
    eexists. split; [|apply td_no_write_event; exact Ece].
    apply (Moved_trans s s2 _ [_; _] [_; _] M12).
    eapply (Moved_trans s2 _ _ [_] [_]); [apply Moved_throw|].
    apply Moved_CloseHandle. }
  apply Z.eqb_neq in Ewe.
  set (s3 := set_acc (set_connect_overlap_
                        (set_hEvent ce (connect_overlap_ (acc s2))) (acc s2)) s2).
  assert (M3 : Moved s s3 [CreateEventA true true ce; CreateEventA false false we]).
  { destruct M12 as [T C N H K O]. split; try assumption.
    subst s3. simpl. rewrite C. destruct (acc s); reflexivity. }
  assert (Hname : pipe_name_ (acc s3) = pipe_name_ (acc s)).
  { rewrite (mv_acc _ _ _ M3). destruct (acc s); reflexivity. }
  assert (Hclose : close_event_ (acc s2) = close_event_ (acc s)).
  { rewrite (mv_acc _ _ _ M12). destruct (acc s); reflexivity. }
  pose (body := @bind U _ _ CreateConnectInstance
                  (fun pedding => loop waits ce we
                                    [ce; we; close_event_ (acc s)] pedding)).
  destruct (guarded_loop_spec (pipe_name_ (acc s)) ce ce we
              [ce; we; close_event_ (acc s)] body s3) as (dl & ML & HF & HT).
  { apply SpecL_bind; [apply CreateConnectInstance_spec| |exact Hname|reflexivity].
    intros pedding. apply loop_spec. }
  assert (Heq : scoped (MakeGuard (sysCloseHandle ce))
                  (scoped (MakeGuard (sysCloseHandle we)) body) s3 = (r, s')).
  { rewrite <- E. rewrite scoped_unfold.
    rewrite (scoped_unfold _ body), (scoped_unfold _ (bind (get close_event_) _)).
    rewrite bind_get, bind_modify, Hclose. reflexivity. }
  rewrite Heq in *. simpl in *.
  exists ([CreateEventA true true ce; CreateEventA false false we]
            ++ (dl ++ unwound r ce we)).
  split.
  - eapply Moved_trans; eassumption.
  - apply td_looped; assumption.
Qed.

End Shape.

(** ** Suspending and resuming *)

Section Resume.

Context {U : Type}.
Implicit Types (s : State U).

Lemma bind_ext {A B} (m : M U A) (f g : A -> M U B) s :
  (forall a s', f a s' = g a s') -> bind m f s = bind m g s.
Proof.
  intros H. unfold bind. destruct (m s) as [[a|e] s1]; [apply H|reflexivity].
Qed.

Lemma then_resumed_bind {A} (m : M U A) (f : A -> M U LoopExit) waits evs s :
  then_resumed waits evs (bind m f) s
  = bind m (fun a => then_resumed waits evs (f a)) s.
Proof.
  unfold then_resumed, bind. destruct (m s) as [[a|e] s1]; reflexivity.
Qed.

(** The loop over [w1 ++ w2] is the loop over [w1], resumed over [w2] from
    where it was suspended. *)
Lemma loop_app w1 w2 ce we evs :
  forall pedding s,
    loop (w1 ++ w2) ce we evs pedding s
    = then_resumed w2 evs (loop w1 ce we evs pedding) s.
Proof.
  induction w1 as [|w w1 IH]; intros pedding s.
  - reflexivity.
  - simpl app. simpl loop. rewrite then_resumed_bind.
    apply bind_ext. intros wait s1.
    destruct (wait =? WAIT_OBJECT_0).
    { rewrite then_resumed_bind. apply bind_ext. intros _ s2.
      rewrite then_resumed_bind. apply bind_ext. intros np s3.
      rewrite then_resumed_bind. apply bind_ext. intros _ s4.
      rewrite then_resumed_bind. apply bind_ext. intros p' s5. apply IH. }
    destruct (wait =? WAIT_OBJECT_0 + 1).
    { rewrite then_resumed_bind. apply bind_ext. intros _ s2. apply IH. }
    destruct (wait =? WAIT_OBJECT_0 + 2); [reflexivity|].
    destruct (wait =? WAIT_IO_COMPLETION); [apply IH|].
    reflexivity.
Qed.

Lemma try_block_app w1 w2 s :
  try_block (w1 ++ w2) s
  = match try_block w1 s with
    | (Val (Suspend c w p), s1) => try_block_resumed c w p w2 s1
    | r => r
    end.
Proof.
  unfold try_block. rewrite !bind_sys.
  set (ce := fst (sysCreateEvent true true s)).
  set (s1 := snd (sysCreateEvent true true s)).
  destruct (ce =? NULL); [reflexivity|].
  rewrite !(scoped_unfold (MakeGuard (sysCloseHandle ce))), !bind_sys.
  set (we := fst (sysCreateEvent false false s1)).
  set (s2 := snd (sysCreateEvent false false s1)).
  destruct (we =? NULL); [reflexivity|].
  rewrite !(scoped_unfold (MakeGuard (sysCloseHandle we))).
  rewrite !bind_get, !bind_modify.
  set (evs := [ce; we; close_event_ (acc s2)]).
  set (s3 := set_acc _ s2).
  assert (Hclose : close_event_ (acc s3) = close_event_ (acc s2)) by reflexivity.
  clearbody s3.
  assert (Happ : bind CreateConnectInstance
                   (fun pedding => loop (w1 ++ w2) ce we evs pedding) s3
                 = then_resumed w2 evs
                     (bind CreateConnectInstance
                        (fun pedding => loop w1 ce we evs pedding)) s3).
  { rewrite then_resumed_bind. apply bind_ext. intros p s4. apply loop_app. }
  rewrite Happ. unfold then_resumed.
  destruct (SpecL_bind (pipe_name_ (acc s3)) (hEvent (connect_overlap_ (acc s3)))
              ce we evs CreateConnectInstance
              (fun pedding => loop w1 ce we evs pedding)
              (CreateConnectInstance_spec _ _ _ _)
              (fun pedding => loop_spec _ _ _ _ _ w1 pedding)
              s3 eq_refl eq_refl) as (d & HR & _ & Hkeep).
  destruct (bind CreateConnectInstance
              (fun pedding => loop w1 ce we evs pedding) s3)
    as [[[|c w p]|e] s4]; simpl in *; try reflexivity.
  destruct Hkeep as [-> ->].
  unfold try_block_resumed.
  rewrite !(scoped_unfold (MakeGuard (sysCloseHandle ce))),
    !(scoped_unfold (MakeGuard (sysCloseHandle we))), bind_get.
  assert (Hc4 : close_event_ (acc s4) = close_event_ (acc s2)).
  { rewrite (ran_acc _ _ _ _ HR), <- Hclose. destruct (acc s3); reflexivity. }
  rewrite Hc4. reflexivity.
Qed.

(** A thread function that is suspended over [w1] and resumed over [w2]
    has done what it does over [w1 ++ w2] without the suspension. *)
Lemma LinstenInThread_app w1 w2 s :
  LinstenInThread (w1 ++ w2) s
  = resume (fst (LinstenInThread w1 s)) w2 (snd (LinstenInThread w1 s)).
Proof.
  unfold LinstenInThread, run_thread. rewrite try_block_app.
  destruct (try_block w1 s) as [[[|c w p]|e] s1]; reflexivity.
Qed.

End Resume.

(** ** CreateConnectInstance *)

Section Rearm.

Context {U : Type}.
Implicit Types (s : State U).

Lemma since_app s s' d : trace s' = trace s ++ d -> since s s' = d.
Proof. intros H. unfold since. rewrite H. apply drop_app_length. Qed.


End Rearm.



(** ** One wake-up of the loop *)

Section Wake.

Context {U : Type}.
Implicit Types (s : State U).

(** [CreateConnectInstance] first creates the pipe instance; what it logs
    after that is the connect, the signaling and a throw at most; it runs
    no callback. *)
Lemma CreateConnectInstance_actions s :
  exists h rest,
    trace (snd (CreateConnectInstance s))
    = trace s ++ CreateNamedPipeA (c_str (pipe_name_ (acc s))) h :: rest
    /\ Forall is_rearm_tail rest
    /\ next_pipe_ (acc (snd (CreateConnectInstance s))) = h
    /\ user (snd (CreateConnectInstance s)) = user s.
Proof.
  unfold CreateConnectInstance, bind, get, sys, modify, fail_GLE, throw, ret,
    sysCreateNamedPipe, sysConnectNamedPipe, sysSetEvent, GetLastError,
    Win32.CreateNamedPipe, Win32.ConnectNamedPipe, Win32.SetEvent.
  simpl.
  destruct (on_CreateNamedPipe (oracle (ker s)) (clock (ker s))); simpl.
  { do 2 eexists. split; [rewrite <- app_assoc; reflexivity|].
    repeat split. repeat constructor. }
  destruct (next_handle (ker s) =? INVALID_HANDLE_VALUE); simpl.
  { do 2 eexists. split; [rewrite <- app_assoc; reflexivity|].
    repeat split. repeat constructor. }
  destruct (on_ConnectNamedPipe (oracle (ker s)) (S (clock (ker s)))) as [c|];
    simpl;
    [destruct (c =? ERROR_IO_PENDING); simpl;
     [|destruct (c =? ERROR_PIPE_CONNECTED); simpl;
       [destruct (alter (set_signaled false) (hEvent (connect_overlap_ (acc s)))
                    (objects (ker s)) !! hEvent (connect_overlap_ (acc s)));
        [destruct (on_SetEvent (oracle (ker s)) (S (S (clock (ker s)))))|];
        simpl|]]|];
    (do 2 eexists; split; [rewrite <- ?app_assoc; reflexivity|];
     repeat split; repeat constructor).
Qed.

(** [CreateConnectInstance] goes one of its six ways. *)
Lemma CreateConnectInstance_rearmed s :
  exists h d,
    trace (snd (CreateConnectInstance s)) = trace s ++ d
    /\ rearmed (pipe_name_ (acc s)) (hEvent (connect_overlap_ (acc s)))
         (last_error (ker (snd (CreateConnectInstance s)))) h
         (fst (CreateConnectInstance s)) d
    /\ acc (snd (CreateConnectInstance s)) = set_next_pipe_ h (acc s).
Proof.
  unfold CreateConnectInstance, bind, get, sys, modify, fail_GLE, throw, ret,
    sysCreateNamedPipe, sysConnectNamedPipe, sysSetEvent, GetLastError,
    Win32.CreateNamedPipe, Win32.ConnectNamedPipe, Win32.SetEvent.
  simpl.
  destruct (on_CreateNamedPipe (oracle (ker s)) (clock (ker s))); simpl.
  { do 2 eexists. split; [rewrite <- app_assoc; reflexivity|].
    split; [apply rearmed_no_pipe|reflexivity]. }
  destruct (next_handle (ker s) =? INVALID_HANDLE_VALUE) eqn:Eh; simpl.
  { apply Z.eqb_eq in Eh. rewrite Eh.
    do 2 eexists. split; [rewrite <- app_assoc; reflexivity|].
    split; [apply rearmed_no_pipe|reflexivity]. }
  apply Z.eqb_neq in Eh.
  destruct (on_ConnectNamedPipe (oracle (ker s)) (S (clock (ker s)))) as [c|];
    simpl.
  2:{ do 2 eexists. split; [rewrite <- !app_assoc; reflexivity|].
      split; [apply rearmed_connected_at_once; exact Eh|reflexivity]. }
  destruct (c =? ERROR_IO_PENDING) eqn:Ep; simpl.
  { do 2 eexists. split; [rewrite <- !app_assoc; reflexivity|].
    split; [apply rearmed_pending; exact Eh|reflexivity]. }
  apply Z.eqb_neq in Ep.
  destruct (c =? ERROR_PIPE_CONNECTED) eqn:Ec; simpl.
  2:{ apply Z.eqb_neq in Ec.
      do 2 eexists. split; [rewrite <- !app_assoc; reflexivity|].
      split; [apply rearmed_connect_failed; assumption|reflexivity]. }
  destruct (alter (set_signaled false) (hEvent (connect_overlap_ (acc s)))
              (objects (ker s)) !! hEvent (connect_overlap_ (acc s))); simpl.
  2:{ do 2 eexists. split; [rewrite <- !app_assoc; reflexivity|].
      split; [apply rearmed_not_signaled; exact Eh|reflexivity]. }
  destruct (on_SetEvent (oracle (ker s)) (S (S (clock (ker s))))); simpl.
  - do 2 eexists. split; [rewrite <- !app_assoc; reflexivity|].
    split; [apply rearmed_not_signaled; exact Eh|reflexivity].
  - do 2 eexists. split; [rewrite <- !app_assoc; reflexivity|].
    split; [apply rearmed_client_there; exact Eh|reflexivity].
Qed.

Lemma bind_bind {A B C} (m : M U A) (f : A -> M U B) (g : B -> M U C) s :
  bind (bind m f) g s = bind m (fun a => bind (f a) g) s.
Proof. unfold bind. destruct (m s) as [[a|e] s1]; reflexivity. Qed.

Lemma bind_ret {A B} (a : A) (f : A -> M U B) s : bind (ret a) f s = f a s.
Proof. reflexivity. Qed.

Lemma sysWait_state evs w s :
  let s1 := snd (sysWaitForMultipleObjectsEx evs w s) in
  acc s1 = acc s /\ user s1 = user s /\ trace s1 = trace s ++ [WaitA evs w]
  /\ next s1 = next s /\ oracle (ker s1) = oracle (ker s)
  /\ clock (ker s1) = S (clock (ker s)).
Proof.
  pose proof (wait_keeps evs w (ker s)) as (Hn & Ho & Hc).
  pose proof (wait_returns evs w (ker s)) as Hr.
  unfold sysWaitForMultipleObjectsEx, next.
  destruct (Win32.WaitForMultipleObjectsEx evs w (ker s)) as [r k].
  simpl in *. subst r. auto 10.
Qed.

Lemma sysGetOverlappedResult_state pipe o s :
  let c := sysGetOverlappedResult pipe o s in
  fst c = match on_GetOverlappedResult (oracle (ker s)) (clock (ker s)) with
          | None => true | Some _ => false end
  /\ acc (snd c) = acc s /\ user (snd c) = user s
  /\ trace (snd c) = trace s ++ [GetOverlappedResultA pipe (hEvent o) (fst c)].
Proof.
  unfold sysGetOverlappedResult, Win32.GetOverlappedResult.
  destruct (on_GetOverlappedResult _ _); simpl; auto.
Qed.

Lemma connect_ready_wake waits ce we evs pedding s :
  (pedding = true ->
   on_GetOverlappedResult (oracle (ker s)) (S (clock (ker s))) = None) ->
  loop (WAIT_OBJECT_0 :: waits) ce we evs pedding s
  = bind (call_new_connection (next_pipe_ (acc s)) we)
      (fun _ => bind CreateConnectInstance
                  (fun p => loop waits ce we evs p))
      (connect_confirmed evs pedding s).
Proof.
  intros Hok. simpl loop. rewrite bind_sys, sysWait_returns. simpl.
  unfold connect_confirmed.
  pose proof (sysWait_state evs WAIT_OBJECT_0 s) as (Ha & _ & _ & _ & Ho & Hc).
  simpl in *.
  set (s1 := snd (sysWaitForMultipleObjectsEx evs WAIT_OBJECT_0 s)) in *.
  destruct pedding.
  - rewrite bind_bind, bind_get, bind_bind, bind_get, bind_bind, bind_sys.
    pose proof (sysGetOverlappedResult_state (next_pipe_ (acc s1))
                  (connect_overlap_ (acc s1)) s1) as (Hr & Ha2 & _).
    simpl in *. rewrite Ho, Hc, (Hok eq_refl) in Hr. rewrite Hr.
    rewrite bind_ret, bind_get, Ha2, Ha. reflexivity.
  - rewrite bind_ret, bind_get, Ha. reflexivity.
Qed.

Lemma rearm_first waits ce we evs s :
  exists h rest,
    trace (snd (bind CreateConnectInstance
                  (fun p => loop waits ce we evs p) s))
    = trace s ++ CreateNamedPipeA (c_str (pipe_name_ (acc s))) h :: rest.
Proof.
  destruct (CreateConnectInstance_actions s) as (h & rest & Ht & _).
  destruct (CreateConnectInstance_spec (pipe_name_ (acc s))
              (hEvent (connect_overlap_ (acc s))) we evs s eq_refl eq_refl)
    as (d & R & _).
  unfold bind. destruct (CreateConnectInstance s) as [[p|e] s1]; simpl in *.
  - destruct (loop_spec (pipe_name_ (acc s1)) (hEvent (connect_overlap_ (acc s1)))
                ce we evs waits p s1 eq_refl eq_refl) as (d2 & R2 & _).
    rewrite (ran_trace _ _ _ _ R2), Ht, <- app_assoc. simpl.
    exists h, (rest ++ d2). reflexivity.
  - exists h, rest. exact Ht.
Qed.

Lemma connect_confirmed_state evs pedding s :
  let s2 := connect_confirmed evs pedding s in
  acc s2 = acc s /\ user s2 = user s
  /\ exists ok, trace s2
       = trace s ++ WaitA evs WAIT_OBJECT_0
           :: (if pedding
               then [GetOverlappedResultA (next_pipe_ (acc s))
                       (hEvent (connect_overlap_ (acc s))) ok]
               else []).
Proof.
  unfold connect_confirmed.
  pose proof (sysWait_state evs WAIT_OBJECT_0 s) as (Ha & Hu & Ht & _).
  simpl in *.
  set (s1 := snd (sysWaitForMultipleObjectsEx evs WAIT_OBJECT_0 s)) in *.
  destruct pedding.
  - pose proof (sysGetOverlappedResult_state (next_pipe_ (acc s))
                  (connect_overlap_ (acc s)) s1) as (_ & Ha2 & Hu2 & Ht2).
    simpl in *. rewrite Ha2, Hu2, Ht2, Ha, Hu, Ht, <- app_assoc.
    split; [reflexivity|split; [reflexivity|]]. eexists. reflexivity.
  - rewrite Ha, Hu, Ht.
    split; [reflexivity|split; [reflexivity|]]. exists true. reflexivity.
Qed.

Lemma call_back_run a (cb : Callback (U:=U)) s :
  call_back a cb s
  = match fst (cb (user s)) with
    | Val _ => (Val tt, log a (set_user (snd (cb (user s))) s))
    | Exc e => (Exc e, log (ThrowA e) (log a (set_user (snd (cb (user s))) s)))
    end.
Proof. unfold call_back. destruct (cb (user s)) as [[v|e] u]; reflexivity. Qed.

Lemma rearmed_begins {le} name hev h r dr :
  rearmed name hev le h r dr ->
  exists rest,
    dr = CreateNamedPipeA (c_str name) h :: rest
    /\ (h = INVALID_HANDLE_VALUE -> exists e, r = Exc e /\ rest = [ThrowA e])
    /\ (h <> INVALID_HANDLE_VALUE ->
        exists b rest', rest = ConnectNamedPipeA h hev b :: rest').
Proof.
  intros []; eexists; (split; [reflexivity|]); split; intros;
    try contradiction; eauto.
Qed.

(** (C5) On a connect-ready wake in which the client is accepted, the
    loop logs nothing but its wait and the fetch of the connect result
    before it invokes the new-connection callback, with the accepted
    endpoint and the write-completion event.  When the callback has
    returned, its effect on its own state complete, the loop re-arms in the
    state the callback left: the action that follows the callback is the
    creation of the next pipe instance, and when that instance was created
    the action after it is the asynchronous connect on it, with the connect
    event; then the loop goes on.  A callback that throws ends the wake-up
    there: nothing is created and no connect is begun. *)
Theorem new_connection_delivered_before_rearm waits ce we evs pedding s cb :
  new_connection_callback_ (acc s) = Some cb ->
  (pedding = true ->
   on_GetOverlappedResult (oracle (ker s)) (S (clock (ker s))) = None) ->
  let pipe := next_pipe_ (acc s) in
  let hev := hEvent (connect_overlap_ (acc s)) in
  let s2 := connect_confirmed evs pedding s in
  let s3 := log (NewConnectionA pipe we)
              (set_user (snd (cb pipe we (user s))) s2) in
  let run := loop (WAIT_OBJECT_0 :: waits) ce we evs pedding s in
  (forall a, a ∈ since s s2 ->
     match a with
     | WaitA _ _ | GetOverlappedResultA _ _ _ => True
     | _ => False
     end)
  /\ trace s3 = trace s2 ++ [NewConnectionA pipe we]
  /\ match fst (cb pipe we (user s)) with
     | Val _ =>
         run = bind CreateConnectInstance (fun p => loop waits ce we evs p) s3
         /\ exists h rest,
              trace (snd run)
              = trace s3 ++ CreateNamedPipeA (c_str (pipe_name_ (acc s))) h :: rest
              /\ (h = INVALID_HANDLE_VALUE ->
                  exists e, rest = [ThrowA e] /\ fst run = Exc e)
              /\ (h <> INVALID_HANDLE_VALUE ->
                  exists b rest', rest = ConnectNamedPipeA h hev b :: rest')
     | Exc e => run = (Exc e, log (ThrowA e) s3)
     end.
Proof.
  intros Hcb Hok pipe hev s2 s3 run.
  destruct (connect_confirmed_state evs pedding s) as (Ha & Hu & ok & Ht).
  fold s2 in Ha, Hu, Ht.
  split.
  { intros a Hin. rewrite (since_app _ _ _ Ht) in Hin.
    destruct pedding; repeat (apply elem_of_cons in Hin as [->|Hin]);
      try exact I; inversion Hin. }
  split; [reflexivity|].
  assert (Hrun : run = bind (call_new_connection pipe we)
                         (fun _ => bind CreateConnectInstance
                                     (fun p => loop waits ce we evs p)) s2).
  { apply connect_ready_wake. exact Hok. }
  assert (Hcall : call_new_connection pipe we s2
                  = match fst (cb pipe we (user s)) with
                    | Val _ => (Val tt, s3)
                    | Exc e => (Exc e, log (ThrowA e) s3)
                    end).
  { unfold call_new_connection. rewrite Ha, Hcb, call_back_run, Hu. reflexivity. }
  unfold bind at 1 in Hrun. rewrite Hcall in Hrun. clear Hcall.
  destruct (fst (cb pipe we (user s))) as [v|e]; [|exact Hrun].
  split; [exact Hrun|]. rewrite Hrun. clear Hrun run.
  destruct (CreateConnectInstance_rearmed s3) as (h & dr & Ht3 & Hr & _).
  assert (Hacc3 : acc s3 = acc s) by exact Ha.
  rewrite Hacc3 in Hr. fold hev in Hr.
  destruct (rearmed_begins _ _ _ _ _ Hr) as (rest & -> & Hbad & Hgood).
  unfold bind. destruct (CreateConnectInstance s3) as [[p|e] s4]; simpl in *.
  - destruct (loop_spec (pipe_name_ (acc s4)) (hEvent (connect_overlap_ (acc s4)))
                ce we evs waits p s4 eq_refl eq_refl) as (d2 & R2 & _).
    exists h, (rest ++ d2). split.
    + rewrite (ran_trace _ _ _ _ R2), Ht3, <- app_assoc. reflexivity.
    + split.
      * intros Hh. destruct (Hbad Hh) as (e & He & _). discriminate.
      * intros Hh. destruct (Hgood Hh) as (b & rest' & ->). eauto.
  - exists h, rest. split; [exact Ht3|]. split.
    + intros Hh. destruct (Hbad Hh) as (e' & He & ->). inversion He. eauto.
    + exact Hgood.
Qed.

(** (C10) With no new-connection callback registered, a connect-ready
    wake in which the connect completed invokes nothing, creates the next
    endpoint at once, which overwrites the handle of the accepted one
    without closing or delivering it, and when the re-arm succeeds the loop
    goes on to its next wait. *)
Theorem unset_callback_rearms_and_continues waits ce we evs pedding s :
  new_connection_callback_ (acc s) = None ->
  (pedding = true ->
   on_GetOverlappedResult (oracle (ker s)) (S (clock (ker s))) = None) ->
  let s2 := connect_confirmed evs pedding s in
  let s3 := snd (CreateConnectInstance s2) in
  user s3 = user s
  /\ (exists h rest,
        trace s3 = trace s2 ++ CreateNamedPipeA (c_str (pipe_name_ (acc s))) h :: rest
        /\ Forall is_rearm_tail rest
        /\ next_pipe_ (acc s3) = h)
  /\ (forall a, a ∈ since s s2 ->
        match a with
        | WaitA _ _ | GetOverlappedResultA _ _ _ => True
        | _ => False
        end)
  /\ (forall pedding',
        fst (CreateConnectInstance s2) = Val pedding' ->
        loop (WAIT_OBJECT_0 :: waits) ce we evs pedding s
        = loop waits ce we evs pedding' s3).
Proof.
  intros Hcb Hok s2 s3.
  destruct (connect_confirmed_state evs pedding s) as (Ha & Hu & ok & Ht).
  fold s2 in Ha, Hu, Ht.
  destruct (CreateConnectInstance_actions s2) as (h & rest & Hct & Hrest & Hp & Hcu).
  fold s3 in Hct, Hp, Hcu. split; [congruence|]. split.
  { exists h, rest. rewrite <- Ha. auto. }
  split.
  { intros a Hin. rewrite (since_app _ _ _ Ht) in Hin.
    destruct pedding; repeat (apply elem_of_cons in Hin as [->|Hin]);
      try exact I; inversion Hin. }
  intros p' Hval. rewrite connect_ready_wake by exact Hok. fold s2.
  unfold bind at 1, call_new_connection. rewrite Ha, Hcb.
  unfold bind. subst s3. destruct (CreateConnectInstance s2) as [r s4].
  simpl in *. subst r. reflexivity.
Qed.

(** (C8) A wake by the deferred-work-ready signal invokes the deferred-work
    callback when one is registered and nothing else: no field of the
    acceptor changes (the current endpoint and the connect-completion
    record among them), the loop goes on with the same pending flag,
    nothing is logged but the wait and the callback, and no handle is
    obtained from the kernel.  When the callback throws, the same holds
    of the state in which its exception leaves the loop. *)
Theorem deferred_work_wake_frame waits ce we evs pedding s :
  let s1 := snd (sysWaitForMultipleObjectsEx evs (WAIT_OBJECT_0 + 1) s) in
  let s2 := match async_io_callback_ (acc s) with
            | Some cb => log AsyncIoA (set_user (snd (cb (user s))) s1)
            | None => s1
            end in
  loop (WAIT_OBJECT_0 + 1 :: waits) ce we evs pedding s
  = match async_io_callback_ (acc s) with
    | Some cb =>
        match fst (cb (user s)) with
        | Val _ => loop waits ce we evs pedding s2
        | Exc e => (Exc e, log (ThrowA e) s2)
        end
    | None => loop waits ce we evs pedding s2
    end
  /\ acc s2 = acc s
  /\ trace s2 = trace s ++ WaitA evs (WAIT_OBJECT_0 + 1)
                  :: match async_io_callback_ (acc s) with
                     | Some _ => [AsyncIoA]
                     | None => []
                     end
  /\ user s2 = match async_io_callback_ (acc s) with
               | Some cb => snd (cb (user s))
               | None => user s
               end
  /\ next s2 = next s.
Proof.
  intros s1 s2.
  pose proof (sysWait_state evs (WAIT_OBJECT_0 + 1) s) as (Ha & Hu & Ht & Hn & _).
  fold s1 in Ha, Hu, Ht, Hn. split.
  - simpl loop. rewrite bind_sys, sysWait_returns. simpl.
    unfold bind, call_async_io. fold s1. rewrite Ha. subst s2.
    destruct (async_io_callback_ (acc s)) as [cb|]; [|reflexivity].
    rewrite call_back_run, Hu.
    destruct (fst (cb (user s))); reflexivity.
  - subst s2. destruct (async_io_callback_ (acc s)); simpl;
      rewrite ?Ha, ?Hu, ?Ht, ?Hn, <- ?app_assoc; auto.
Qed.

End Wake.

(** ** One run of the thread function *)

Section Thread.

Context {U : Type}.
Implicit Types (s : State U) (d : list Action).

Lemma tally_Forall (P : Action -> Prop) (p : Action -> bool) d :
  (forall a, P a -> p a = false) -> Forall P d -> tally p d = O.
Proof.
  intros H HF. induction HF as [|a d Ha _ IH]; simpl; [reflexivity|].
  rewrite (H a Ha). exact IH.
Qed.


Lemma loop_action_no_exception name ce we evs d :
  Forall (loop_action name ce we evs) d -> tally is_exception_call d = O.
Proof. apply tally_Forall. intros [] H; try reflexivity; destruct H. Qed.

Lemma loop_action_no_create_event name ce we evs d :
  Forall (loop_action name ce we evs) d -> tally is_create_event d = O.
Proof. apply tally_Forall. intros [] H; try reflexivity; destruct H. Qed.

(** The thread function, by the way its try block is left. *)
Lemma LinstenInThread_cases waits s :
  0 < next s ->
  exists r s1 d,
    try_block waits s = (r, s1) /\ Moved s s1 d
    /\ thread_delta (pipe_name_ (acc s)) (close_event_ (acc s)) r d
    /\ exception_callback_ (acc s1) = exception_callback_ (acc s)
    /\ LinstenInThread waits s
       = match r with
         | Val Return => (Exited, s1)
         | Val (Suspend c w p) => (Waiting c w p, s1)
         | Exc e => (Exited, call_exception (Some e) s1)
         end.
Proof.
  intros Hpos. destruct (try_block waits s) as [r s1] eqn:E.
  destruct (try_block_spec waits s r s1 Hpos E) as (d & HM & HD).
  exists r, s1, d.
  split; [reflexivity|]. split; [exact HM|]. split; [exact HD|]. split.
  - rewrite (mv_acc _ _ _ HM). destruct (acc s); reflexivity.
  - unfold LinstenInThread, run_thread. rewrite E.
    destruct r as [[|c w p]|e]; reflexivity.
Qed.

Lemma call_exception_state eptr s :
  call_exception eptr s
  = match exception_callback_ (acc s) with
    | Some cb => log (ExceptionA eptr) (set_user (cb eptr (user s)) s)
    | None => s
    end.
Proof. reflexivity. Qed.

(** What a run that threw has logged in its try block. *)
Lemma thread_delta_thrown name close e d :
  thread_delta name close (Exc e) d ->
  exists before releases,
    d = before ++ ThrowA e :: releases
    /\ tally is_throw before = O /\ tally is_exception_call before = O
    /\ Forall is_release releases.
Proof.
  intros H. inversion H; subst.
  - exists [CreateEventA true true NULL], []. repeat split. constructor.
  - exists [CreateEventA true true ce; CreateEventA false false NULL],
      [CloseHandleA ce].
    repeat split. repeat constructor.
  - match goal with Hx : exit_shape _ _ _ _ _ |- _ =>
      destruct Hx as [(d' & -> & Hd') _] end.
    exists (CreateEventA true true ce :: CreateEventA false false we :: d'),
      [CloseHandleA we; CloseHandleA ce].
    split; [simpl; rewrite <- app_assoc; reflexivity|].
    split; [exact Hd'|]. split; [|repeat constructor].
    simpl. eapply loop_action_no_exception.
    match goal with Hx : Forall _ (_ ++ _) |- _ =>
      apply Forall_app in Hx as [Hx _]; exact Hx end.
Qed.

(** What a run that did not throw has logged. *)
Lemma thread_delta_quiet name close x d :
  thread_delta name close (Val x) d ->
  tally is_throw d = O /\ tally is_exception_call d = O
  /\ match x with
     | Return =>
         exists d' ce we,
           d = d' ++ [WaitA [ce; we; close] (WAIT_OBJECT_0 + 2);
                      CloseHandleA we; CloseHandleA ce]
     | Suspend _ _ _ => True
     end.
Proof.
  intros H. inversion H; subst.
  match goal with Hx : exit_shape _ _ _ _ _ |- _ => destruct Hx as [Ht Hret] end.
  simpl in Ht.
  match goal with Hf : Forall _ dl |- _ =>
    pose proof (loop_action_no_exception _ _ _ _ _ Hf) as He end.
  destruct x as [|c w p]; simpl.
  - repeat split.
    + rewrite tally_app, Ht. reflexivity.
    + rewrite tally_app, He. reflexivity.
    + destruct Hret as (d' & ->).
      exists (CreateEventA true true ce :: CreateEventA false false we :: d'), ce, we.
      simpl. rewrite <- app_assoc. reflexivity.
  - rewrite app_nil_r. auto.
Qed.

Lemma run_delta_thrown en name hev close e d :
  run_delta en name hev close (Exc e) d ->
  exists before releases,
    d = before ++ ThrowA e :: releases
    /\ tally is_throw before = O /\ tally is_exception_call before = O
    /\ Forall is_release releases.
Proof.
  destruct en as [|c w p]; simpl; [apply thread_delta_thrown|].
  intros (dl & -> & HF & [(d' & -> & Hd') _]).
  exists d', [CloseHandleA w; CloseHandleA c].
  split; [simpl; rewrite <- app_assoc; reflexivity|].
  split; [exact Hd'|]. split; [|repeat constructor].
  apply Forall_app in HF as [HF _].
  eapply loop_action_no_exception. exact HF.
Qed.

Lemma run_delta_quiet en name hev close x d :
  run_delta en name hev close (Val x) d ->
  tally is_throw d = O /\ tally is_exception_call d = O
  /\ match x with
     | Return =>
         exists d' ce we,
           d = d' ++ [WaitA [ce; we; close] (WAIT_OBJECT_0 + 2);
                      CloseHandleA we; CloseHandleA ce]
     | Suspend _ _ _ => True
     end.
Proof.
  destruct en as [|c w p]; simpl; [apply thread_delta_quiet|].
  intros (dl & -> & HF & [Ht Hret]). simpl in Ht.
  pose proof (loop_action_no_exception _ _ _ _ _ HF) as He.
  destruct x as [|c' w' p']; simpl.
  - split; [rewrite tally_app, Ht; reflexivity|].
    split; [rewrite tally_app, He; reflexivity|].
    destruct Hret as (d' & ->). exists d', c, w.
    rewrite <- app_assoc. reflexivity.
  - rewrite app_nil_r. auto.
Qed.

(** The thread function from [en], by the way its try block is left. *)
Lemma thread_function_cases en waits s :
  0 < next s ->
  exists r s1 d,
    try_segment en waits s = (r, s1) /\ Moved s s1 d
    /\ run_delta en (pipe_name_ (acc s)) (hEvent (connect_overlap_ (acc s)))
         (close_event_ (acc s)) r d
    /\ exception_callback_ (acc s1) = exception_callback_ (acc s)
    /\ thread_function en waits s
       = match r with
         | Val Return => (Exited, s1)
         | Val (Suspend c w p) => (Waiting c w p, s1)
         | Exc e => (Exited, call_exception (Some e) s1)
         end.
Proof.
  intros Hpos. destruct en as [|c w p].
  - destruct (LinstenInThread_cases waits s Hpos)
      as (r & s1 & d & E & HM & HD & Hcb & HL).
    exists r, s1, d. auto.
  - destruct (try_block_resumed_spec c w p waits s) as (dl & HM & HF & HE).
    unfold thread_function, run_thread. simpl.
    destruct (try_block_resumed c w p waits s) as [r s1]. simpl in *.
    exists r, s1, (dl ++ unwound r c w).
    split; [reflexivity|]. split; [exact HM|]. split; [exists dl; auto|]. split.
    + rewrite (mv_acc _ _ _ HM). destruct (acc s); reflexivity.
    + destruct r as [[|c' w' p']|e]; reflexivity.
Qed.

(** (C1, as amended) With an exception callback registered, a run of
    the thread function (from its start, or from the wait in which it was
    suspended) that ends on a fatal error invokes the callback
    exactly once, as its last action, with the error that was thrown; a
    run that ends cleanly on the stop signal returns from inside the try
    block and does not invoke the callback at all; while the loop is
    still waiting the callback has not been invoked. *)
Theorem exception_callback_on_fatal_exit_only en waits s cb :
  0 < next s -> exception_callback_ (acc s) = Some cb ->
  let t := fst (thread_function en waits s) in
  let s' := snd (thread_function en waits s) in
  let s1 := snd (try_segment en waits s) in
  let d := since s s' in
  trace s' = trace s ++ d /\
  match t with
  | Waiting _ _ _ =>
      tally is_exception_call d = O /\ tally is_throw d = O
  | Exited =>
      (exists e d',
         d = d' ++ [ExceptionA (Some e)]
         /\ tally is_exception_call d' = O
         /\ tally is_throw d' = 1%nat /\ ThrowA e ∈ d'
         /\ user s' = cb (Some e) (user s1))
      \/ (exists d' ce we,
            d = d' ++ [WaitA [ce; we; close_event_ (acc s)] (WAIT_OBJECT_0 + 2);
                       CloseHandleA we; CloseHandleA ce]
            /\ tally is_exception_call d = O /\ tally is_throw d = O
            /\ s' = s1)
  end.
Proof.
  intros Hpos Hcb t s' s1 d.
  destruct (thread_function_cases en waits s Hpos)
    as (r & s1' & d1 & E & HM & HD & Hcb1 & HL).
  subst t s' s1 d. rewrite HL, E. simpl.
  pose proof (mv_trace _ _ _ HM) as Ht.
  destruct r as [[|c w p]|e]; simpl.
  - (* return *)
    rewrite (since_app _ _ _ Ht). split; [exact Ht|]. right.
    destruct (run_delta_quiet _ _ _ _ _ _ HD) as (H1 & H2 & d' & ce & we & H3).
    exists d', ce, we. auto.
  - rewrite (since_app _ _ _ Ht). split; [exact Ht|].
    destruct (run_delta_quiet _ _ _ _ _ _ HD) as (H1 & H2 & _). auto.
  - rewrite call_exception_state, Hcb1, Hcb. simpl.
    assert (Ht' : trace s1' ++ [ExceptionA (Some e)]
                  = trace s ++ (d1 ++ [ExceptionA (Some e)])).
    { rewrite Ht, app_assoc. reflexivity. }
    unfold since. simpl. rewrite Ht', drop_app_length.
    split; [reflexivity|]. left. exists e, d1.
    destruct (run_delta_thrown _ _ _ _ _ _ HD) as (b & rel & -> & Hb & Hb' & Hrel).
    split; [reflexivity|]. split; [|split; [|split; [|reflexivity]]].
    + rewrite tally_app, Hb'. simpl.
      apply (tally_Forall is_release); [|exact Hrel].
      intros [] Ha; try reflexivity; destruct Ha.
    + rewrite tally_app, Hb. simpl. f_equal.
      apply (tally_Forall is_release); [|exact Hrel].
      intros [] Ha; try reflexivity; destruct Ha.
    + apply elem_of_app. right. left.
Qed.


(** What a whole run of the thread function logs. *)
Lemma LinstenInThread_delta waits s :
  0 < next s ->
  exists r d1,
    thread_delta (pipe_name_ (acc s)) (close_event_ (acc s)) r d1
    /\ since s (snd (LinstenInThread waits s))
       = d1 ++ match r, exception_callback_ (acc s) with
               | Exc e, Some _ => [ExceptionA (Some e)]
               | _, _ => []
               end.
Proof.
  intros Hpos.
  destruct (LinstenInThread_cases waits s Hpos)
    as (r & s1 & d1 & E & HM & HD & Hcb1 & HL).
  exists r, d1. split; [exact HD|]. rewrite HL.
  pose proof (mv_trace _ _ _ HM) as Ht.
  destruct r as [[|c w p]|e]; simpl.
  - rewrite app_nil_r. apply since_app. exact Ht.
  - rewrite app_nil_r. apply since_app. exact Ht.
  - rewrite call_exception_state, Hcb1.
    destruct (exception_callback_ (acc s)).
    + apply since_app. simpl. rewrite Ht, app_assoc. reflexivity.
    + rewrite app_nil_r. apply since_app. exact Ht.
Qed.

Lemma thread_function_delta en waits s :
  0 < next s ->
  exists r d1,
    run_delta en (pipe_name_ (acc s)) (hEvent (connect_overlap_ (acc s)))
      (close_event_ (acc s)) r d1
    /\ since s (snd (thread_function en waits s))
       = d1 ++ match r, exception_callback_ (acc s) with
               | Exc e, Some _ => [ExceptionA (Some e)]
               | _, _ => []
               end
    /\ fst (thread_function en waits s)
       = match r with
         | Val (Suspend c w p) => Waiting c w p
         | _ => Exited
         end.
Proof.
  intros Hpos.
  destruct (thread_function_cases en waits s Hpos)
    as (r & s1 & d1 & E & HM & HD & Hcb1 & HL).
  exists r, d1. split; [exact HD|]. rewrite HL.
  pose proof (mv_trace _ _ _ HM) as Ht.
  destruct r as [[|c w p]|e]; simpl.
  - rewrite app_nil_r. split; [apply since_app; exact Ht|reflexivity].
  - rewrite app_nil_r. split; [apply since_app; exact Ht|reflexivity].
  - rewrite call_exception_state, Hcb1. split; [|reflexivity].
    destruct (exception_callback_ (acc s)).
    + apply since_app. simpl. rewrite Ht, app_assoc. reflexivity.
    + rewrite app_nil_r. apply since_app. exact Ht.
Qed.

Lemma looped_actions name hev ce we evs r dl tail :
  Forall (loop_action name hev we evs) dl ->
  (forall a, a ∈ tail -> exists e, a = ExceptionA e) ->
  Forall (looped_action we evs) ((dl ++ unwound r ce we) ++ tail).
Proof.
  intros HF Htail. apply Forall_app. split; [apply Forall_app; split|].
  - eapply Forall_impl; [exact HF|].
    intros [] Ha; simpl in *; auto.
  - destruct r as [[|c w p]|e]; repeat constructor.
  - apply Forall_forall. intros a Ha. destruct (Htail a Ha) as [e ->]. exact I.
Qed.

(** (C9) Within one run of the loop, every invocation of the
    new-connection callback receives the same write-completion event, which
    is also the second handle of every wait of the loop: in a run of the
    thread function from its start it is the one auto-reset event the run
    created, second action of the run; a loop that is suspended keeps it,
    and a run resumed from the wait goes on with the one it kept and
    creates none. *)
Theorem one_write_event_for_every_connection en waits s :
  0 < next s ->
  let t := fst (thread_function en waits s) in
  let d := since s (snd (thread_function en waits s)) in
  exists we,
    (forall pipe w, NewConnectionA pipe w ∈ d -> w = we)
    /\ (forall hs r, WaitA hs r ∈ d -> hs !! 1%nat = Some we)
    /\ (forall c w p, t = Waiting c w p -> w = we)
    /\ match en with
       | FromStart =>
           (tally is_create_auto_reset_event d <= 1)%nat
           /\ ((exists pipe w, NewConnectionA pipe w ∈ d) ->
               d !! 1%nat = Some (CreateEventA false false we))
       | FromWait _ w _ => w = we /\ tally is_create_event d = O
       end.
Proof.
  intros Hpos t d.
  destruct (thread_function_delta en waits s Hpos) as (r & d1 & HD & Hd & Ht).
  subst t d. rewrite Hd, Ht. clear Hd Ht.
  set (tail := match r, exception_callback_ (acc s) with
               | Exc e, Some _ => [ExceptionA (Some e)]
               | _, _ => []
               end).
  assert (Htail : forall a, a ∈ tail -> exists e, a = ExceptionA e).
  { intros a Ha. subst tail. destruct r as [x|e]; [inversion Ha|].
    destruct (exception_callback_ (acc s)); [|inversion Ha].
    apply elem_of_cons in Ha as [->|Ha]; [eauto|inversion Ha]. }
  assert (Hshort : forall a d0,
            (forall a', a' ∈ d0 -> is_throw a' = true \/ is_create_event a' = true
                                   \/ exists h, a' = CloseHandleA h) ->
            a ∈ d0 ++ tail ->
            match a with NewConnectionA _ _ | WaitA _ _ => False | _ => True end).
  { intros a d0 Hd0 Ha. apply elem_of_app in Ha as [Ha|Ha].
    - destruct (Hd0 a Ha) as [H|[H|[h H]]]; destruct a; try discriminate; exact I.
    - destruct (Htail a Ha) as [e ->]. exact I. }
  assert (Hlooped : forall name hev ce we evs dl,
            Forall (loop_action name hev we evs) dl ->
            (forall pipe w, NewConnectionA pipe w ∈ (dl ++ unwound r ce we) ++ tail
                            -> w = we)
            /\ (forall hs r0, WaitA hs r0 ∈ (dl ++ unwound r ce we) ++ tail
                              -> hs = evs)
            /\ tally is_create_event ((dl ++ unwound r ce we) ++ tail) = O
            /\ tally is_create_auto_reset_event ((dl ++ unwound r ce we) ++ tail) = O).
  { intros name hev ce we evs dl HF.
    pose proof (looped_actions name hev ce we evs r dl tail HF Htail) as HL.
    split; [|split; [|split]].
    - intros pipe w Hin. rewrite Forall_forall in HL. exact (HL _ Hin).
    - intros hs r0 Hin. rewrite Forall_forall in HL. exact (HL _ Hin).
    - revert HL. apply tally_Forall.
      intros [] Ha; simpl in Ha; try reflexivity; contradiction.
    - revert HL. apply tally_Forall.
      intros [] Ha; simpl in Ha; try reflexivity; contradiction. }
  destruct en as [|c0 w0 p0]; simpl in HD.
  - inversion HD; subst.
    + exists NULL. split; [|split; [|split; [|split]]].
      * intros pipe w Hin. exfalso.
        refine (Hshort (NewConnectionA pipe w) [CreateEventA true true NULL; ThrowA e] _ Hin).
        intros a' Ha'. repeat (apply elem_of_cons in Ha' as [->|Ha']; [auto|]).
        inversion Ha'.
      * intros hs r0 Hin. exfalso.
        refine (Hshort (WaitA hs r0) [CreateEventA true true NULL; ThrowA e] _ Hin).
        intros a' Ha'. repeat (apply elem_of_cons in Ha' as [->|Ha']; [auto|]).
        inversion Ha'.
      * discriminate.
      * simpl. destruct (exception_callback_ (acc s)); simpl; lia.
      * intros (pipe & w & Hin). exfalso.
        refine (Hshort (NewConnectionA pipe w) [CreateEventA true true NULL; ThrowA e] _ Hin).
        intros a' Ha'. repeat (apply elem_of_cons in Ha' as [->|Ha']; [auto|]).
        inversion Ha'.
    + exists NULL. split; [|split; [|split; [|split]]].
      * intros pipe w Hin. exfalso.
        refine (Hshort (NewConnectionA pipe w) [CreateEventA true true ce; CreateEventA false false NULL;
                         ThrowA e; CloseHandleA ce] _ Hin).
        intros a' Ha'. repeat (apply elem_of_cons in Ha' as [->|Ha']; [eauto|]).
        inversion Ha'.
      * intros hs r0 Hin. exfalso.
        refine (Hshort (WaitA hs r0) [CreateEventA true true ce; CreateEventA false false NULL;
                         ThrowA e; CloseHandleA ce] _ Hin).
        intros a' Ha'. repeat (apply elem_of_cons in Ha' as [->|Ha']; [eauto|]).
        inversion Ha'.
      * discriminate.
      * simpl. destruct (exception_callback_ (acc s)); simpl; lia.
      * intros (pipe & w & Hin). exfalso.
        refine (Hshort (NewConnectionA pipe w) [CreateEventA true true ce; CreateEventA false false NULL;
                         ThrowA e; CloseHandleA ce] _ Hin).
        intros a' Ha'. repeat (apply elem_of_cons in Ha' as [->|Ha']; [eauto|]).
        inversion Ha'.
    + match goal with Hf : Forall _ dl |- _ =>
        destruct (Hlooped _ _ ce _ _ _ Hf) as (N1 & N2 & N3 & N4) end.
      match goal with Hx : exit_shape _ _ _ _ _ |- _ => destruct Hx as [_ Hkeep] end.
      exists we. split; [|split; [|split; [|split]]].
      * intros pipe w Hin. simpl in Hin.
        do 2 (apply elem_of_cons in Hin as [Hin|Hin]; [discriminate|]).
        eapply N1. exact Hin.
      * intros hs r0 Hin. simpl in Hin.
        do 2 (apply elem_of_cons in Hin as [Hin|Hin]; [discriminate|]).
        rewrite (N2 _ _ Hin). reflexivity.
      * intros c w p Heq. destruct r as [[|c' w' p']|e]; try discriminate.
        inversion Heq; subst. apply Hkeep.
      * simpl. simpl in N4. rewrite N4. lia.
      * intros _. reflexivity.
  - destruct HD as (dl & -> & HF & [_ Hkeep]).
    destruct (Hlooped _ _ c0 _ _ _ HF) as (N1 & N2 & N3 & N4).
    exists w0. split; [|split; [|split; [|split]]].
    + exact N1.
    + intros hs r0 Hin. rewrite (N2 _ _ Hin). reflexivity.
    + intros c w p Heq. destruct r as [[|c' w' p']|e]; try discriminate.
      inversion Heq; subst. apply Hkeep.
    + reflexivity.
    + exact N3.
Qed.

(** (C3, as amended) Every run of the thread function begins by creating
    the connect-ready event as a manual-reset event, initially signaled,
    and then, when that succeeded, the deferred-work-ready event as an
    auto-reset event, initially nonsignaled; the run creates no other
    event. *)
Theorem loop_events_reset_modes waits s :
  0 < next s ->
  let d := since s (snd (LinstenInThread waits s)) in
  exists ce rest,
    d = CreateEventA true true ce :: rest
    /\ (ce = NULL -> tally is_create_event rest = O)
    /\ (ce <> NULL ->
        exists we rest',
          rest = CreateEventA false false we :: rest'
          /\ tally is_create_event rest' = O).
Proof.
  intros Hpos d. destruct (LinstenInThread_delta waits s Hpos) as (r & d1 & HD & Hd).
  subst d. rewrite Hd. clear Hd.
  set (tail := match r, exception_callback_ (acc s) with
               | Exc e, Some _ => [ExceptionA (Some e)]
               | _, _ => []
               end).
  assert (Htally : tally is_create_event tail = O).
  { subst tail. destruct r as [x|e]; [reflexivity|].
    destruct (exception_callback_ (acc s)); reflexivity. }
  inversion HD; subst.
  - exists NULL. eexists. split; [reflexivity|]. split.
    + intros _. simpl. exact Htally.
    + intros Hne. contradiction.
  - exists ce. eexists. split; [reflexivity|]. split; [contradiction|].
    intros _. do 2 eexists. split; [reflexivity|]. simpl. exact Htally.
  - exists ce. eexists. split; [reflexivity|]. split; [contradiction|].
    intros _. do 2 eexists. split; [reflexivity|].
    match goal with Hf : Forall _ dl |- _ =>
      rewrite !tally_app, Htally, (loop_action_no_create_event _ _ _ _ _ Hf) end.
    destruct r as [[|c w p]|e]; reflexivity.
Qed.

End Thread.

(** *** The scenarios of the run *)

Lemma exception_callback_on_fatal_exit_only_witness :
  0 < next (served calm)
  /\ exists e d',
       since (served calm)
         (snd (thread_function FromStart [WAIT_OBJECT_0; WAIT_FAILED] (served calm)))
       = d' ++ [ExceptionA (Some e)]
       /\ tally is_exception_call d' = O.
Proof.
  split; [reflexivity|].
  pose proof (exception_callback_on_fatal_exit_only FromStart
                [WAIT_OBJECT_0; WAIT_FAILED]
                (served calm) note_exception eq_refl eq_refl) as H.
  vm_compute in H.
  destruct H as [_ [(e & d' & H1 & H2 & _)|(d' & ce & we & _ & H2 & _)]].
  - exists e, d'. split; [vm_compute; exact H1|exact H2].
  - discriminate H2.
Defined.

(** (C1, as stated) A run that exits cleanly on the stop signal does not
    invoke the registered exception callback, neither with an empty value
    nor otherwise. *)
Lemma clean_stop_skips_exception_callback :
  exception_callback_ (acc (served calm)) = Some note_exception
  /\ fst (LinstenInThread [WAIT_OBJECT_0 + 2] (served calm)) = Exited
  /\ since (served calm) (snd (LinstenInThread [WAIT_OBJECT_0 + 2] (served calm)))
     = [CreateEventA true true 2; CreateEventA false false 3;
        CreateNamedPipeA "\\.\pipe\svc-a" 4; ConnectNamedPipeA 4 2 false;
        WaitA [2; 3; 1] (WAIT_OBJECT_0 + 2); CloseHandleA 3; CloseHandleA 2]
  /\ tally is_exception_call
       (trace (snd (LinstenInThread [WAIT_OBJECT_0 + 2] (served calm)))) <> 1%nat
  /\ user (snd (LinstenInThread [WAIT_OBJECT_0 + 2] (served calm))) = [].
Proof. vm_compute. repeat split. discriminate. Qed.


Lemma one_write_event_for_every_connection_witness :
  exists we, forall pipe w,
    NewConnectionA pipe w
      ∈ since (served calm)
          (snd (thread_function FromStart [WAIT_OBJECT_0; WAIT_OBJECT_0]
                  (served calm))) ->
    w = we.
Proof.
  destruct (one_write_event_for_every_connection FromStart
              [WAIT_OBJECT_0; WAIT_OBJECT_0] (served calm) eq_refl) as (we & H & _).
  exists we. exact H.
Defined.

Lemma loop_events_reset_modes_witness :
  exists ce rest,
    since (served calm) (snd (LinstenInThread [WAIT_OBJECT_0 + 2] (served calm)))
    = CreateEventA true true ce :: rest.
Proof.
  destruct (loop_events_reset_modes [WAIT_OBJECT_0 + 2] (served calm) eq_refl)
    as (ce & rest & H & _).
  exists ce, rest. exact H.
Defined.

(** (C3, as stated) The connect-ready event is not an auto-reset event: it
    is created with bManualReset = TRUE, and a wait that it satisfies leaves
    it signaled. *)
Lemma connect_event_is_manual_reset :
  since (served calm) (listening calm) !! 0%nat = Some (CreateEventA true true 2)
  /\ objects (ker (listening calm)) !! 2
     = Some {| ev_manual_reset := true; ev_signaled := false |}
  /\ objects (snd (Win32.WaitForMultipleObjectsEx [2; 3; 1] WAIT_OBJECT_0
                     (ker (listening calm)))) !! 2
     = Some {| ev_manual_reset := true; ev_signaled := true |}.
Proof. vm_compute. repeat split. Qed.

Lemma new_connection_delivered_before_rearm_witness :
  exists h rest,
    trace (snd (loop [WAIT_OBJECT_0] 2 3 [2; 3; 1] true (listening calm)))
    = trace (connect_confirmed [2; 3; 1] true (listening calm))
        ++ NewConnectionA 4 3 :: CreateNamedPipeA "\\.\pipe\svc-a" h :: rest
    /\ (h <> INVALID_HANDLE_VALUE ->
        exists b rest', rest = ConnectNamedPipeA h 2 b :: rest').
Proof.
  destruct (proj2 (proj2 (proj2 (new_connection_delivered_before_rearm
                                   [] 2 3 [2; 3; 1] true
                                   (listening calm) note_connection eq_refl
                                   (fun _ => eq_refl)))))
    as (h & rest & Ht & _ & Hc).
  assert (E1 : next_pipe_ (acc (listening calm)) = 4) by reflexivity.
  assert (E2 : c_str (pipe_name_ (acc (listening calm))) = "\\.\pipe\svc-a"%string)
    by reflexivity.
  assert (E3 : hEvent (connect_overlap_ (acc (listening calm))) = 2)
    by reflexivity.
  rewrite E1, E2 in Ht. rewrite E3 in Hc.
  exists h, rest. split; [|exact Hc].
  assert (L : forall (a : Action) (u : list Note) (x : State (list Note)),
            trace (log a (set_user u x)) = trace x ++ [a]) by reflexivity.
  rewrite Ht, L, <- app_assoc. reflexivity.
Defined.

Lemma unset_callback_rearms_and_continues_witness :
  let s := snd (LinstenInThread [] (unserved calm)) in
  loop [WAIT_OBJECT_0] 2 3 [2; 3; 1] true s
  = loop [] 2 3 [2; 3; 1] true
      (snd (CreateConnectInstance (connect_confirmed [2; 3; 1] true s))).
Proof.
  exact (proj2 (proj2 (proj2
           (unset_callback_rearms_and_continues [] 2 3 [2; 3; 1] true
              (snd (LinstenInThread [] (unserved calm))) eq_refl
              (fun _ => eq_refl))))
           true eq_refl).
Defined.

(** ** Stop *)

Section Shutdown.

Context {U : Type}.
Implicit Types (s : State U).

Lemma Stop_leaves_no_thread waits s s' :
  Stop waits s = Finished s' -> listen_thread_ (acc s') = None.
Proof.
  unfold Stop. simpl.
  destruct (listen_thread_ (acc _)) as [t|] eqn:Et.
  - destruct (resume t waits _) as [[c w p|] s3]; intros H; [discriminate|].
    inversion H. reflexivity.
  - intros H. inversion H. subst s'. exact Et.
Qed.

Lemma sysSetEvent_state h s :
  let c := sysSetEvent h s in
  acc (snd c) = acc s /\ user (snd c) = user s
  /\ trace (snd c) = trace s ++ [SetEventA h (fst c)]
  /\ next (snd c) = next s
  /\ oracle (ker (snd c)) = oracle (ker s)
  /\ (forall h', h' <> h -> objects (ker (snd c)) !! h' = objects (ker s) !! h')
  /\ ev_manual_reset <$> (objects (ker (snd c)) !! h)
     = ev_manual_reset <$> (objects (ker s) !! h)
  /\ (fst c = true -> ev_signaled <$> (objects (ker (snd c)) !! h) = Some true)
  /\ (fst c = false -> objects (ker (snd c)) = objects (ker s)).
Proof.
  unfold sysSetEvent, Win32.SetEvent, next.
  destruct (objects (ker s) !! h) as [ev|] eqn:El;
    [destruct (on_SetEvent (oracle (ker s)) (clock (ker s)))|]; simpl;
    split_and!; try reflexivity; try (intros; discriminate); auto.
  - rewrite El. reflexivity.
  - intros h' Hne. apply lookup_insert_ne. congruence.
  - rewrite lookup_insert_eq. reflexivity.
  - intros _. rewrite lookup_insert_eq. reflexivity.
  - rewrite El. reflexivity.
Qed.

Lemma ownerSetEvent_state h s :
  let c := ownerSetEvent h s in
  acc (snd c) = acc s /\ user (snd c) = user s
  /\ trace (snd c) = trace s ++ [SetEventA h (fst c)]
  /\ next (snd c) = next s
  /\ oracle (ker (snd c)) = oracle (ker s)
  /\ (forall h', h' <> h -> objects (ker (snd c)) !! h' = objects (ker s) !! h')
  /\ ev_manual_reset <$> (objects (ker (snd c)) !! h)
     = ev_manual_reset <$> (objects (ker s) !! h)
  /\ (fst c = true -> ev_signaled <$> (objects (ker (snd c)) !! h) = Some true)
  /\ (fst c = false -> objects (ker (snd c)) = objects (ker s)).
Proof.
  unfold ownerSetEvent, on_other_thread, Win32.SetEvent, next.
  destruct (objects (ker s) !! h) as [ev|] eqn:El;
    [destruct (on_SetEvent (oracle (ker s)) (clock (ker s)))|]; simpl;
    split_and!; try reflexivity; try (intros; discriminate); auto.
  - rewrite El. reflexivity.
  - intros h' Hne. apply lookup_insert_ne. congruence.
  - rewrite lookup_insert_eq. reflexivity.
  - intros _. rewrite lookup_insert_eq. reflexivity.
  - rewrite El. reflexivity.
Qed.


End Shutdown.



(** ** The handles over the lifetime of an acceptor *)

Section Ledger.

Context {U : Type}.
Implicit Types (s : State U) (d t : list Action).

Lemma Advanced_refl s : Advanced s s [].
Proof.
  split; simpl; try reflexivity.
  - rewrite app_nil_r. reflexivity.
  - intros _. rewrite Z.sub_diag. reflexivity.
Qed.

Lemma Advanced_trans s s1 s2 d1 d2 :
  Advanced s s1 d1 -> Advanced s1 s2 d2 -> Advanced s s2 (d1 ++ d2).
Proof.
  intros [T1 C1 N1 H1 K1] [T2 C2 N2 H2 K2]. split.
  - rewrite T2, T1, app_assoc. reflexivity.
  - congruence.
  - rewrite last_pipe_app, <- N1. exact N2.
  - lia.
  - intros Hpos. rewrite omap_app, K1, K2 by lia.
    replace (next s2 - next s) with ((next s1 - next s) + (next s2 - next s1)) by lia.
    rewrite seqZ_app by lia. f_equal. f_equal. lia.
Qed.

Lemma Advanced_of_Moved s s' d : Moved s s' d -> Advanced s s' d.
Proof.
  intros [T C N H K O]. split; try assumption.
  rewrite C. destruct (acc s); reflexivity.
Qed.

(** A step that logs actions creating nothing, and assigns neither
    [next_pipe_] nor [close_event_]. *)
Lemma Advanced_quiet s s' d :
  trace s' = trace s ++ d ->
  close_event_ (acc s') = close_event_ (acc s) ->
  next_pipe_ (acc s') = next_pipe_ (acc s) ->
  next s' = next s ->
  omap created d = [] -> (forall h, last_pipe h d = h) ->
  Advanced s s' d.
Proof.
  intros Ht Hc Hp Hn Hd Hl. split; try assumption.
  - rewrite Hl. exact Hp.
  - lia.
  - intros _. rewrite Hd, Hn, Z.sub_diag. reflexivity.
Qed.

Lemma Inv_advanced s s' d :
  Inv s -> Advanced s s' d ->
  0 < next s'
  /\ omap created (trace s') = seqZ 1 (next s' - 1)
  /\ next_pipe_ (acc s') = last_pipe NULL (trace s').
Proof.
  intros [I1 I2 I3 _] [T C N H K]. split; [lia|]. split.
  - rewrite T, omap_app, I2, K by exact I1.
    replace (next s' - 1) with ((next s - 1) + (next s' - next s)) by lia.
    rewrite seqZ_app by lia. f_equal. f_equal. lia.
  - rewrite T, last_pipe_app, <- I3. exact N.
Qed.

Lemma loop_ledger name ce we evs d :
  Forall (loop_action name ce we evs) d ->
  omap created_event d = [] /\ omap closed d = [].
Proof.
  induction 1 as [|a d Ha _ [IH1 IH2]]; [split; reflexivity|].
  destruct a; simpl in *; try contradiction; rewrite ?IH1, ?IH2; auto.
Qed.

Lemma unwound_ledger r ce we :
  omap created_event (unwound r ce we) = []
  /\ omap closed (unwound r ce we)
     = match r with Val (Suspend _ _ _) => [] | _ => [we; ce] end.
Proof. destruct r as [[|c w p]|e]; split; reflexivity. Qed.

(** A run of the try block closes the events it created, unless it is
    suspended, and then it holds them. *)
Lemma thread_delta_ledger name close r d :
  thread_delta name close r d ->
  omap created_event d
  ≡ₚ omap closed d ++ match r with Val (Suspend c w _) => [c; w] | _ => [] end.
Proof.
  intros H. inversion H; subst; simpl.
  - reflexivity.
  - destruct (ce =? NULL) eqn:E; [apply Z.eqb_eq in E; contradiction|].
    reflexivity.
  - destruct (ce =? NULL) eqn:E; [apply Z.eqb_eq in E; contradiction|].
    destruct (we =? NULL) eqn:E'; [apply Z.eqb_eq in E'; contradiction|].
    match goal with Hf : Forall _ dl |- _ =>
      destruct (loop_ledger _ _ _ _ _ Hf) as [L1 L2] end.
    destruct (unwound_ledger r ce we) as [U1 U2].
    rewrite !omap_app, L1, L2, U1, U2. simpl.
    match goal with Hx : exit_shape _ _ _ _ _ |- _ => destruct Hx as [_ Hkeep] end.
    destruct r as [[|c w p]|e]; simpl.
    + apply Permutation_swap.
    + destruct Hkeep as [-> ->]. reflexivity.
    + apply Permutation_swap.
Qed.

Lemma call_exception_advanced eptr s :
  Advanced s (call_exception eptr s)
    (match exception_callback_ (acc s) with
     | Some _ => [ExceptionA eptr]
     | None => []
     end)
  /\ acc (call_exception eptr s) = acc s.
Proof.
  rewrite call_exception_state.
  destruct (exception_callback_ (acc s)); simpl.
  - split; [|reflexivity]. apply Advanced_quiet; reflexivity.
  - split; [|reflexivity]. apply Advanced_refl.
Qed.

Lemma held_eq s s' :
  close_event_ (acc s') = close_event_ (acc s) ->
  listen_thread_ (acc s') = listen_thread_ (acc s) ->
  held s' = held s.
Proof. intros H1 H2. unfold held. rewrite H1, H2. reflexivity. Qed.

Lemma Inv_ctor endpoint o (u : U) : Inv (Acceptor_ctor endpoint o u).
Proof.
  unfold Acceptor_ctor, ownerCreateEvent, on_other_thread, Win32.CreateEvent. simpl.
  destruct (on_CreateEvent o 0%nat); split; simpl; reflexivity.
Qed.

Lemma Inv_setter s s' :
  Inv s -> trace s' = trace s -> ker s' = ker s ->
  next_pipe_ (acc s') = next_pipe_ (acc s) ->
  close_event_ (acc s') = close_event_ (acc s) ->
  listen_thread_ (acc s') = listen_thread_ (acc s) ->
  Inv s'.
Proof.
  intros [I1 I2 I3 I4] Ht Hk Hp Hc Hl. unfold next in *.
  split; unfold next; rewrite ?Ht, ?Hk, ?Hp, ?(held_eq s s' Hc Hl); assumption.
Qed.

Lemma Inv_Listen waits s s' :
  Inv s -> Listen waits s = Finished s' -> Inv s'.
Proof.
  intros HI0. unfold Listen.
  destruct (listen_thread_ (acc s)) as [t0|] eqn:Et0'; [discriminate|].
  assert (HI : Inv (set_ker (thread_started (ker s)) s)).
  { destruct HI0 as [I1 I2 I3 I4]. split; assumption. }
  assert (Et0 : listen_thread_ (acc (set_ker (thread_started (ker s)) s)) = None)
    by exact Et0'.
  clear HI0 Et0'. revert HI Et0.
  generalize (set_ker (thread_started (ker s)) s). clear s. intros s HI Et0.
  destruct (LinstenInThread_cases waits s (inv_next _ HI))
    as (r & s1 & d & E & HM & HD & _ & HL).
  rewrite HL. clear HL.
  pose proof (Advanced_of_Moved _ _ _ HM) as HA.
  pose proof (thread_delta_ledger _ _ _ _ HD) as HLed.
  assert (Hthr : listen_thread_ (acc s1) = None).
  { rewrite (mv_acc _ _ _ HM). destruct (acc s); exact Et0. }
  set (t := match r with
            | Val (Suspend c w p) => Waiting c w p
            | _ => Exited
            end).
  set (s2 := match r with Exc e => call_exception (Some e) s1 | _ => s1 end).
  set (tail := match r, exception_callback_ (acc s1) with
               | Exc e, Some _ => [ExceptionA (Some e)]
               | _, _ => []
               end).
  assert (H2 : Advanced s1 s2 tail /\ acc s2 = acc s1).
  { subst s2 tail. destruct r as [x|e].
    - split; [apply Advanced_refl|reflexivity].
    - apply call_exception_advanced. }
  destruct H2 as [HA2 Hacc2].
  assert (Hs' : s' = set_acc (set_listen_thread_ (Some t) (acc s2)) s2
                -> Inv s').
  { intros ->.
    pose proof (Advanced_trans _ _ _ _ _ HA HA2) as HA3.
    assert (HA4 : Advanced s (set_acc (set_listen_thread_ (Some t) (acc s2)) s2)
                    (d ++ tail)).
    { destruct HA3 as [T C N H K]. split; try assumption. }
    destruct (Inv_advanced _ _ _ HI HA4) as (J1 & J2 & J3).
    split; try assumption.
    rewrite (adv_trace _ _ _ HA4), !omap_app.
    assert (Htail : omap created_event tail = [] /\ omap closed tail = []).
    { subst tail. destruct r as [x|e]; [split; reflexivity|].
      destruct (exception_callback_ (acc s1)); split; reflexivity. }
    destruct Htail as [-> ->]. rewrite !app_nil_r.
    rewrite (inv_events _ HI), HLed.
    unfold held. simpl. rewrite Hacc2.
    rewrite (adv_close_event _ _ _ HA), Et0. rewrite app_nil_r.
    assert (Ht : match r with Val (Suspend c w _) => [c; w] | _ => [] end
                 = match t with Waiting c w _ => [c; w] | Exited => [] end).
    { subst t. destruct r as [[|c w p]|e]; reflexivity. }
    rewrite Ht.
    rewrite <- !app_assoc. apply Permutation_app_head.
    rewrite !app_assoc. apply Permutation_app_tail. apply Permutation_app_comm. }
  subst t s2. destruct r as [[|c w p]|e]; intros H; apply Hs'; congruence.
Qed.

(** The invariant follows the ledger: what a step creates and what was
    held is what the step closes and what is held after it. *)
Lemma Inv_step s s' d :
  Inv s -> Advanced s s' d ->
  omap created_event d ++ held s ≡ₚ omap closed d ++ held s' ->
  Inv s'.
Proof.
  intros HI HA HP. destruct (Inv_advanced _ _ _ HI HA) as (J1 & J2 & J3).
  split; try assumption.
  rewrite (adv_trace _ _ _ HA), !omap_app, (inv_events _ HI).
  rewrite <- !app_assoc. apply Permutation_app_head.
  rewrite <- HP. apply Permutation_app_comm.
Qed.

Lemma Inv_Stop waits s s' :
  Inv s -> Stop waits s = Finished s' -> Inv s'.
Proof.
  intros HI. unfold Stop.
  pose proof (ownerSetEvent_state (close_event_ (acc s)) s)
    as (Ha & _ & Ht & Hn & _).
  simpl in Ha, Ht, Hn.
  set (s1 := snd (ownerSetEvent (close_event_ (acc s)) s)) in *.
  set (ok := fst (ownerSetEvent (close_event_ (acc s)) s)) in *.
  set (s2 := snd (sysDisconnectNamedPipe (next_pipe_ (acc s1)) s1)).
  assert (HA2 : Advanced s s2 [SetEventA (close_event_ (acc s)) ok;
                               DisconnectNamedPipeA (next_pipe_ (acc s1))]).
  { apply Advanced_quiet; subst s2; simpl.
    - rewrite Ht, <- app_assoc. reflexivity.
    - rewrite Ha. reflexivity.
    - rewrite Ha. reflexivity.
    - exact Hn.
    - reflexivity.
    - reflexivity. }
  assert (Hacc2 : acc s2 = acc s) by exact Ha.
  simpl. fold s2. rewrite Ha. clearbody s2. clear Ha Ht Hn. clearbody s1 ok.
  destruct (listen_thread_ (acc s)) as [[c w p|]|] eqn:Ethr.
  - (* the loop is suspended in its wait: join *)
    simpl. unfold run_thread.
    destruct (try_block_resumed_spec c w p waits s2) as (dl & HM & HF & _ & Hkeep).
    destruct (try_block_resumed c w p waits s2) as [r s3]. simpl in *.
    destruct (loop_ledger _ _ _ _ _ HF) as [L1 L2].
    destruct (unwound_ledger r c w) as [U1 U2].
    pose proof (Advanced_of_Moved _ _ _ HM) as HA3.
    assert (Hthr3 : listen_thread_ (acc s3) = Some (Waiting c w p)).
    { rewrite (mv_acc _ _ _ HM), Hacc2. destruct (acc s); exact Ethr. }
    assert (Hfin : forall s4 tail,
              Advanced s3 s4 tail -> acc s4 = acc s3 ->
              omap created_event tail = [] -> omap closed tail = [] ->
              (forall c' w' p', r <> Val (Suspend c' w' p')) ->
              Inv (set_acc (set_listen_thread_ None (acc s4)) s4)).
    { intros s4 tail HA4 Hacc4 T1 T2 Hr.
      pose proof (Advanced_trans _ _ _ _ _ HA2 (Advanced_trans _ _ _ _ _ HA3 HA4))
        as HA5.
      match type of HA5 with Advanced _ _ ?d => apply (Inv_step s _ d HI) end.
      - destruct HA5 as [T C N H K]. split; try assumption.
      - rewrite !omap_app, L1, L2, U1, U2, T1, T2. simpl.
        unfold held. simpl. rewrite Hacc4, (adv_close_event _ _ _ HA3), Hacc2, Ethr.
        rewrite !app_nil_r.
        destruct r as [[|c' w' p']|e]; try (exfalso; eapply Hr; reflexivity);
          rewrite Permutation_app_comm; simpl; apply Permutation_swap. }
    destruct r as [[|c' w' p']|e]; intros H; inversion H; subst s'.
    + apply (Hfin s3 []); auto using Advanced_refl.
    + destruct (call_exception_advanced (Some e) s3) as [HA4 Hacc4].
      eapply Hfin; try eassumption; try discriminate;
        destruct (exception_callback_ (acc s3)); reflexivity.
  - (* the loop has ended: nothing to wait for *)
    simpl. intros H. inversion H; subst s'.
    match type of HA2 with Advanced _ _ ?d => apply (Inv_step s _ d HI) end.
    + destruct HA2 as [T C N H' K]. split; try assumption.
    + simpl. unfold held. simpl. rewrite Hacc2, Ethr. reflexivity.
  - intros H. inversion H; subst s'.
    apply (Inv_step s _ _ HI HA2).
    simpl. unfold held. rewrite Hacc2, Ethr. reflexivity.
Qed.

Lemma Inv_call c s s' : Inv s -> call c s = Finished s' -> Inv s'.
Proof.
  intros HI. destruct c; simpl.
  - intros H. inversion H. apply (Inv_setter s); auto.
  - intros H. inversion H. apply (Inv_setter s); auto.
  - intros H. inversion H. apply (Inv_setter s); auto.
  - apply Inv_Listen. exact HI.
  - apply Inv_Stop. exact HI.
Qed.

Lemma Inv_calls cs : forall s s', Inv s -> calls cs s = Finished s' -> Inv s'.
Proof.
  induction cs as [|c cs IH]; simpl; intros s s' HI H.
  - inversion H. subst. exact HI.
  - destruct (call c s) as [s1| |] eqn:E; try discriminate.
    eapply IH; [|exact H]. eapply Inv_call; eassumption.
Qed.

(** *** Counting *)

Lemma occurrences_app h (l1 l2 : list Z) :
  occurrences h (l1 ++ l2) = (occurrences h l1 + occurrences h l2)%nat.
Proof.
  induction l1 as [|x l1 IH]; simpl; [reflexivity|].
  destruct (x =? h); simpl; rewrite IH; reflexivity.
Qed.

Lemma occurrences_perm h (l1 l2 : list Z) :
  l1 ≡ₚ l2 -> occurrences h l1 = occurrences h l2.
Proof.
  induction 1 as [|x l1 l2 _ IH|x y l|l1 l2 l3 _ IH1 _ IH2]; simpl.
  - reflexivity.
  - rewrite IH. reflexivity.
  - destruct (x =? h), (y =? h); reflexivity.
  - congruence.
Qed.



Lemma tally_is_close h t : tally (is_close h) t = occurrences h (omap closed t).
Proof.
  induction t as [|a t IH]; simpl; [reflexivity|].
  destruct a; simpl; try exact IH. rewrite IH. reflexivity.
Qed.





Lemma last_pipe_cases h0 t :
  last_pipe h0 t = h0 \/ last_pipe h0 t = INVALID_HANDLE_VALUE
  \/ last_pipe h0 t ∈ omap created_pipe t.
Proof.
  revert h0. induction t as [|a t IH]; intros h0; simpl; [auto|].
  destruct a; simpl; auto.
  destruct (IH ret0) as [H|[H|H]]; auto.
  destruct (ret0 =? INVALID_HANDLE_VALUE) eqn:E.
  - apply Z.eqb_eq in E. rewrite H, E. auto.
  - right. right. rewrite H. left.
  - destruct (ret0 =? INVALID_HANDLE_VALUE); auto. right. right. right. exact H.
Qed.

Lemma created_positive s h : Inv s -> h ∈ omap created (trace s) -> 0 < h.
Proof.
  intros HI Hin. rewrite (inv_created _ HI) in Hin.
  apply elem_of_seqZ in Hin. lia.
Qed.

(** The destructor, on an acceptor in order. *)
Lemma dtor_ledger waits s s' :
  Inv s -> Acceptor_dtor waits s = Finished s' ->
  let t := trace s' in
  let np := last_pipe NULL t in
  NoDup (omap created t)
  /\ (forall h, h ∈ omap created t -> 0 < h)
  /\ (np = NULL \/ np = INVALID_HANDLE_VALUE \/ np ∈ omap created_pipe t)
  /\ forall h, h <> NULL ->
       tally (is_close h) t
       = (occurrences h (omap created_event t)
          + if (np =? h)%Z then 1 else 0)%nat.
Proof.
  intros HI. unfold Acceptor_dtor.
  destruct (Stop waits s) as [s1| |] eqn:E; try discriminate.
  pose proof (Inv_Stop _ _ _ HI E) as HI1.
  pose proof (Stop_leaves_no_thread _ _ _ E) as Hnone.
  intros H. inversion H; subst s'. clear H. simpl.
  set (np := next_pipe_ (acc s1)). set (ce := close_event_ (acc s1)).
  assert (Hcr : omap created (trace s1 ++ [CloseHandleA np] ++ [CloseHandleA ce])
                = omap created (trace s1)).
  { rewrite omap_app. simpl. apply app_nil_r. }
  assert (Hev : omap created_event (trace s1 ++ [CloseHandleA np] ++ [CloseHandleA ce])
                = omap created_event (trace s1)).
  { rewrite omap_app. simpl. apply app_nil_r. }
  assert (Hpi : omap created_pipe (trace s1 ++ [CloseHandleA np] ++ [CloseHandleA ce])
                = omap created_pipe (trace s1)).
  { rewrite omap_app. simpl. apply app_nil_r. }
  assert (Hlp : last_pipe NULL (trace s1 ++ [CloseHandleA np] ++ [CloseHandleA ce])
                = np).
  { rewrite last_pipe_app. simpl. symmetry. apply (inv_pipe _ HI1). }
  rewrite <- app_assoc. rewrite Hcr, Hev, Hpi, Hlp.
  split; [rewrite (inv_created _ HI1); apply NoDup_seqZ|].
  split; [intros h; apply (created_positive _ _ HI1)|].
  split.
  { unfold np. rewrite (inv_pipe _ HI1). apply last_pipe_cases. }
  intros h Hh.
  rewrite tally_is_close, omap_app. simpl.
  rewrite (occurrences_perm h _ _ (inv_events _ HI1)), !occurrences_app.
  unfold held. fold ce. rewrite Hnone. simpl. rewrite app_nil_r.
  destruct (ce =? NULL) eqn:Ece; simpl.
  - apply Z.eqb_eq in Ece. rewrite Ece.
    destruct (NULL =? h) eqn:E0; [apply Z.eqb_eq in E0; congruence|].
    destruct (np =? h); lia.
  - destruct (ce =? h), (np =? h); lia.
Qed.


End Ledger.




(** ** The runs of the loop *)

Section Runs.

Context {U : Type}.
Implicit Types (s : State U) (d t : list Action).

Lemma configured_acc name hev nc io s s' h :
  configured name hev nc io s -> acc s' = set_next_pipe_ h (acc s) ->
  configured name hev nc io s'.
Proof. unfold configured. intros H ->. destruct (acc s); exact H. Qed.

Lemma configured_same name hev nc io s s' :
  configured name hev nc io s -> acc s' = acc s -> configured name hev nc io s'.
Proof. unfold configured. intros H ->. exact H. Qed.

Lemma rearmed_val name hev le le' h x dr :
  rearmed name hev le h (Val x) dr -> rearmed name hev le' h (Val x) dr.
Proof. intros H. inversion H; subst; constructor; assumption. Qed.

(** The first pipe instance and the loop, given the runs of the loop. *)
Lemma accepting_traced name hev ce we evs nc io waits :
  (forall pedding s, configured name hev nc io s ->
     traced (loop waits ce we evs pedding) s
       (fun le => looped name hev ce we evs nc io le (next_pipe_ (acc s))
                    pedding)) ->
  forall s, configured name hev nc io s ->
    traced (bind CreateConnectInstance (fun p => loop waits ce we evs p)) s
      (accepting name hev ce we evs nc io).
Proof.
  intros IH s Hc. unfold traced.
  destruct (CreateConnectInstance_rearmed s) as (h & dr & Ht & Hr & Ha).
  destruct Hc as (Hn & Hh & Hnc & Hio) eqn:Ec. rewrite Hn, Hh in Hr.
  unfold bind. destruct (CreateConnectInstance s) as [[p|e] s1]; simpl in *.
  - destruct (IH p s1 (configured_acc _ _ _ _ _ _ _ Hc Ha)) as (d & Ht2 & Hl).
    exists (dr ++ d). split.
    + rewrite Ht2, Ht, app_assoc. reflexivity.
    + rewrite Ha in Hl. simpl in Hl.
      eapply accepting_looped; [|exact Hl]. eapply rearmed_val. exact Hr.
  - exists dr. split; [exact Ht|]. eapply accepting_failed; eassumption.
Qed.

Lemma looped_of_accepting name hev ce we evs nc io le pipe pedding r da :
  accepting name hev ce we evs nc io le r da ->
  looped name hev ce we evs nc io le pipe pedding r
    (WaitA evs WAIT_OBJECT_0
       :: fetched pipe hev pedding ++ delivery nc pipe we ++ da).
Proof.
  intros [h pd dr r' d Hr Hl|h e dr Hr].
  - eapply looped_accepted; eassumption.
  - eapply looped_accepted_last; eassumption.
Qed.

Lemma call_new_connection_state pipe we s :
  let c := call_new_connection pipe we s in
  acc (snd c) = acc s
  /\ match fst c with
     | Val _ =>
         trace (snd c)
         = trace s
             ++ delivery (registered (new_connection_callback_ (acc s))) pipe we
     | Exc e =>
         registered (new_connection_callback_ (acc s)) = true
         /\ trace (snd c) = trace s ++ [NewConnectionA pipe we; ThrowA e]
     end.
Proof.
  unfold call_new_connection.
  destruct (new_connection_callback_ (acc s)) as [cb|]; simpl;
    [|auto using app_nil_r].
  rewrite call_back_run. destruct (fst (cb pipe we (user s))); simpl;
    rewrite <- ?app_assoc; auto.
Qed.

Lemma call_async_io_state s :
  let c := call_async_io s in
  acc (snd c) = acc s /\ next (snd c) = next s
  /\ match fst c with
     | Val _ =>
         trace (snd c)
         = trace s ++ deferred (registered (async_io_callback_ (acc s)))
     | Exc e =>
         registered (async_io_callback_ (acc s)) = true
         /\ trace (snd c) = trace s ++ [AsyncIoA; ThrowA e]
     end.
Proof.
  unfold call_async_io.
  destruct (async_io_callback_ (acc s)) as [cb|]; simpl;
    [|auto using app_nil_r].
  rewrite call_back_run. destruct (fst (cb (user s))); simpl;
    rewrite <- ?app_assoc; auto.
Qed.

(** Every run of the loop is one of the ways through it. *)
Lemma loop_looped name hev ce we evs nc io waits :
  forall pedding s, configured name hev nc io s ->
    traced (loop waits ce we evs pedding) s
      (fun le => looped name hev ce we evs nc io le (next_pipe_ (acc s))
                   pedding).
Proof.
  induction waits as [|w waits IH]; intros pedding s Hc.
  { exists []. split; [symmetry; apply app_nil_r|apply looped_suspended]. }
  unfold traced. simpl loop. rewrite bind_sys, sysWait_returns.
  pose proof (sysWait_state evs w s) as (Ha & _ & Ht & _).
  simpl in Ha, Ht.
  set (s1 := snd (sysWaitForMultipleObjectsEx evs w s)) in *.
  pose proof (configured_same _ _ _ _ _ _ Hc Ha) as Hc1.
  assert (Hacc : forall s2 dg,
            acc s2 = acc s -> trace s2 = trace s ++ WaitA evs w :: dg ->
            dg = fetched (next_pipe_ (acc s)) hev pedding -> w = WAIT_OBJECT_0 ->
            let body := bind (call_new_connection (next_pipe_ (acc s)) we)
                          (fun _ => bind CreateConnectInstance
                                      (fun p => loop waits ce we evs p)) in
            exists d, trace (snd (body s2)) = trace s ++ d
              /\ looped name hev ce we evs nc io
                   (last_error (ker (snd (body s2))))
                   (next_pipe_ (acc s)) pedding (fst (body s2)) d).
  { intros s2 dg Ha2 Ht2 -> -> body.
    pose proof (configured_same _ _ _ _ _ _ Hc Ha2) as Hc2.
    pose proof (call_new_connection_state (next_pipe_ (acc s)) we s2)
      as (Ha3 & Ht3).
    simpl in Ha3, Ht3.
    destruct (call_new_connection (next_pipe_ (acc s)) we s2) as [[v|e] s3]
      eqn:Ecall; simpl in Ha3, Ht3.
    2:{ assert (Hb : body s2 = (Exc e, s3)).
        { subst body. unfold bind. rewrite Ecall. reflexivity. }
        rewrite Hb. simpl. destruct Ht3 as [Hreg Ht3].
        destruct Hc2 as (_ & _ & Hnc & _). rewrite Hnc in Hreg.
        eexists. split.
        - rewrite Ht3, Ht2, <- !app_assoc. simpl. reflexivity.
        - apply looped_refused. exact Hreg. }
    assert (Hb : body s2
                 = bind CreateConnectInstance (fun p => loop waits ce we evs p)
                     s3).
    { subst body. unfold bind at 1. rewrite Ecall. reflexivity. }
    rewrite Hb. clear Hb body.
    destruct (accepting_traced name hev ce we evs nc io waits IH s3)
      as (da & Ht4 & HA).
    { eapply configured_same; [exact Hc2|exact Ha3]. }
    destruct Hc2 as (_ & _ & Hnc & _). rewrite Hnc in Ht3.
    eexists. split.
    - rewrite Ht4, Ht3, Ht2, <- !app_assoc. simpl. reflexivity.
    - apply looped_of_accepting. exact HA. }
  destruct (w =? WAIT_OBJECT_0) eqn:E0.
  { apply Z.eqb_eq in E0. destruct pedding.
    - rewrite bind_bind, bind_get, bind_bind, bind_get, bind_bind, bind_sys.
      pose proof (sysGetOverlappedResult_state (next_pipe_ (acc s1))
                    (connect_overlap_ (acc s1)) s1) as (_ & Ha2 & _ & Ht2).
      simpl in Ha2, Ht2.
      destruct Hc1 as (_ & Hh & _). rewrite Hh in Ht2.
      destruct (sysGetOverlappedResult (next_pipe_ (acc s1))
                  (connect_overlap_ (acc s1)) s1) as [[|] s2]; simpl in *.
      + rewrite bind_ret, bind_get, Ha2, Ha.
        apply (Hacc s2 [GetOverlappedResultA (next_pipe_ (acc s)) hev true]).
        * congruence.
        * rewrite Ht2, Ht, <- app_assoc, Ha. reflexivity.
        * reflexivity.
        * exact E0.
      + subst w. eexists. split.
        * rewrite Ht2, Ht, Ha, <- !app_assoc. simpl. reflexivity.
        * apply looped_connect_failed.
    - rewrite bind_ret, bind_get, Ha.
      apply (Hacc s1 []); auto. }
  clear Hacc. apply Z.eqb_neq in E0.
  destruct (w =? WAIT_OBJECT_0 + 1) eqn:E1.
  { apply Z.eqb_eq in E1. subst w.
    pose proof (call_async_io_state s1) as (Ha2 & _ & Ht2).
    simpl in Ha2, Ht2. unfold bind.
    destruct (call_async_io s1) as [[v|e] s2]; simpl in Ha2, Ht2.
    2:{ destruct Ht2 as [Hreg Ht2].
        destruct Hc1 as (_ & _ & _ & Hio). rewrite Hio in Hreg.
        eexists. split.
        - simpl. rewrite Ht2, Ht, <- !app_assoc. simpl. reflexivity.
        - apply looped_deferred_thrown. exact Hreg. }
    destruct (IH pedding s2) as (d & Ht3 & Hl).
    { eapply configured_same; [exact Hc1|exact Ha2]. }
    destruct Hc1 as (_ & _ & _ & Hio). rewrite Hio in Ht2.
    eexists. split.
    - rewrite Ht3, Ht2, Ht, <- !app_assoc. simpl. reflexivity.
    - apply looped_deferred. rewrite Ha2, Ha in Hl. exact Hl. }
  apply Z.eqb_neq in E1.
  destruct (w =? WAIT_OBJECT_0 + 2) eqn:E2.
  { apply Z.eqb_eq in E2. subst w. eexists. split; [exact Ht|].
    apply looped_stopped. }
  apply Z.eqb_neq in E2.
  destruct (w =? WAIT_IO_COMPLETION) eqn:E3.
  { apply Z.eqb_eq in E3. subst w.
    destruct (IH pedding s1 Hc1) as (d & Ht3 & Hl).
    eexists. split.
    - rewrite Ht3, Ht, <- !app_assoc. simpl. reflexivity.
    - apply looped_alerted. rewrite Ha in Hl. exact Hl. }
  apply Z.eqb_neq in E3.
  eexists. split.
  - simpl. rewrite Ht, <- !app_assoc. simpl. reflexivity.
  - apply looped_unexpected; assumption.
Qed.

Lemma guarded_traced ce we (body : M U LoopExit) s
    (G : DWORD -> Res LoopExit -> list Action -> Prop) :
  traced body s G ->
  let m := scoped (MakeGuard (sysCloseHandle ce))
             (scoped (MakeGuard (sysCloseHandle we)) body) in
  exists d, trace (snd (m s)) = trace s ++ d ++ unwound (fst (m s)) ce we
            /\ G (last_error (ker (snd (m s)))) (fst (m s)) d.
Proof.
  intros (d & Ht & HG) m. exists d. subst m. unfold scoped.
  destruct (body s) as [[[|c w p]|e] s1]; simpl in *;
    rewrite ?Ht, <- ?app_assoc, ?app_nil_r; auto.
Qed.

Lemma sysCreateEvent_state m i s :
  let c := sysCreateEvent m i s in
  acc (snd c) = acc s /\ trace (snd c) = trace s ++ [CreateEventA m i (fst c)].
Proof.
  unfold sysCreateEvent, Win32.CreateEvent.
  destruct (on_CreateEvent _ _); simpl; auto.
Qed.

(** Every run of the try block is one of the ways through it. *)
Lemma try_segment_trace en waits s :
  0 < next s ->
  exists d,
    trace (snd (try_segment en waits s)) = trace s ++ d
    /\ try_trace en (pipe_name_ (acc s)) (hEvent (connect_overlap_ (acc s)))
         (close_event_ (acc s))
         (registered (new_connection_callback_ (acc s)))
         (registered (async_io_callback_ (acc s)))
         (last_error (ker (snd (try_segment en waits s))))
         (next_pipe_ (acc s)) (fst (try_segment en waits s)) d.
Proof.
  intros Hpos. destruct en as [|c w p]; simpl.
  2:{ destruct (guarded_traced c w
                  (bind (get close_event_)
                     (fun close_event =>
                        loop waits c w [c; w; close_event] p)) s
                  (fun le =>
                     looped (pipe_name_ (acc s))
                       (hEvent (connect_overlap_ (acc s)))
                       c w [c; w; close_event_ (acc s)]
                       (registered (new_connection_callback_ (acc s)))
                       (registered (async_io_callback_ (acc s)))
                       le (next_pipe_ (acc s)) p)) as (d & Ht & HG).
      { unfold traced. rewrite bind_get. apply loop_looped.
        repeat split; reflexivity. }
      exists (d ++ unwound (fst (try_block_resumed c w p waits s)) c w).
      split; [exact Ht|]. exists d. split; [reflexivity|exact HG]. }
  unfold try_block. rewrite bind_sys.
  destruct (Moved_CreateEvent true true s Hpos) as [_ H1].
  pose proof (sysCreateEvent_state true true s) as (Ha1 & Ht1).
  simpl in H1, Ha1, Ht1.
  set (ce := fst (sysCreateEvent true true s)) in *.
  set (s1 := snd (sysCreateEvent true true s)) in *.
  destruct (ce =? NULL) eqn:Ece.
  { apply Z.eqb_eq in Ece. rewrite Ece in *. simpl.
    eexists. split; [rewrite Ht1, <- app_assoc; reflexivity|].
    apply tried_no_conn_event. }
  apply Z.eqb_neq in Ece. destruct H1 as [H1|[H1 N1]]; [contradiction|].
  assert (Hpos1 : 0 < next s1) by lia.
  rewrite scoped_unfold, bind_sys.
  destruct (Moved_CreateEvent false false s1 Hpos1) as [_ H2].
  pose proof (sysCreateEvent_state false false s1) as (Ha2 & Ht2).
  simpl in H2, Ha2, Ht2.
  set (we := fst (sysCreateEvent false false s1)) in *.
  set (s2 := snd (sysCreateEvent false false s1)) in *.
  destruct (we =? NULL) eqn:Ewe.
  { apply Z.eqb_eq in Ewe. rewrite Ewe in *. simpl.
    eexists. split; [rewrite Ht2, Ht1, <- !app_assoc; reflexivity|].
    apply tried_no_write_event. exact Ece. }
  apply Z.eqb_neq in Ewe.
  set (s3 := set_acc (set_connect_overlap_
                        (set_hEvent ce (connect_overlap_ (acc s2))) (acc s2)) s2).
  assert (Hacc3 : acc s3 = set_connect_overlap_
                             (set_hEvent ce (connect_overlap_ (acc s))) (acc s)).
  { subst s3. simpl. rewrite Ha2, Ha1. reflexivity. }
  pose (body := @bind U _ _ CreateConnectInstance
                  (fun pedding => loop waits ce we
                                    [ce; we; close_event_ (acc s)] pedding)).
  destruct (guarded_traced ce we body s3
              (accepting (pipe_name_ (acc s)) ce ce we
                 [ce; we; close_event_ (acc s)]
                 (registered (new_connection_callback_ (acc s)))
                 (registered (async_io_callback_ (acc s)))))
    as (d & Ht & HG).
  { apply accepting_traced; [intros pd s4; apply loop_looped|].
    unfold configured. rewrite Hacc3. destruct (acc s); auto. }
  assert (Heq : scoped (MakeGuard (sysCloseHandle we))
                  (bind (get close_event_)
                     (fun close_event =>
                        bind (modify
                                (fun a =>
                                   set_connect_overlap_
                                     (set_hEvent ce (connect_overlap_ a)) a))
                          (fun _ =>
                             bind CreateConnectInstance
                               (fun pedding =>
                                  loop waits ce we
                                    [ce; we; close_event] pedding)))) s2
                = scoped (MakeGuard (sysCloseHandle we)) body s3).
  { rewrite !scoped_unfold, bind_get, bind_modify.
    assert (Hclose : close_event_ (acc s2) = close_event_ (acc s))
      by (rewrite Ha2, Ha1; reflexivity).
    rewrite Hclose. reflexivity. }
  rewrite Heq. clear Heq.
  set (run := scoped (MakeGuard (sysCloseHandle ce))
                (scoped (MakeGuard (sysCloseHandle we)) body) s3) in *.
  exists (CreateEventA true true ce :: CreateEventA false false we
            :: d ++ unwound (fst run) ce we).
  split.
  - transitivity (trace (snd run)); [reflexivity|].
    rewrite Ht. subst s3. simpl. rewrite Ht2, Ht1, <- !app_assoc. reflexivity.
  - exact (tried_accepting _ _ _ _ _ ce we (fst run) d Ece Ewe HG).
Qed.

(** A run of the thread function: the way through its try block, the
    delivery of the exception, the thread it leaves. *)
Lemma thread_function_trace en waits s :
  0 < next s ->
  exists r s1 d,
    try_segment en waits s = (r, s1)
    /\ Moved s s1 d
    /\ try_trace en (pipe_name_ (acc s)) (hEvent (connect_overlap_ (acc s)))
         (close_event_ (acc s))
         (registered (new_connection_callback_ (acc s)))
         (registered (async_io_callback_ (acc s)))
         (last_error (ker (snd (thread_function en waits s))))
         (next_pipe_ (acc s)) r d
    /\ fst (thread_function en waits s) = thread_of r
    /\ acc (snd (thread_function en waits s)) = acc s1
    /\ trace (snd (thread_function en waits s))
       = trace s ++ d ++ reported r (exception_callback_ (acc s)).
Proof.
  intros Hpos.
  destruct (thread_function_cases en waits s Hpos)
    as (r & s1 & d & E & HM & _ & Hcb & HL).
  destruct (try_segment_trace en waits s Hpos) as (d' & Ht' & HG).
  rewrite E in Ht', HG. simpl in Ht', HG.
  pose proof (mv_trace _ _ _ HM) as Ht. rewrite Ht in Ht'.
  apply app_inv_head in Ht'. subst d'.
  exists r, s1, d. rewrite HL.
  split; [exact E|]. split; [exact HM|]. split.
  { destruct r as [[|c w p]|e]; try exact HG.
    simpl. rewrite call_exception_state.
    destruct (exception_callback_ (acc s1)); exact HG. }
  destruct r as [[|c w p]|e]; simpl; rewrite ?app_nil_r; auto.
  rewrite call_exception_state, Hcb.
  destruct (exception_callback_ (acc s)); simpl;
    rewrite ?Ht, ?app_nil_r, <- ?app_assoc; auto.
Qed.

End Runs.

(** ** What the runs of the loop have in common *)

Lemma awaiting_app aw t1 t2 :
  awaiting aw (t1 ++ t2) = awaiting (awaiting aw t1) t2.
Proof. revert aw. induction t1 as [|a t1 IH]; intros aw; simpl; auto. Qed.

Lemma in_turn_app aw t1 t2 :
  in_turn aw (t1 ++ t2) <-> in_turn aw t1 /\ in_turn (awaiting aw t1) t2.
Proof.
  revert aw. induction t1 as [|a t1 IH]; intros aw; simpl; [tauto|].
  rewrite IH. tauto.
Qed.

Lemma explained_app le t1 t2 :
  (forall prev, explained le prev t2) ->
  forall prev, explained le prev t1 -> explained le prev (t1 ++ t2).
Proof.
  intros H2. induction t1 as [|a t1 IH]; intros prev; simpl; [auto|].
  intros [Ha Ht]. split; [exact Ha|]. apply IH. exact Ht.
Qed.

Lemma explained_any le t1 t2 :
  (forall prev, explained le prev t1) -> (forall prev, explained le prev t2) ->
  forall prev, explained le prev (t1 ++ t2).
Proof. intros H1 H2 prev. apply explained_app; auto. Qed.

Lemma explained_split le prev t1 a e t2 :
  explained le prev (t1 ++ a :: ThrowA e :: t2) -> accounts le a e.
Proof.
  revert prev. induction t1 as [|b t1 IH]; intros prev; simpl.
  - intros (_ & (b & H1 & H2) & _). inversion H1; subst. exact H2.
  - intros [_ H]. eapply IH. exact H.
Qed.

Lemma last_pipe_quiet h t :
  tally is_create_pipe t = O -> last_pipe h t = h.
Proof.
  induction t as [|a t IH]; simpl; [reflexivity|].
  destruct a; simpl; try discriminate; exact IH.
Qed.

Lemma rearmed_reads {le} name hev h r dr :
  rearmed name hev le h r dr ->
  (forall aw, in_turn aw dr)
  /\ (forall aw, awaiting aw dr
                 = if h =? INVALID_HANDLE_VALUE then None else Some h)
  /\ (forall p, last_pipe p dr = h)
  /\ (forall x, r = Val x -> h <> INVALID_HANDLE_VALUE)
  /\ Forall (named (c_str name)) dr
  /\ (forall prev, explained le prev dr)
  /\ tally is_create_pipe dr = 1%nat
  /\ tally is_new_connection dr = O
  /\ tally is_connect_wake dr = O
  /\ omap closed dr = [] /\ omap created_event dr = [].
Proof.
  intros H. destruct H; simpl; split_and!; try reflexivity; intros;
    try discriminate; try assumption; simpl; auto;
    try solve [repeat constructor];
    split_and!; auto; eexists; split; reflexivity.
Qed.

Lemma looped_in_turn {le} name hev ce we evs nc io pipe pedding r d :
  looped name hev ce we evs nc io le pipe pedding r d ->
  in_turn (Some pipe) d
  /\ (forall x, r = Val x -> awaiting (Some pipe) d = Some (last_pipe pipe d)).
Proof.
  assert (Hhead : forall pipe pedding t,
            in_turn (Some pipe)
              (WaitA evs WAIT_OBJECT_0
                 :: fetched pipe hev pedding ++ delivery nc pipe we ++ t)
            <-> in_turn (if nc then None else Some pipe) t).
  { intros p pd t. destruct pd, nc; simpl; tauto. }
  assert (Hhead2 : forall pipe pedding t,
            awaiting (Some pipe)
              (WaitA evs WAIT_OBJECT_0
                 :: fetched pipe hev pedding ++ delivery nc pipe we ++ t)
            = awaiting (if nc then None else Some pipe) t).
  { intros p pd t. destruct pd, nc; reflexivity. }
  assert (Hhead3 : forall pipe pedding t,
            last_pipe pipe
              (WaitA evs WAIT_OBJECT_0
                 :: fetched pipe hev pedding ++ delivery nc pipe we ++ t)
            = last_pipe pipe t).
  { intros p pd t. destruct pd, nc; reflexivity. }
  induction 1 as [pipe pd|pipe pd h pd' dr r d Hr Hl [IH1 IH2]
                 |pipe pd h e dr Hr|pipe|pipe pd e Hnc
                 |pipe pd r d Hl [IH1 IH2]|pipe pd e Hio
                 |pipe pd|pipe pd r d Hl [IH1 IH2]|pipe pd w].
  - split; [exact I|reflexivity].
  - destruct (rearmed_reads _ _ _ _ _ Hr) as (R1 & R2 & R3 & R4 & _).
    pose proof (R4 _ eq_refl) as Hh. apply Z.eqb_neq in Hh.
    split.
    + apply Hhead, in_turn_app. split; [apply R1|]. rewrite R2, Hh. exact IH1.
    + intros x Hx. rewrite Hhead2, Hhead3, awaiting_app, last_pipe_app.
      rewrite R2, R3, Hh. eapply IH2. exact Hx.
  - destruct (rearmed_reads _ _ _ _ _ Hr) as (R1 & _).
    split; [apply Hhead, R1|discriminate].
  - split; [simpl; tauto|discriminate].
  - split; [destruct pd; simpl; tauto|discriminate].
  - split.
    + destruct io; simpl; tauto.
    + intros x Hx. destruct io; simpl; eapply IH2; exact Hx.
  - split; [simpl; tauto|discriminate].
  - split; [simpl; tauto|reflexivity].
  - split; [simpl; tauto|exact IH2].
  - split; [simpl; tauto|discriminate].
Qed.

Lemma Forall_named_mid name evs pipe hev pedding nc we t :
  Forall (named name) t ->
  Forall (named name)
    (WaitA evs WAIT_OBJECT_0
       :: fetched pipe hev pedding ++ delivery nc pipe we ++ t).
Proof. intros H. destruct pedding, nc; repeat constructor; exact H. Qed.

Lemma explained_mid le evs pipe hev pedding nc we t :
  (forall prev, explained le prev t) ->
  forall prev,
    explained le prev
      (WaitA evs WAIT_OBJECT_0
         :: fetched pipe hev pedding ++ delivery nc pipe we ++ t).
Proof. intros H prev. destruct pedding, nc; simpl; auto. Qed.

Lemma looped_named {le} name hev ce we evs nc io pipe pedding r d :
  looped name hev ce we evs nc io le pipe pedding r d ->
  Forall (named (c_str name)) d /\ (forall prev, explained le prev d)
  /\ omap closed d = [] /\ omap created_event d = [].
Proof.
  assert (Hmid : forall pipe pedding t,
            omap closed t = [] -> omap created_event t = [] ->
            omap closed (WaitA evs WAIT_OBJECT_0
                           :: fetched pipe hev pedding
                           ++ delivery nc pipe we ++ t) = []
            /\ omap created_event (WaitA evs WAIT_OBJECT_0
                                     :: fetched pipe hev pedding
                                     ++ delivery nc pipe we ++ t) = []).
  { intros p pd t H1 H2. destruct pd, nc; simpl; auto. }
  induction 1 as [pipe pd|pipe pd h pd' dr r d Hr Hl (I1 & I2 & I3 & I4)
                 |pipe pd h e dr Hr|pipe|pipe pd e Hnc
                 |pipe pd r d Hl (I1 & I2 & I3 & I4)|pipe pd e Hio
                 |pipe pd|pipe pd r d Hl (I1 & I2 & I3 & I4)|pipe pd w].
  - split_and!; [constructor|intros; exact I|reflexivity|reflexivity].
  - destruct (rearmed_reads _ _ _ _ _ Hr)
      as (_ & _ & _ & _ & R5 & R6 & _ & _ & _ & R7 & R8).
    split; [|split].
    + apply Forall_named_mid, Forall_app. auto.
    + apply explained_mid, explained_any; assumption.
    + apply Hmid; rewrite omap_app; [rewrite R7, I3|rewrite R8, I4]; reflexivity.
  - destruct (rearmed_reads _ _ _ _ _ Hr)
      as (_ & _ & _ & _ & R5 & R6 & _ & _ & _ & R7 & R8).
    split; [|split].
    + apply Forall_named_mid. exact R5.
    + apply explained_mid. exact R6.
    + apply Hmid; assumption.
  - split_and!; [repeat constructor| |reflexivity|reflexivity].
    intros prev. simpl. split_and!; auto. eexists. split; reflexivity.
  - split_and!; try (destruct pd; reflexivity).
    + destruct pd; repeat constructor.
    + intros prev. destruct pd; simpl; split_and!; auto;
        eexists; split; reflexivity.
  - split_and!.
    + destruct io; repeat constructor; exact I1.
    + intros prev. destruct io; simpl; auto.
    + destruct io; exact I3.
    + destruct io; exact I4.
  - split_and!; [repeat constructor| |reflexivity|reflexivity].
    intros prev. simpl. split_and!; auto. eexists. split; reflexivity.
  - split_and!; [repeat constructor|intros; simpl; auto|reflexivity|reflexivity].
  - split_and!; [repeat constructor; exact I1|intros; simpl; auto|exact I3|exact I4].
  - split_and!; [repeat constructor| |reflexivity|reflexivity].
    intros prev. simpl. split_and!; auto. eexists. split; reflexivity.
Qed.

Lemma tally_mid p evs pipe hev pedding nc we t :
  tally p (WaitA evs WAIT_OBJECT_0
             :: fetched pipe hev pedding ++ delivery nc pipe we ++ t)
  = (tally p [WaitA evs WAIT_OBJECT_0] + tally p (fetched pipe hev pedding)
     + tally p (delivery nc pipe we) + tally p t)%nat.
Proof.
  change (WaitA evs WAIT_OBJECT_0
            :: fetched pipe hev pedding ++ delivery nc pipe we ++ t)
    with ([WaitA evs WAIT_OBJECT_0]
            ++ fetched pipe hev pedding ++ delivery nc pipe we ++ t).
  rewrite !tally_app. lia.
Qed.

Lemma refusals_app b t1 t2 :
  match t2 with a :: _ => is_throw a = false | [] => True end ->
  refusals b (t1 ++ t2) = (refusals b t1 + refusals false t2)%nat.
Proof.
  intros H2. revert b. induction t1 as [|a t1 IH]; intros b; simpl.
  - destruct t2 as [|a t2]; simpl; [reflexivity|].
    rewrite H2, andb_false_r. reflexivity.
  - rewrite IH. lia.
Qed.


Lemma rearmed_no_refusal {le} name hev h r dr :
  rearmed name hev le h r dr ->
  forall t, match t with a :: _ => is_throw a = false | [] => True end ->
    refusals false (dr ++ t) = refusals false t
    /\ match dr ++ t with a :: _ => is_throw a = false | [] => True end.
Proof.
  intros H t Ht. split; [|destruct H; reflexivity].
  rewrite refusals_app by exact Ht.
  destruct H; reflexivity.
Qed.

Lemma looped_begins {le} name hev ce we evs nc io pipe pedding r d :
  looped name hev ce we evs nc io le pipe pedding r d ->
  match d with a :: _ => is_throw a = false | [] => True end.
Proof. intros []; simpl; auto. Qed.

Lemma refusals_mid evs pipe hev pedding nc we t :
  match t with a :: _ => is_throw a = false | [] => True end ->
  refusals false (WaitA evs WAIT_OBJECT_0
                    :: fetched pipe hev pedding ++ delivery nc pipe we ++ t)
  = refusals false t.
Proof.
  intros H. destruct pedding, nc, t as [|a t]; simpl;
    rewrite ?H, ?andb_false_r; reflexivity.
Qed.

(** With the callback registered the loop creates one pipe instance for
    each endpoint it hands over, but for the one whose callback threw. *)
Lemma looped_counts {le} name hev ce we evs io pipe pedding r d :
  looped name hev ce we evs true io le pipe pedding r d ->
  (tally is_create_pipe d + refusals false d = tally is_new_connection d)%nat.
Proof.
  induction 1 as [pipe pd|pipe pd h pd' dr r d Hr Hl IH
                 |pipe pd h e dr Hr|pipe|pipe pd e Hnc
                 |pipe pd r d Hl IH|pipe pd e Hio
                 |pipe pd|pipe pd r d Hl IH|pipe pd w];
    try reflexivity.
  - destruct (rearmed_reads _ _ _ _ _ Hr)
      as (_ & _ & _ & _ & _ & _ & R7 & R8 & _).
    destruct (rearmed_no_refusal _ _ _ _ _ Hr d (looped_begins _ _ _ _ _ _ _ _ _ _ _ Hl))
      as [F1 F2].
    rewrite refusals_mid, F1 by exact F2.
    rewrite !tally_mid, !tally_app, R7, R8. destruct pd; simpl; lia.
  - destruct (rearmed_reads _ _ _ _ _ Hr)
      as (_ & _ & _ & _ & _ & _ & R7 & R8 & _).
    destruct (rearmed_no_refusal _ _ _ _ _ Hr [] I) as [F1 F2].
    rewrite app_nil_r in F1, F2.
    rewrite refusals_mid, F1 by exact F2.
    rewrite !tally_mid, R7, R8. destruct pd; simpl; lia.
  - destruct pd; reflexivity.
  - destruct io; simpl; exact IH.
  - exact IH.
Qed.

Lemma unwound_reads r ce we :
  (forall aw, in_turn aw (unwound r ce we))
  /\ (forall aw, awaiting aw (unwound r ce we) = aw)
  /\ (forall p, last_pipe p (unwound r ce we) = p)
  /\ Forall (named "") (unwound r ce we)
  /\ (forall le prev, explained le prev (unwound r ce we))
  /\ (forall p, tally p (unwound r ce we)
                = tally p (map CloseHandleA
                             (match thread_of r with
                              | Exited => [we; ce]
                              | _ => []
                              end))).
Proof.
  destruct r as [[|c w p]|e]; simpl; split_and!; intros; simpl; auto;
    repeat constructor.
Qed.

Lemma tried_reads {le} name close nc io r d :
  tried name close nc io le r d ->
  (forall aw, in_turn aw d)
  /\ (forall aw p x, r = Val x -> awaiting aw d = Some (last_pipe p d))
  /\ Forall (named (c_str name)) d
  /\ (forall prev, explained le prev d).
Proof.
  intros [|ce Hce|ce we r' da Hce Hwe HA].
  - split_and!; try discriminate; intros; simpl; auto;
      try solve [repeat constructor]; split_and!; auto;
      eexists; split; reflexivity.
  - split_and!; try discriminate; intros; simpl; auto;
      try solve [repeat constructor]; split_and!; auto;
      eexists; split; reflexivity.
  - destruct (unwound_reads r' ce we) as (W1 & W2 & W3 & _ & W5 & _).
    assert (Hda : (forall aw, in_turn aw da)
                  /\ (forall aw p x, r' = Val x ->
                        awaiting aw da = Some (last_pipe p da))
                  /\ Forall (named (c_str name)) da
                  /\ (forall prev, explained le prev da)).
    { destruct HA as [h pd dr r'' d' Hr Hl|h e dr Hr].
      - destruct (rearmed_reads _ _ _ _ _ Hr)
          as (R1 & R2 & R3 & R4 & R5 & R6 & _).
        pose proof (R4 _ eq_refl) as Hh. apply Z.eqb_neq in Hh.
        destruct (looped_in_turn _ _ _ _ _ _ _ _ _ _ _ Hl) as [L1 L2].
        destruct (looped_named _ _ _ _ _ _ _ _ _ _ _ Hl) as (L3 & L4 & _).
        split_and!.
        + intros aw. apply in_turn_app. split; [apply R1|].
          rewrite R2, Hh. exact L1.
        + intros aw p x Hx. rewrite awaiting_app, last_pipe_app, R2, R3, Hh.
          eapply L2. exact Hx.
        + apply Forall_app. auto.
        + apply explained_any; assumption.
      - destruct (rearmed_reads _ _ _ _ _ Hr)
          as (R1 & R2 & R3 & R4 & R5 & R6 & _).
        split_and!; try assumption. discriminate. }
    destruct Hda as (D1 & D2 & D3 & D4).
    split_and!.
    + intros aw. simpl. split_and!; try exact I.
      apply in_turn_app. split; [apply D1|apply W1].
    + intros aw p x Hx. simpl.
      rewrite awaiting_app, last_pipe_app, W2, W3. eapply D2. exact Hx.
    + repeat constructor. apply Forall_app. split; [exact D3|].
      destruct r' as [[|c w p]|e]; repeat constructor.
    + intros prev. simpl. split_and!; try exact I.
      apply explained_any; [exact D4|apply W5].
Qed.

(** ** Properties kept over the lifetime of an acceptor *)

Section Kept.

Context {U : Type}.
Implicit Types (s : State U).

(** [K] is kept by what the owner logs on its own thread, by a run of the
    thread function that [Listen] starts, and by a run that [Stop] joins. *)
Variable K : State U -> Prop.

Hypothesis K_owner : forall s s' d,
  K s -> trace s' = trace s ++ d -> Forall owner_action d ->
  next_pipe_ (acc s') = next_pipe_ (acc s) ->
  pipe_name_ (acc s') = pipe_name_ (acc s) ->
  listen_thread_ (acc s') = listen_thread_ (acc s) -> K s'.

Hypothesis K_listen : forall waits s,
  0 < next s -> K s -> listen_thread_ (acc s) = None ->
  let run := thread_function FromStart waits s in
  K (set_acc (set_listen_thread_ (Some (fst run)) (acc (snd run))) (snd run)).

Hypothesis K_join : forall c w p waits s,
  0 < next s -> K s -> listen_thread_ (acc s) = Some (Waiting c w p) ->
  let run := thread_function (FromWait c w p) waits s in
  fst run = Exited ->
  K (set_acc (set_listen_thread_ None (acc (snd run))) (snd run)).

Hypothesis K_joined : forall s,
  K s -> listen_thread_ (acc s) = Some Exited ->
  K (set_acc (set_listen_thread_ None (acc s)) s).

Lemma K_Stop waits s s' :
  0 < next s -> K s -> Stop waits s = Finished s' -> K s'.
Proof.
  intros Hpos HK. unfold Stop.
  pose proof (ownerSetEvent_state (close_event_ (acc s)) s)
    as (Ha & _ & Ht & Hn & _).
  simpl in Ha, Ht, Hn.
  set (s1 := snd (ownerSetEvent (close_event_ (acc s)) s)) in *.
  set (ok := fst (ownerSetEvent (close_event_ (acc s)) s)) in *.
  set (s2 := snd (sysDisconnectNamedPipe (next_pipe_ (acc s1)) s1)).
  assert (Hacc2 : acc s2 = acc s) by exact Ha.
  assert (HK2 : K s2).
  { apply (K_owner s s2 [SetEventA (close_event_ (acc s)) ok;
                         DisconnectNamedPipeA (next_pipe_ (acc s1))]);
      rewrite ?Hacc2; auto.
    - subst s2. simpl. rewrite Ht, <- app_assoc. reflexivity.
    - repeat constructor. }
  assert (Hpos2 : 0 < next s2) by (subst s2; unfold next in *; simpl; lia).
  simpl. fold s2. rewrite Ha. clearbody s2. clear Ha Ht Hn. clearbody s1 ok.
  destruct (listen_thread_ (acc s)) as [[c w p|]|] eqn:Ethr.
  - rewrite <- Hacc2 in Ethr.
    pose proof (K_join c w p waits s2 Hpos2 HK2 Ethr) as HJ. simpl in HJ.
    change (resume (Waiting c w p) waits s2)
      with (thread_function (FromWait c w p) waits s2).
    destruct (thread_function (FromWait c w p) waits s2) as [[c' w' p'|] s3];
      [discriminate|].
    intros H. inversion H. apply HJ. reflexivity.
  - simpl. intros H. inversion H. apply K_joined; [exact HK2|].
    rewrite Hacc2. exact Ethr.
  - intros H. inversion H. subst s'. exact HK2.
Qed.

Lemma K_call c s s' : Inv s -> K s -> call c s = Finished s' -> K s'.
Proof.
  intros HI HK. pose proof (inv_next _ HI) as Hpos. destruct c; simpl.
  - intros H. inversion H.
    apply (K_owner s _ []); simpl; auto using app_nil_r.
  - intros H. inversion H.
    apply (K_owner s _ []); simpl; auto using app_nil_r.
  - intros H. inversion H.
    apply (K_owner s _ []); simpl; auto using app_nil_r.
  - unfold Listen. destruct (listen_thread_ (acc s)) eqn:Et; [discriminate|].
    set (s0 := set_ker (thread_started (ker s)) s).
    assert (HK0 : K s0).
    { apply (K_owner s s0 []); simpl; auto using app_nil_r. }
    pose proof (K_listen waits s0 Hpos HK0 Et) as HL. simpl in HL.
    change (LinstenInThread waits s0) with (thread_function FromStart waits s0).
    destruct (thread_function FromStart waits s0) as [t s1].
    intros H. inversion H. exact HL.
  - apply K_Stop; assumption.
Qed.

Lemma K_calls cs : forall s s', Inv s -> K s -> calls cs s = Finished s' -> K s'.
Proof.
  induction cs as [|c cs IH]; simpl; intros s s' HI HK H.
  - inversion H. subst. exact HK.
  - destruct (call c s) as [s1| |] eqn:E; try discriminate.
    eapply IH; [| |exact H].
    + eapply Inv_call; eassumption.
    + eapply K_call; eassumption.
Qed.

Lemma K_lifetime endpoint o (u : U) cs waits s :
  K (Acceptor_ctor endpoint o u) ->
  lifetime endpoint o u cs waits = Finished s -> K s.
Proof.
  intros HK. unfold lifetime.
  destruct (calls cs (Acceptor_ctor endpoint o u)) as [s1| |] eqn:E;
    try discriminate.
  pose proof (Inv_calls _ _ _ (Inv_ctor endpoint o u) E) as HI1.
  pose proof (K_calls _ _ _ (Inv_ctor endpoint o u) HK E) as HK1.
  unfold Acceptor_dtor.
  destruct (Stop waits s1) as [s2| |] eqn:E2; try discriminate.
  pose proof (K_Stop _ _ _ (inv_next _ HI1) HK1 E2) as HK2.
  intros H. inversion H.
  apply (K_owner s2 _ [CloseHandleA (next_pipe_ (acc s2));
                       CloseHandleA (close_event_ (acc s2))]); auto.
  - simpl. rewrite <- app_assoc. reflexivity.
  - repeat constructor.
Qed.

End Kept.

Lemma owner_reads d :
  Forall owner_action d ->
  (forall aw, in_turn aw d) /\ (forall aw, awaiting aw d = aw)
  /\ (forall name, Forall (named name) d).
Proof.
  induction 1 as [|a d Ha Hd (I1 & I2 & I3)].
  - split_and!; intros; simpl; auto.
  - destruct a; try destruct Ha; split_and!; intros; simpl; auto;
      constructor; simpl; auto.
Qed.

Lemma reported_reads {A B} (r : Res A) (cb : option B) :
  (forall aw, in_turn aw (reported r cb))
  /\ (forall aw, awaiting aw (reported r cb) = aw)
  /\ (forall name, Forall (named name) (reported r cb))
  /\ (forall x, r = Val x -> reported r cb = []).
Proof.
  destruct r as [x|e], cb as [c|]; simpl; split_and!; intros; simpl; auto;
    try discriminate; repeat constructor.
Qed.

Section Names.

Context {U : Type}.
Implicit Types (s : State U).




End Names.


(** ** The endpoints handed to the callback *)

Lemma awaiting_snoc aw t a : awaiting aw (t ++ [a]) = await (awaiting aw t) a.
Proof. rewrite awaiting_app. reflexivity. Qed.

(** The endpoint that waits was created, and nothing was created or handed
    over since. *)
Lemma awaiting_last t : forall aw p,
  awaiting aw t = Some p ->
  (aw = Some p /\ tally is_create_pipe t = O /\ tally is_new_connection t = O)
  \/ exists t' n t'',
       t = t' ++ CreateNamedPipeA n p :: t''
       /\ p <> INVALID_HANDLE_VALUE
       /\ tally is_create_pipe t'' = O /\ tally is_new_connection t'' = O.
Proof.
  induction t as [|a t IH] using rev_ind; intros aw p.
  { simpl. intros ->. left. auto. }
  rewrite awaiting_snoc.
  assert (Hkeep : await (awaiting aw t) a = awaiting aw t ->
            is_create_pipe a = false -> is_new_connection a = false ->
            awaiting aw t = Some p ->
            (aw = Some p /\ tally is_create_pipe (t ++ [a]) = O
             /\ tally is_new_connection (t ++ [a]) = O)
            \/ exists t' n t'',
                 t ++ [a] = t' ++ CreateNamedPipeA n p :: t''
                 /\ p <> INVALID_HANDLE_VALUE
                 /\ tally is_create_pipe t'' = O
                 /\ tally is_new_connection t'' = O).
  { intros _ Hc Hn H. destruct (IH aw p H) as [(H1 & H2 & H3)|(t' & n & t'' & -> & H2 & H3 & H4)].
    - left. rewrite !tally_app, H2, H3. simpl. rewrite Hc, Hn. auto.
    - right. exists t', n, (t'' ++ [a]). rewrite <- app_assoc. simpl.
      rewrite !tally_app, H3, H4. simpl. rewrite Hc, Hn. auto. }
  destruct a as [m i r|h|h b|n0 h0|q e b|q e b|q|hs r|q w| |e|e];
    try (intros H; apply Hkeep; [reflexivity..|exact H]).
  - (* CreateNamedPipeA *)
    simpl. destruct (h0 =? INVALID_HANDLE_VALUE) eqn:E; [discriminate|].
    intros H. inversion H. subst. apply Z.eqb_neq in E.
    right. exists t, n0, []. auto.
  - simpl. discriminate.
Qed.

Lemma tally_zero_not_in (p : Action -> bool) t a :
  tally p t = O -> p a = true -> a ∉ t.
Proof.
  intros Ht Ha Hin. apply list_elem_of_split in Hin as (t1 & t2 & ->).
  rewrite tally_app in Ht. simpl in Ht. rewrite Ha in Ht. lia.
Qed.

Lemma created_pipe_in_created (t : list Action) (h : HANDLE) :
  h ∈ omap created_pipe t -> h ∈ omap created t.
Proof.
  rewrite !list_elem_of_omap. intros (a & Ha & Hc). exists a. split; [exact Ha|].
  destruct a; try discriminate. exact Hc.
Qed.

(** In a trace whose handles are all different, an endpoint that is handed
    over in its turn was created before, is the last one created, and was
    not handed over before. *)
Lemma created_pipe_here n h (t : list Action) :
  h <> INVALID_HANDLE_VALUE -> h ∈ omap created_pipe (CreateNamedPipeA n h :: t).
Proof.
  intros Hh. apply list_elem_of_omap. exists (CreateNamedPipeA n h).
  split; [left|]. simpl. apply Z.eqb_neq in Hh. rewrite Hh. reflexivity.
Qed.

Lemma created_twice (A B : list Action) (h : HANDLE) :
  h ∈ omap created_pipe A -> h ∈ omap created_pipe B ->
  NoDup (omap created (A ++ B)) -> False.
Proof.
  intros HA HB Hnd. rewrite omap_app in Hnd.
  apply NoDup_app in Hnd as (_ & Hdis & _).
  apply (Hdis h); apply created_pipe_in_created; assumption.
Qed.

(** In a trace whose handles are all different, an endpoint that is handed
    over in its turn was created before, is the last one created, and was
    not handed over before. *)
Lemma in_turn_once t1 pipe we t2 :
  in_turn None (t1 ++ NewConnectionA pipe we :: t2) ->
  NoDup (omap created (t1 ++ NewConnectionA pipe we :: t2)) ->
  pipe ∈ omap created_pipe t1
  /\ last_pipe NULL t1 = pipe
  /\ forall w, NewConnectionA pipe w ∉ t1.
Proof.
  intros Hturn Hnd. apply in_turn_app in Hturn as [Ht1 [Haw _]].
  destruct (awaiting_last t1 None pipe Haw)
    as [(H & _)|(t' & n & t'' & -> & Hp & Hc & Hn)]; [discriminate|].
  split_and!.
  - rewrite omap_app. apply elem_of_app. right.
    apply created_pipe_here. exact Hp.
  - rewrite last_pipe_app. simpl. apply last_pipe_quiet. exact Hc.
  - intros w Hin. apply elem_of_app in Hin as [Hin|Hin].
    2:{ apply elem_of_cons in Hin as [Hin|Hin]; [discriminate|].
        exact (tally_zero_not_in is_new_connection t''
                 (NewConnectionA pipe w) Hn eq_refl Hin). }
    apply list_elem_of_split in Hin as (u1 & u2 & ->).
    apply in_turn_app in Ht1 as [Ht1 _].
    apply in_turn_app in Ht1 as [_ [Haw1 _]].
    destruct (awaiting_last u1 None pipe Haw1)
      as [(H & _)|(v' & n' & v'' & -> & _ & _ & _)]; [discriminate|].
    apply (created_twice
             ((v' ++ CreateNamedPipeA n' pipe :: v'')
                ++ NewConnectionA pipe w :: u2)
             (CreateNamedPipeA n pipe :: t'' ++ NewConnectionA pipe we :: t2)
             pipe).
    + rewrite !omap_app. apply elem_of_app. left. apply elem_of_app. right.
      apply created_pipe_here. exact Hp.
    + apply created_pipe_here. exact Hp.
    + rewrite <- !app_assoc in Hnd. rewrite <- !app_assoc. exact Hnd.
Qed.

Section Turns.

Context {U : Type}.
Implicit Types (s : State U).

Lemma turns_kept_owner s s' d :
  turns_kept s -> trace s' = trace s ++ d -> Forall owner_action d ->
  next_pipe_ (acc s') = next_pipe_ (acc s) ->
  pipe_name_ (acc s') = pipe_name_ (acc s) ->
  listen_thread_ (acc s') = listen_thread_ (acc s) -> turns_kept s'.
Proof.
  intros [H1 H2] Ht Hd Hp _ Hl.
  destruct (owner_reads d Hd) as (O1 & O2 & _). split.
  - rewrite Ht. apply in_turn_app. split; [exact H1|apply O1].
  - intros c w p E. rewrite Ht, awaiting_app, O2, Hp. rewrite Hl in E.
    eapply H2. exact E.
Qed.

Lemma turns_kept_listen waits s :
  0 < next s -> turns_kept s -> listen_thread_ (acc s) = None ->
  let run := thread_function FromStart waits s in
  turns_kept (set_acc (set_listen_thread_ (Some (fst run)) (acc (snd run)))
                (snd run)).
Proof.
  intros Hpos [H1 _] _ run.
  destruct (thread_function_trace FromStart waits s Hpos)
    as (r & s1 & d & E & HM & HG & Hfst & Hacc & Ht).
  fold run in Hfst, Hacc, Ht. simpl in HG.
  destruct (tried_reads _ _ _ _ _ _ HG) as (T1 & T2 & _).
  destruct (reported_reads r (exception_callback_ (acc s))) as (R1 & R2 & _).
  split; simpl.
  - rewrite Ht. apply in_turn_app. split; [exact H1|].
    apply in_turn_app. split; [apply T1|apply R1].
  - intros c w p Et. rewrite Hfst in Et.
    destruct r as [[|c' w' p']|e]; try discriminate.
    rewrite Ht, !awaiting_app, R2, Hacc, (mv_pipe _ _ _ HM).
    eapply T2. reflexivity.
Qed.

Lemma turns_kept_join c w p waits s :
  0 < next s -> turns_kept s -> listen_thread_ (acc s) = Some (Waiting c w p) ->
  let run := thread_function (FromWait c w p) waits s in
  fst run = Exited ->
  turns_kept (set_acc (set_listen_thread_ None (acc (snd run))) (snd run)).
Proof.
  intros Hpos [H1 H2] Et run _.
  destruct (thread_function_trace (FromWait c w p) waits s Hpos)
    as (r & s1 & d & E & HM & HG & Hfst & Hacc & Ht).
  fold run in Hfst, Hacc, Ht. simpl in HG. destruct HG as (dl & -> & HL).
  destruct (looped_in_turn _ _ _ _ _ _ _ _ _ _ _ HL) as [L1 _].
  destruct (unwound_reads r c w) as (W1 & _).
  destruct (reported_reads r (exception_callback_ (acc s))) as (R1 & _).
  split; simpl; [|discriminate].
  rewrite Ht. apply in_turn_app. split; [exact H1|].
  rewrite (H2 _ _ _ Et).
  apply in_turn_app. split; [|apply R1].
  apply in_turn_app. split; [exact L1|apply W1].
Qed.

Lemma turns_kept_lifetime endpoint o (u : U) cs waits s :
  lifetime endpoint o u cs waits = Finished s -> turns_kept s.
Proof.
  apply (K_lifetime turns_kept).
  - apply turns_kept_owner.
  - apply turns_kept_listen.
  - apply turns_kept_join.
  - intros s0 [K1 _] _. split; [exact K1|discriminate].
  - unfold Acceptor_ctor, ownerCreateEvent, on_other_thread, Win32.CreateEvent. simpl.
    destruct (on_CreateEvent o 0%nat); split; simpl; auto; discriminate.
Qed.

(** (X2) Over the lifetime of an acceptor, every endpoint handed to the
    new-connection callback is a pipe instance that was created with
    success before, it is the one created last, and it has not been handed
    to the callback before: no endpoint is delivered twice, and none that
    the acceptor did not create. *)
Theorem endpoints_are_delivered_once endpoint o (u : U) cs waits s
    t1 pipe we t2 :
  lifetime endpoint o u cs waits = Finished s ->
  trace s = t1 ++ NewConnectionA pipe we :: t2 ->
  pipe ∈ omap created_pipe t1
  /\ last_pipe NULL t1 = pipe
  /\ (forall w, NewConnectionA pipe w ∉ t1)
  /\ pipe <> NULL /\ pipe <> INVALID_HANDLE_VALUE.
Proof.
  intros H Ht.
  pose proof (turns_kept_lifetime _ _ _ _ _ _ H) as [Hturn _].
  assert (Hnd : NoDup (omap created (trace s))
                /\ forall h, h ∈ omap created (trace s) -> 0 < h).
  { unfold lifetime in H.
    destruct (calls cs (Acceptor_ctor endpoint o u)) as [s1| |] eqn:E;
      try discriminate.
    pose proof (Inv_calls cs _ _ (Inv_ctor endpoint o u) E) as HI.
    destruct (dtor_ledger waits s1 s HI H) as (Hnd & Hpos & _). auto. }
  destruct Hnd as [Hnd Hpos]. rewrite Ht in Hturn, Hnd, Hpos.
  destruct (in_turn_once _ _ _ _ Hturn Hnd) as (I1 & I2 & I3).
  split_and!; try assumption.
  - assert (Hp : 0 < pipe).
    { apply Hpos. rewrite omap_app. apply elem_of_app. left.
      apply created_pipe_in_created. exact I1. }
    unfold NULL. lia.
  - apply list_elem_of_omap in I1 as (a & _ & Ha).
    destruct a; try discriminate. simpl in Ha.
    destruct (_ =? INVALID_HANDLE_VALUE) eqn:E; [discriminate|].
    apply Z.eqb_neq in E. congruence.
Qed.

End Turns.

Lemma endpoints_are_delivered_once_witness :
  lifetime "svc-a" calm []
    [CallSetNewConnectionCallback (Some note_connection);
     CallSetExceptionCallback (Some note_exception);
     CallListen [WAIT_OBJECT_0]]
    [WAIT_OBJECT_0 + 2]
  = Finished one_client_end
  /\ trace one_client_end
     = [CreateEventA false false 1; CreateEventA true true 2;
        CreateEventA false false 3; CreateNamedPipeA "\\.\pipe\svc-a" 4;
        ConnectNamedPipeA 4 2 false; WaitA [2; 3; 1] 0;
        GetOverlappedResultA 4 2 true]
       ++ NewConnectionA 4 3
       :: [CreateNamedPipeA "\\.\pipe\svc-a" 5; ConnectNamedPipeA 5 2 false;
           SetEventA 1 true; DisconnectNamedPipeA 5;
           WaitA [2; 3; 1] 2; CloseHandleA 3; CloseHandleA 2;
           CloseHandleA 5; CloseHandleA 1]
  /\ 4 <> NULL.
Proof.
  assert (E : lifetime "svc-a" calm []
                [CallSetNewConnectionCallback (Some note_connection);
                 CallSetExceptionCallback (Some note_exception);
                 CallListen [WAIT_OBJECT_0]]
                [WAIT_OBJECT_0 + 2]
              = Finished one_client_end) by (vm_compute; reflexivity).
  assert (Ht : trace one_client_end
     = [CreateEventA false false 1; CreateEventA true true 2;
        CreateEventA false false 3; CreateNamedPipeA "\\.\pipe\svc-a" 4;
        ConnectNamedPipeA 4 2 false; WaitA [2; 3; 1] 0;
        GetOverlappedResultA 4 2 true]
       ++ NewConnectionA 4 3
       :: [CreateNamedPipeA "\\.\pipe\svc-a" 5; ConnectNamedPipeA 5 2 false;
           SetEventA 1 true; DisconnectNamedPipeA 5;
           WaitA [2; 3; 1] 2; CloseHandleA 3; CloseHandleA 2;
           CloseHandleA 5; CloseHandleA 1]) by (vm_compute; reflexivity).
  split; [exact E|]. split; [exact Ht|].
  exact (proj1 (proj2 (proj2 (proj2
           (endpoints_are_delivered_once _ _ _ _ _ _ _ _ _ _ E Ht))))).
Defined.

(** ** What a run of the thread function reports and releases *)

Lemma explained_throw le l1 : forall prev e l2,
  explained le prev (l1 ++ ThrowA e :: l2) ->
  exists b,
    match last l1 with Some a => Some a | None => prev end = Some b
    /\ accounts le b e.
Proof.
  induction l1 as [|b l1 IH]; intros prev e l2; simpl.
  - intros ((b & H1 & H2) & _). eauto.
  - intros [_ H]. destruct (IH _ _ _ H) as (b' & H1 & H2).
    exists b'. split; [|exact H2].
    destruct l1 as [|c l1]; [exact H1|]. simpl in *.
    destruct (last (c :: l1)) eqn:El; [exact H1|].
    apply last_None in El. discriminate.
Qed.

Section Reports.

Context {U : Type}.
Implicit Types (s : State U).

Lemma thread_function_since en waits s :
  0 < next s ->
  exists r d,
    try_trace en (pipe_name_ (acc s)) (hEvent (connect_overlap_ (acc s)))
      (close_event_ (acc s))
      (registered (new_connection_callback_ (acc s)))
      (registered (async_io_callback_ (acc s)))
      (last_error (ker (snd (thread_function en waits s))))
      (next_pipe_ (acc s)) r d
    /\ fst (thread_function en waits s) = thread_of r
    /\ since s (snd (thread_function en waits s))
       = d ++ reported r (exception_callback_ (acc s)).
Proof.
  intros Hpos.
  destruct (thread_function_trace en waits s Hpos)
    as (r & s1 & d & _ & _ & HG & Hfst & _ & Ht).
  exists r, d. split; [exact HG|]. split; [exact Hfst|].
  apply since_app. exact Ht.
Qed.

(** (X3) Every exception that is in flight in a run of the thread function
    follows at once the action that raised it.  That action is a callback,
    which threw it, or a call into the kernel that the code found failed:
    then the exception is the acceptor's own error, and its message is the
    text the code has for that call followed by the last-error code of the
    loop thread, in decimal, which is still the one the thread has when the
    run is over.  The failures of [GetOverlappedResult] and of [SetEvent]
    are reported with the text of [ConnectNamedPipe]. *)
Theorem thrown_text_names_the_failed_call en waits s e :
  0 < next s ->
  let s' := snd (thread_function en waits s) in
  ThrowA e ∈ since s s' ->
  exists t1 a t2,
    since s s' = t1 ++ a :: ThrowA e :: t2
    /\ match blames a with
       | Some text => e = failure text (last_error (ker s'))
       | None => is_callback a = true
       end.
Proof.
  intros Hpos s' Hin. subst s'.
  destruct (thread_function_since en waits s Hpos) as (r & d & HG & _ & Hs).
  set (le := last_error (ker (snd (thread_function en waits s)))) in *.
  assert (Hex : explained le None
                  (d ++ reported r (exception_callback_ (acc s)))).
  { apply explained_any.
    - destruct en as [|c w p]; simpl in HG.
      + apply (tried_reads _ _ _ _ _ _ HG).
      + destruct HG as (dl & -> & HL). apply explained_any.
        * apply (looped_named _ _ _ _ _ _ _ _ _ _ _ HL).
        * apply unwound_reads.
    - intros prev. destruct r as [x|e'], (exception_callback_ (acc s));
        simpl; auto. }
  rewrite <- Hs in Hex.
  apply list_elem_of_split in Hin as (l1 & l2 & Hd). rewrite Hd in Hex.
  destruct (explained_throw _ _ _ _ _ Hex) as (b & H1 & H2).
  destruct (last l1) as [a|] eqn:El; [|discriminate].
  inversion H1; subst b.
  apply last_Some in El as (l1' & ->).
  exists l1', a, l2. split; [|exact H2].
  rewrite Hd, <- app_assoc. reflexivity.
Qed.

End Reports.

Lemma thrown_text_names_the_failed_call_witness :
  let s' := snd (thread_function FromStart [WAIT_OBJECT_0 + 1; WAIT_FAILED]
                   (served calm)) in
  exists t1 a t2,
    since (served calm) s'
    = t1 ++ a :: ThrowA (failure "Unexpected error GLE = " 6) :: t2
    /\ match blames a with
       | Some text =>
           failure "Unexpected error GLE = " 6
           = failure text (last_error (ker s'))
       | None => is_callback a = true
       end.
Proof.
  assert (Hin : ThrowA (failure "Unexpected error GLE = " 6)
                  ∈ since (served calm)
                      (snd (thread_function FromStart
                              [WAIT_OBJECT_0 + 1; WAIT_FAILED] (served calm)))).
  { apply list_elem_of_In. vm_compute. tauto. }
  exact (thrown_text_names_the_failed_call FromStart
           [WAIT_OBJECT_0 + 1; WAIT_FAILED] (served calm)
           (failure "Unexpected error GLE = " 6) eq_refl Hin).
Defined.

Lemma tally_reported {A B} (p : Action -> bool) (r : Res A) (cb : option B) :
  (forall eptr, p (ExceptionA eptr) = false) -> tally p (reported r cb) = O.
Proof. intros H. destruct r as [x|e], cb as [c|]; simpl; rewrite ?H; auto. Qed.

Lemma tally_unwound (p : Action -> bool) r ce we :
  (forall h, p (CloseHandleA h) = false) -> tally p (unwound r ce we) = O.
Proof. intros H. destruct r as [[|c w q]|e]; simpl; rewrite ?H; auto. Qed.

Lemma omap_unwound r ce we :
  omap created_event (unwound r ce we) = []
  /\ omap closed (unwound r ce we)
     = match thread_of r with Exited => [we; ce] | _ => [] end
  /\ unwound r ce we
     = map CloseHandleA (match thread_of r with Exited => [we; ce] | _ => [] end).
Proof. destruct r as [[|c w q]|e]; auto. Qed.

Lemma omap_reported {A B} (r : Res A) (cb : option B) :
  omap created_event (reported r cb) = [] /\ omap closed (reported r cb) = [].
Proof. destruct r as [x|e], cb as [c|]; auto. Qed.

Lemma accepting_reads {le} name hev ce we evs nc io r da :
  accepting name hev ce we evs nc io le r da ->
  omap closed da = [] /\ omap created_event da = []
  /\ (nc = true ->
      (tally is_create_pipe da + refusals false da
       = S (tally is_new_connection da))%nat)
  /\ match da with a :: _ => is_throw a = false | [] => True end.
Proof.
  intros [h pd dr r' d Hr Hl|h e dr Hr];
    destruct (rearmed_reads _ _ _ _ _ Hr)
      as (_ & _ & _ & _ & _ & _ & R7 & R8 & _ & R10 & R11).
  - destruct (looped_named _ _ _ _ _ _ _ _ _ _ _ Hl) as (_ & _ & L3 & L4).
    destruct (rearmed_no_refusal _ _ _ _ _ Hr d
                (looped_begins _ _ _ _ _ _ _ _ _ _ _ Hl)) as [F1 F2].
    rewrite !omap_app, R10, R11, L3, L4. split_and!; try reflexivity;
      [|exact F2].
    intros ->. rewrite F1, !tally_app, R7, R8.
    pose proof (looped_counts _ _ _ _ _ _ _ _ _ _ Hl). lia.
  - destruct (rearmed_no_refusal _ _ _ _ _ Hr [] I) as [F1 F2].
    rewrite app_nil_r in F1, F2.
    split_and!; try assumption. intros _. rewrite F1, R7, R8. reflexivity.
Qed.

Section Counts.

Context {U : Type}.
Implicit Types (s : State U).


(** (X5) When a run of the thread function ends, by the stop signal or by a
    failure, it closes the loop events it holds, the one created last
    first, after everything else it did and before the exception callback is
    called; it closes nothing else, and nothing while the loop waits. *)
Theorem loop_events_are_closed_last_in_reverse en waits s :
  0 < next s ->
  let run := thread_function en waits s in
  let d := since s (snd run) in
  exists body (r : Res LoopExit),
    d = body
          ++ map CloseHandleA
               match fst run, en with
               | Waiting _ _ _, _ => []
               | Exited, FromStart => rev (omap created_event d)
               | Exited, FromWait c w _ => [w; c]
               end
          ++ reported r (exception_callback_ (acc s))
    /\ omap closed body = [].
Proof.
  intros Hpos run d. subst d run.
  destruct (thread_function_since en waits s Hpos) as (r & d0 & HG & Hfst & Hs).
  rewrite Hs, Hfst.
  rewrite omap_app, (proj1 (omap_reported _ _)), app_nil_r.
  set (le := last_error (ker (snd (thread_function en waits s)))) in HG.
  clearbody le.
  destruct en as [|c w p]; simpl in HG.
  - destruct HG as [|ce Hce|ce we r' da Hce Hwe HA].
    + exists [CreateEventA true true NULL;
              ThrowA (failure "CreateEvent (connect event) failed GLE = " le)],
        (Exc (failure "CreateEvent (connect event) failed GLE = " le)).
      split; reflexivity.
    + exists [CreateEventA true true ce; CreateEventA false false NULL;
              ThrowA (failure "CreateEvent (write event) failed GLE = " le)],
        (Exc (failure "CreateEvent (write event) failed GLE = " le)).
      split; [|reflexivity]. cbn [omap list_omap created_event thread_of].
      rewrite (proj2 (Z.eqb_neq ce NULL) Hce). reflexivity.
    + destruct (accepting_reads _ _ _ _ _ _ _ _ _ HA) as (A1 & A2 & _).
      destruct (omap_unwound r' ce we) as (W1 & _ & W3).
      exists (CreateEventA true true ce :: CreateEventA false false we :: da), r'.
      split.
      * simpl. rewrite omap_app, A2, W1.
        rewrite (proj2 (Z.eqb_neq ce NULL) Hce), (proj2 (Z.eqb_neq we NULL) Hwe).
        simpl. rewrite <- app_assoc. f_equal. f_equal. f_equal.
        rewrite W3. destruct (thread_of r'); reflexivity.
      * simpl. exact A1.
  - destruct HG as (dl & -> & HL).
    destruct (looped_named _ _ _ _ _ _ _ _ _ _ _ HL) as (_ & _ & L3 & _).
    destruct (omap_unwound r c w) as (_ & _ & W3).
    exists dl, r. split; [|exact L3].
    rewrite <- app_assoc. f_equal. f_equal.
    rewrite W3. destruct (thread_of r); reflexivity.
Qed.

End Counts.


Lemma loop_events_are_closed_last_in_reverse_witness :
  let run := thread_function FromStart [WAIT_OBJECT_0; WAIT_OBJECT_0 + 2]
               (served calm) in
  let d := since (served calm) (snd run) in
  exists body (r : Res LoopExit),
    d = body
          ++ map CloseHandleA
               match fst run with
               | Waiting _ _ _ => []
               | Exited => rev (omap created_event d)
               end
          ++ reported r (exception_callback_ (acc (served calm)))
    /\ omap closed body = [].
Proof.
  exact (loop_events_are_closed_last_in_reverse FromStart
           [WAIT_OBJECT_0; WAIT_OBJECT_0 + 2] (served calm) eq_refl).
Defined.

(** ** Single wake-ups *)

Section Wakes.

Context {U : Type}.
Implicit Types (s : State U).



Lemma resumed_exit c w p waits s r s1 :
  loop waits c w [c; w; close_event_ (acc s)] p s = (r, s1) ->
  thread_of r = Exited ->
  thread_function (FromWait c w p) waits s
  = (Exited,
     let s2 := snd (sysCloseHandle c (snd (sysCloseHandle w s1))) in
     match r with
     | Exc e => call_exception (Some e) s2
     | Val _ => s2
     end).
Proof.
  intros E Hr. unfold thread_function, run_thread, try_segment, try_block_resumed.
  rewrite !scoped_unfold, bind_get, E.
  destruct r as [[|c' w' p']|e]; try discriminate; reflexivity.
Qed.


Lemma sysWait_last_error evs x s :
  last_error (ker (snd (sysWaitForMultipleObjectsEx evs x s)))
  = if x =? WAIT_FAILED
    then on_WaitFailed (oracle (ker s)) (clock (ker s))
    else last_error (ker s).
Proof.
  unfold sysWaitForMultipleObjectsEx, Win32.WaitForMultipleObjectsEx.
  destruct (satisfied_by evs x), (x =? WAIT_FAILED); reflexivity.
Qed.

Lemma sysCloseHandle_state h s :
  let s' := snd (sysCloseHandle h s) in
  acc s' = acc s /\ user s' = user s /\ trace s' = trace s ++ [CloseHandleA h].
Proof. simpl. auto. Qed.

Lemma call_exception_trace eptr s :
  let s' := call_exception eptr s in
  acc s' = acc s
  /\ trace s' = trace s ++ match exception_callback_ (acc s) with
                           | Some _ => [ExceptionA eptr]
                           | None => []
                           end
  /\ user s' = match exception_callback_ (acc s) with
               | Some cb => cb eptr (user s)
               | None => user s
               end.
Proof.
  unfold call_exception. destruct (exception_callback_ (acc s)); simpl;
    auto using app_nil_r.
Qed.

(** How a run ends whose loop throws [e] from state [s1]. *)
Lemma resumed_thrown c w p waits s e s1 d :
  loop waits c w [c; w; close_event_ (acc s)] p s = (Exc e, s1) ->
  acc s1 = acc s -> user s1 = user s -> trace s1 = trace s ++ d ->
  let run := thread_function (FromWait c w p) waits s in
  fst run = Exited
  /\ trace (snd run)
     = trace s ++ d ++ [CloseHandleA w; CloseHandleA c]
         ++ reported (@Exc LoopExit e) (exception_callback_ (acc s))
  /\ acc (snd run) = acc s
  /\ user (snd run) = match exception_callback_ (acc s) with
                      | Some cb => cb (Some e) (user s)
                      | None => user s
                      end.
Proof.
  intros E Ha Hu Ht run. subst run.
  rewrite (resumed_exit _ _ _ _ _ _ _ E eq_refl). cbn [fst snd]. cbv zeta.
  set (s2 := snd (sysCloseHandle c (snd (sysCloseHandle w s1)))).
  assert (H2 : acc s2 = acc s /\ user s2 = user s
               /\ trace s2 = trace s ++ d ++ [CloseHandleA w; CloseHandleA c]).
  { subst s2. simpl. rewrite Ht, <- !app_assoc. auto. }
  destruct H2 as (Ha2 & Hu2 & Ht2). clearbody s2.
  destruct (call_exception_trace (Some e) s2) as (C1 & C2 & C3).
  rewrite C1, C2, C3, Ha2, Hu2, Ht2.
  split_and!; try reflexivity.
  unfold reported. rewrite <- !app_assoc. reflexivity.
Qed.

(** (X7) A value of the wait for which the loop has no case ends the loop: the
    thread function throws with the last-error code (the one the failed
    wait set, when the wait failed), closes its two events, reports the
    exception when a callback is registered, and waits no more, whatever
    wake-ups would follow; the current endpoint stays as it is. *)
Theorem unexpected_wake_is_fatal c w p x rest s :
  is_expected_wake x = false ->
  let code := if x =? WAIT_FAILED
              then on_WaitFailed (oracle (ker s)) (clock (ker s))
              else last_error (ker s) in
  let e := failure "Unexpected error GLE = " code in
  let run := thread_function (FromWait c w p) (x :: rest) s in
  fst run = Exited
  /\ trace (snd run)
     = trace s ++ [WaitA [c; w; close_event_ (acc s)] x; ThrowA e]
         ++ [CloseHandleA w; CloseHandleA c]
         ++ reported (@Exc LoopExit e) (exception_callback_ (acc s))
  /\ acc (snd run) = acc s
  /\ user (snd run) = match exception_callback_ (acc s) with
                      | Some cb => cb (Some e) (user s)
                      | None => user s
                      end.
Proof.
  intros Hx code e.
  unfold is_expected_wake in Hx.
  apply orb_false_elim in Hx as [Hx E3]. apply orb_false_elim in Hx as [Hx E2].
  apply orb_false_elim in Hx as [E0 E1].
  pose proof (sysWait_state [c; w; close_event_ (acc s)] x s)
    as (Ha & Hu & Ht & _).
  pose proof (sysWait_last_error [c; w; close_event_ (acc s)] x s) as Hle.
  simpl in Ha, Hu, Ht.
  set (s1 := snd (sysWaitForMultipleObjectsEx [c; w; close_event_ (acc s)] x s))
    in *.
  apply (resumed_thrown c w p (x :: rest) s e (log (ThrowA e) s1)).
  - simpl loop. rewrite bind_sys, sysWait_returns, E0, E1, E2, E3.
    fold s1. unfold fail_GLE, bind, sys, GetLastError, throw. simpl.
    rewrite Hle. reflexivity.
  - exact Ha.
  - exact Hu.
  - simpl. rewrite Ht, <- app_assoc. reflexivity.
Qed.

(** (X8) A pending connect whose result cannot be fetched is not delivered: the
    thread function throws with the code of the failure, under the text of
    [ConnectNamedPipe]; it calls no new-connection callback, creates no
    pipe instance, closes its two events and ends. *)
Theorem failed_connect_is_not_delivered c w rest s code :
  on_GetOverlappedResult (oracle (ker s)) (S (clock (ker s))) = Some code ->
  let e := failure "ConnectNamedPipe failed GLE = " code in
  let run := thread_function (FromWait c w true) (WAIT_OBJECT_0 :: rest) s in
  fst run = Exited
  /\ trace (snd run)
     = trace s
         ++ [WaitA [c; w; close_event_ (acc s)] WAIT_OBJECT_0;
             GetOverlappedResultA (next_pipe_ (acc s))
               (hEvent (connect_overlap_ (acc s))) false;
             ThrowA e]
         ++ [CloseHandleA w; CloseHandleA c]
         ++ reported (@Exc LoopExit e) (exception_callback_ (acc s))
  /\ acc (snd run) = acc s
  /\ user (snd run) = match exception_callback_ (acc s) with
                      | Some cb => cb (Some e) (user s)
                      | None => user s
                      end.
Proof.
  intros Hor e.
  pose proof (sysWait_state [c; w; close_event_ (acc s)] WAIT_OBJECT_0 s) as Hw.
  cbv zeta in Hw. destruct Hw as (Ha & Hu & Ht & _ & Ho & Hc).
  set (s1 := snd (sysWaitForMultipleObjectsEx
                    [c; w; close_event_ (acc s)] WAIT_OBJECT_0 s)) in *.
  set (s2 := snd (sysGetOverlappedResult (next_pipe_ (acc s1))
                    (connect_overlap_ (acc s1)) s1)).
  assert (H2 : fst (sysGetOverlappedResult (next_pipe_ (acc s1))
                      (connect_overlap_ (acc s1)) s1) = false
               /\ acc s2 = acc s /\ user s2 = user s
               /\ last_error (ker s2) = code
               /\ trace s2 = trace s1
                    ++ [GetOverlappedResultA (next_pipe_ (acc s))
                          (hEvent (connect_overlap_ (acc s))) false]).
  { subst s2. clearbody s1.
    unfold sysGetOverlappedResult, Win32.GetOverlappedResult.
    rewrite Ho, Hc, Hor. simpl. rewrite Ha, Hu. auto. }
  destruct H2 as (Hf & Ha2 & Hu2 & Hle & Ht2).
  apply (resumed_thrown c w true (WAIT_OBJECT_0 :: rest) s e (log (ThrowA e) s2)).
  - simpl loop. rewrite bind_sys, sysWait_returns. fold s1.
    change (WAIT_OBJECT_0 =? WAIT_OBJECT_0) with true. cbv iota.
    rewrite bind_bind, bind_get, bind_bind, bind_get, bind_bind, bind_sys.
    fold s2. rewrite Hf.
    unfold fail_GLE, bind, sys, GetLastError, throw. simpl.
    rewrite Hle. reflexivity.
  - exact Ha2.
  - exact Hu2.
  - simpl. rewrite Ht2, Ht, <- !app_assoc. reflexivity.
Qed.

(** (X9) A [Stop] whose signal wakes the loop returns: the loop leaves by the
    stop case, closes its two events and calls no callback, not even the
    exception callback; the thread is joined; the endpoint that waited for a
    client stays open in [next_pipe_]. *)
Theorem stop_wake_ends_the_loop c w p rest s :
  listen_thread_ (acc s) = Some (Waiting c w p) ->
  exists s' ok,
    Stop (WAIT_OBJECT_0 + 2 :: rest) s = Finished s'
    /\ trace s'
       = trace s ++ [SetEventA (close_event_ (acc s)) ok;
                     DisconnectNamedPipeA (next_pipe_ (acc s));
                     WaitA [c; w; close_event_ (acc s)] (WAIT_OBJECT_0 + 2);
                     CloseHandleA w; CloseHandleA c]
    /\ user s' = user s
    /\ acc s' = set_listen_thread_ None (acc s).
Proof.
  intros Et. unfold Stop.
  pose proof (ownerSetEvent_state (close_event_ (acc s)) s) as Hs.
  cbv zeta in Hs. destruct Hs as (Ha & Hu & Ht & _).
  set (s1 := snd (ownerSetEvent (close_event_ (acc s)) s)) in *.
  set (ok := fst (ownerSetEvent (close_event_ (acc s)) s)) in *.
  set (s2 := snd (sysDisconnectNamedPipe (next_pipe_ (acc s1)) s1)).
  assert (H2 : acc s2 = acc s /\ user s2 = user s
               /\ trace s2 = trace s ++ [SetEventA (close_event_ (acc s)) ok;
                                         DisconnectNamedPipeA (next_pipe_ (acc s))]).
  { subst s2. simpl. rewrite Ha, Hu, Ht, <- app_assoc. auto. }
  destruct H2 as (Ha2 & Hu2 & Ht2). cbv zeta. fold s1. fold s2. rewrite Ha2, Et.
  clearbody s2. clearbody s1 ok.
  change (resume (Waiting c w p) (WAIT_OBJECT_0 + 2 :: rest))
    with (thread_function (U:=U) (FromWait c w p) (WAIT_OBJECT_0 + 2 :: rest)).
  pose proof (sysWait_state [c; w; close_event_ (acc s2)] (WAIT_OBJECT_0 + 2) s2)
    as Hw.
  cbv zeta in Hw. destruct Hw as (Ha3 & Hu3 & Ht3 & _).
  set (s3 := snd (sysWaitForMultipleObjectsEx [c; w; close_event_ (acc s2)]
                    (WAIT_OBJECT_0 + 2) s2)) in *.
  rewrite (resumed_exit c w p _ s2 (Val Return) s3).
  - clearbody s3. cbv zeta. eexists _, ok. split; [reflexivity|].
    simpl. rewrite Ht3, Ht2, Ha3, Hu3, Ha2, Hu2, <- !app_assoc.
    split_and!; reflexivity.
  - simpl loop. rewrite bind_sys, sysWait_returns. reflexivity.
  - reflexivity.
Qed.

End Wakes.

Lemma unexpected_wake_is_fatal_witness :
  fst (thread_function (FromWait 2 3 true) [258; WAIT_OBJECT_0] (listening calm))
  = Exited.
Proof.
  exact (proj1 (unexpected_wake_is_fatal 2 3 true 258 [WAIT_OBJECT_0]
                  (listening calm) eq_refl)).
Defined.

Lemma failed_connect_is_not_delivered_witness :
  fst (thread_function (FromWait 2 3 true) [WAIT_OBJECT_0; WAIT_OBJECT_0]
         (listening client_gone))
  = Exited.
Proof.
  exact (proj1 (failed_connect_is_not_delivered 2 3 [WAIT_OBJECT_0]
                  (listening client_gone) 109 eq_refl)).
Defined.

Lemma stop_wake_ends_the_loop_witness :
  exists s' ok,
    Stop [WAIT_OBJECT_0 + 2] (default (served calm) (finished started))
    = Finished s'
    /\ trace s'
       = trace (default (served calm) (finished started))
           ++ [SetEventA 1 ok; DisconnectNamedPipeA 4;
               WaitA [2; 3; 1] (WAIT_OBJECT_0 + 2);
               CloseHandleA 3; CloseHandleA 2].
Proof.
  destruct (stop_wake_ends_the_loop 2 3 true []
              (default (served calm) (finished started)) eq_refl)
    as (s' & ok & H1 & H2 & _).
  exists s', ok. split; [exact H1|]. rewrite H2. reflexivity.
Defined.


(** ** Calls of the owner *)

Section Owner.

Context {U : Type}.
Implicit Types (s : State U).

Lemma idle_ctor endpoint o (u : U) :
  exists h, idle h u (Acceptor_ctor endpoint o u).
Proof.
  unfold Acceptor_ctor, ownerCreateEvent, on_other_thread, Win32.CreateEvent. simpl.
  destruct (on_CreateEvent o 0%nat); simpl.
  - exists NULL. unfold idle; simpl. split_and!; try reflexivity.
    exists []. split; [reflexivity|apply Forall_nil_2].
  - exists 1. unfold idle; simpl. split_and!; try reflexivity.
    exists []. split; [reflexivity|apply Forall_nil_2].
Qed.

Lemma idle_Stop h (u : U) waits s :
  idle h u s ->
  exists s', Stop waits s = Finished s' /\ idle h u s'.
Proof.
  intros (I1 & I2 & I3 & I4 & I5 & mid & I6 & I7). unfold Stop.
  pose proof (ownerSetEvent_state (close_event_ (acc s)) s) as Hs.
  cbv zeta in Hs. destruct Hs as (Ha & Hu & Ht & _ & _ & Hother & _ & _ & Hfalse).
  set (s1 := snd (ownerSetEvent (close_event_ (acc s)) s)) in *.
  set (ok := fst (ownerSetEvent (close_event_ (acc s)) s)) in *.
  assert (Hok : h = NULL -> ok = false).
  { intros ->. subst ok. unfold ownerSetEvent, on_other_thread, Win32.SetEvent.
    rewrite I3, I5. reflexivity. }
  assert (Hobj : objects (ker s1) !! NULL = None).
  { destruct (Z.eq_dec h NULL) as [E|E].
    - rewrite (Hfalse (Hok E)). exact I5.
    - rewrite Hother; [exact I5|]. rewrite I3. congruence. }
  simpl. fold s1. rewrite Ha, I1. clearbody s1 ok.
  eexists. split; [reflexivity|].
  unfold idle. simpl. rewrite Ha, Hu, Ht, I6, I2, I3.
  split_and!; try assumption; try reflexivity.
  exists (mid ++ [SetEventA h ok; DisconnectNamedPipeA NULL]).
  split; [rewrite <- app_assoc; reflexivity|].
  apply Forall_app. split; [exact I7|].
  apply Forall_cons. split; [right; exists ok; auto|].
  apply Forall_cons. split; [left; reflexivity|apply Forall_nil_2].
Qed.

Lemma idle_calls h (u : U) cs : forall s,
  idle h u s -> existsb is_listen cs = false ->
  exists s', calls cs s = Finished s' /\ idle h u s'.
Proof.
  induction cs as [|c cs IH]; intros s HI Hcs.
  { exists s. split; [reflexivity|exact HI]. }
  simpl in Hcs. apply orb_false_elim in Hcs as [Hc Hcs].
  destruct c as [cb|cb|cb|ws|ws]; try discriminate; simpl.
  - apply IH; [|exact Hcs]. exact HI.
  - apply IH; [|exact Hcs]. exact HI.
  - apply IH; [|exact Hcs]. exact HI.
  - destruct (idle_Stop h u ws s HI) as (s1 & E & HI1). rewrite E.
    apply IH; assumption.
Qed.

(** (X10) An acceptor that is never asked to listen can always be destroyed:
    whatever its owner calls, setters and [Stop], returns, no callback is
    ever invoked, and the destructor passes NULL, the endpoint that was never
    created, to [DisconnectNamedPipe] and to [CloseHandle] before it closes
    the stop event.  When the stop event could not be created the
    constructor does not report it, and every signal of [Stop] fails. *)
Theorem acceptor_that_never_listens endpoint o (u : U) cs waits :
  existsb is_listen cs = false ->
  exists s h mid,
    lifetime endpoint o u cs waits = Finished s
    /\ user s = u
    /\ trace s = CreateEventA false false h :: mid
                   ++ [CloseHandleA NULL; CloseHandleA h]
    /\ Forall (idle_step h) mid.
Proof.
  intros Hcs. destruct (idle_ctor endpoint o u) as (h & HI).
  destruct (idle_calls h u cs _ HI Hcs) as (s1 & E1 & HI1).
  destruct (idle_Stop h u waits s1 HI1)
    as (s2 & E2 & (I1 & I2 & I3 & I4 & I5 & mid & I6 & I7)).
  unfold lifetime, Acceptor_dtor. rewrite E1, E2.
  eexists _, h, mid. split; [reflexivity|]. simpl.
  rewrite I2, I3, I4, I6, <- app_assoc. auto.
Qed.

Lemma setters_keep_the_thread cs : forall s,
  forallb is_setter cs = true ->
  exists s', calls cs s = Finished s'
             /\ listen_thread_ (acc s') = listen_thread_ (acc s).
Proof.
  induction cs as [|c cs IH]; intros s Hcs.
  { exists s. auto. }
  simpl in Hcs. apply andb_prop in Hcs as [Hc Hcs].
  destruct c as [cb|cb|cb|ws|ws]; try discriminate; simpl.
  - destruct (IH (SetNewConnectionCallback cb s) Hcs) as (s' & E & Ht).
    exists s'. split; [exact E|]. rewrite Ht. reflexivity.
  - destruct (IH (SetExceptionCallback cb s) Hcs) as (s' & E & Ht).
    exists s'. split; [exact E|]. rewrite Ht. reflexivity.
  - destruct (IH (MoveIOFunctionToAlertableThread cb s) Hcs) as (s' & E & Ht).
    exists s'. split; [exact E|]. rewrite Ht. reflexivity.
Qed.

Lemma calls_app cs1 cs2 s s1 :
  calls cs1 s = Finished s1 -> calls (cs1 ++ cs2) s = calls cs2 s1.
Proof.
  revert s. induction cs1 as [|c cs1 IH]; intros s; simpl.
  - intros H. inversion H. reflexivity.
  - destruct (call c s); try discriminate. apply IH.
Qed.

(** (X11) After [Listen], a second [Listen] terminates the process, whether the
    first loop still waits or has ended, and whatever callbacks were set in
    between: the thread of the first is still joinable when the second
    swaps it out.  A [Stop] that returned in between makes the second
    [Listen] start a loop. *)
Theorem Listen_again_needs_a_Stop w1 w2 cs cs' s s1 :
  Listen w1 s = Finished s1 -> forallb is_setter cs = true ->
  calls (cs ++ CallListen w2 :: cs') s1 = Terminates
  /\ forall ws s2, Stop ws s1 = Finished s2 ->
       exists s3, Listen w2 s2 = Finished s3.
Proof.
  intros HL Hcs. split.
  - assert (Ht : exists t, listen_thread_ (acc s1) = Some t).
    { unfold Listen in HL. destruct (listen_thread_ (acc s)); [discriminate|].
      destruct (LinstenInThread w1 _) as [t s0]. inversion HL. simpl. eauto. }
    destruct Ht as (t & Ht).
    destruct (setters_keep_the_thread cs s1 Hcs) as (s' & E & Hk).
    rewrite (calls_app _ _ _ _ E). simpl. unfold Listen. rewrite Hk, Ht.
    reflexivity.
  - intros ws s2 HS. pose proof (Stop_leaves_no_thread _ _ _ HS) as Hn.
    unfold Listen. rewrite Hn. destruct (LinstenInThread w2 _). eauto.
Qed.

End Owner.

Lemma acceptor_that_never_listens_witness :
  exists s h mid,
    lifetime "svc-a" calm ([] : list Note)
      [CallSetExceptionCallback (Some note_exception); CallStop []] []
    = Finished s
    /\ user s = []
    /\ trace s = CreateEventA false false h :: mid
                   ++ [CloseHandleA NULL; CloseHandleA h].
Proof.
  destruct (acceptor_that_never_listens "svc-a" calm ([] : list Note)
              [CallSetExceptionCallback (Some note_exception); CallStop []] []
              eq_refl) as (s & h & mid & H1 & H2 & H3 & _).
  exists s, h, mid. auto.
Defined.

Lemma Listen_again_needs_a_Stop_witness :
  calls ([CallSetExceptionCallback None] ++ [CallListen []])
    (default (served calm) (finished started))
  = Terminates.
Proof.
  assert (E : Listen [] (served calm)
              = Finished (default (served calm) (finished started)))
    by (vm_compute; reflexivity).
  exact (proj1 (Listen_again_needs_a_Stop [] [] [CallSetExceptionCallback None] []
                  (served calm) (default (served calm) (finished started))
                  E eq_refl)).
Defined.

(** ** The message callback of the test server *)

Section Echo.

Import ServerTest.

Local Open Scope string_scope.

Lemma append_cons (x : ascii) (a b : string) :
  String x a ++ b = String x (a ++ b).
Proof. reflexivity. Qed.

Lemma string_app_assoc (a b c : string) : (a ++ b) ++ c = a ++ (b ++ c).
Proof.
  induction a as [|x a IH]; [reflexivity|].
  rewrite !append_cons. f_equal. exact IH.
Qed.

Lemma skip_spaces_app ws s :
  all_spaces ws = true -> skip_spaces (ws ++ s) = skip_spaces s.
Proof.
  induction ws as [|c ws IH]; [reflexivity|].
  rewrite append_cons. simpl.
  intros H. apply andb_prop in H as [Hc Hws]. rewrite Hc. apply IH. exact Hws.
Qed.

Lemma stoll_skips_spaces ws s :
  all_spaces ws = true -> stoll (ws ++ s) = stoll s.
Proof. intros H. unfold stoll. rewrite (skip_spaces_app ws s H). reflexivity. Qed.

Lemma read_digits_done rest v :
  starts_with_digit rest = false -> read_digits rest v = v.
Proof.
  destruct rest as [|c r]; simpl; [reflexivity|].
  destruct (digit_of c); [discriminate|reflexivity].
Qed.

Ltac read_digit :=
  cbn [NilEmpty.string_of_uint]; rewrite append_cons; cbn [read_digits];
  match goal with
  | |- context [digit_of ?c] =>
      let v := eval vm_compute in (digit_of c) in
      change (digit_of c) with v
  end;
  cbv beta iota.

Lemma read_digits_acc d rest : forall p,
  read_digits (NilEmpty.string_of_uint d ++ rest) (Z.pos p)
  = read_digits rest (Z.pos (Pos.of_uint_acc d p)).
Proof.
  induction d as [|d IH|d IH|d IH|d IH|d IH|d IH|d IH|d IH|d IH|d IH];
    intros p; [reflexivity|..]; read_digit;
    cbn [Pos.of_uint_acc]; rewrite <- IH; f_equal; lia.
Qed.

Lemma read_digits_uint d rest :
  read_digits (NilEmpty.string_of_uint d ++ rest) 0
  = read_digits rest (Z.of_N (Pos.of_uint d)).
Proof.
  induction d as [|d IH|d IH|d IH|d IH|d IH|d IH|d IH|d IH|d IH|d IH];
    [reflexivity|..]; read_digit.
  - exact IH.
  - apply (read_digits_acc d rest 1).
  - apply (read_digits_acc d rest 2).
  - apply (read_digits_acc d rest 3).
  - apply (read_digits_acc d rest 4).
  - apply (read_digits_acc d rest 5).
  - apply (read_digits_acc d rest 6).
  - apply (read_digits_acc d rest 7).
  - apply (read_digits_acc d rest 8).
  - apply (read_digits_acc d rest 9).
Qed.

Lemma stoll_unsigned c r k :
  digit_of c = Some k ->
  stoll (String c r) = in_range (read_digits (String c r) 0).
Proof.
  destruct c as [[] [] [] [] [] [] [] []]; intros H; vm_compute in H;
    try discriminate; reflexivity.
Qed.

Lemma stoll_negative s :
  stoll (String "-" s)
  = if starts_with_digit s then in_range (- read_digits s 0)
    else inl invalid_argument.
Proof. reflexivity. Qed.

Lemma uint_string_digit d rest :
  d <> Decimal.Nil ->
  exists c r k, NilEmpty.string_of_uint d ++ rest = String c r
                /\ digit_of c = Some k.
Proof.
  intros Hd. destruct d; try contradiction;
    cbn [NilEmpty.string_of_uint]; rewrite append_cons;
    do 3 eexists; (split; [reflexivity|vm_compute; reflexivity]).
Qed.

Lemma starts_with_digit_cons c r k :
  digit_of c = Some k -> starts_with_digit (String c r) = true.
Proof. intros H. simpl. rewrite H. reflexivity. Qed.

(** [stoll] reads back what [printf] writes for [%d], whatever follows
    that is no digit. *)
Lemma stoll_print_d n rest :
  starts_with_digit rest = false ->
  stoll (print_d n ++ rest) = in_range n.
Proof.
  intros Hrest.
  assert (Hpos : forall d, d <> Decimal.Nil ->
            stoll (NilEmpty.string_of_uint d ++ rest)
            = in_range (Z.of_N (Pos.of_uint d))
            /\ starts_with_digit (NilEmpty.string_of_uint d ++ rest) = true
            /\ read_digits (NilEmpty.string_of_uint d ++ rest) 0
               = Z.of_N (Pos.of_uint d)).
  { intros d Hd.
    assert (Hv : read_digits (NilEmpty.string_of_uint d ++ rest) 0
                 = Z.of_N (Pos.of_uint d)).
    { rewrite read_digits_uint. apply read_digits_done. exact Hrest. }
    destruct (uint_string_digit d rest Hd) as (c & r & k & E & Hk).
    rewrite E in *. rewrite (stoll_unsigned c r k Hk), Hv.
    split; [reflexivity|]. split; [|reflexivity].
    eapply starts_with_digit_cons. exact Hk. }
  assert (Hnil : forall p, NilZero.string_of_uint (Pos.to_uint p)
                           = NilEmpty.string_of_uint (Pos.to_uint p)).
  { intros p. pose proof (DecimalPos.Unsigned.to_uint_nonnil p) as Hn.
    destruct (Pos.to_uint p); [contradiction|reflexivity..]. }
  destruct n as [|p|p]; unfold print_d; simpl Z.to_int;
    cbn [NilZero.string_of_int].
  - apply (Hpos (Decimal.D0 Decimal.Nil)). discriminate.
  - rewrite Hnil.
    destruct (Hpos (Pos.to_uint p) (DecimalPos.Unsigned.to_uint_nonnil p))
      as (H1 & _).
    rewrite H1, DecimalPos.Unsigned.of_to. reflexivity.
  - rewrite Hnil, append_cons, stoll_negative.
    destruct (Hpos (Pos.to_uint p) (DecimalPos.Unsigned.to_uint_nonnil p))
      as (_ & H2 & H3).
    rewrite H2, H3, DecimalPos.Unsigned.of_to. reflexivity.
Qed.

Lemma to_int_range v :
  INT_MIN <= to_int v <= INT_MAX
  /\ (to_int v - v) mod 2 ^ 32 = 0
  /\ (INT_MIN <= v <= INT_MAX -> to_int v = v).
Proof.
  unfold to_int, INT_MIN, INT_MAX.
  pose proof (Z.mod_pos_bound (v + 2 ^ 31) (2 ^ 32) ltac:(lia)) as Hb.
  split; [lia|]. split.
  - replace ((v + 2 ^ 31) mod 2 ^ 32 - 2 ^ 31 - v)
      with ((v + 2 ^ 31) mod 2 ^ 32 - (v + 2 ^ 31)) by lia.
    rewrite Zminus_mod, Zmod_mod, <- Zminus_mod, Z.sub_diag. reflexivity.
  - intros Hv. rewrite Z.mod_small by lia. lia.
Qed.

(** (X13) [OnMessage] takes a message that holds the decimal text of a number,
    after any white space and before anything that is no digit: it prints the
    running index and the number (its low 32 bits when it does not fit an
    [int]), advances the index, and sends back the whole message, white space
    and trailing text included. *)
Theorem OnMessage_prints_the_number_and_echoes_the_text conn ws n rest p :
  all_spaces ws = true -> starts_with_digit rest = false ->
  LLONG_MIN <= n <= LLONG_MAX -> i p <> INT_MAX ->
  let msg := ws ++ print_d n ++ rest in
  OnMessage conn msg p
  = Normal {| i := i p + 1;
              stdout := stdout p ++ "[" ++ print_d (i p) ++ "]: "
                          ++ print_d (to_int n) ++ newline;
              sent := (sent p ++ [(conn, msg)])%list |}
  /\ INT_MIN <= to_int n <= INT_MAX
  /\ (INT_MIN <= n <= INT_MAX -> to_int n = n).
Proof.
  intros Hws Hrest Hn Hi msg.
  destruct (to_int_range n) as (T1 & _ & T3).
  split; [|split; assumption].
  unfold OnMessage. subst msg.
  rewrite (stoll_skips_spaces ws _ Hws), (stoll_print_d n rest Hrest).
  unfold in_range.
  destruct ((LLONG_MIN <=? n)%Z && (n <=? LLONG_MAX)%Z) eqn:E.
  - destruct (i p =? INT_MAX)%Z eqn:Ei; [apply Z.eqb_eq in Ei; contradiction|].
    reflexivity.
  - apply andb_false_iff in E as [E|E]; apply Z.leb_gt in E; lia.
Qed.

(** (X14) A message with no number at its head, be it empty, blank, or led by a
    character that is no digit, no sign and no white space, makes
    [OnMessage] throw [std::invalid_argument] before it prints, counts or
    sends anything. *)
Theorem OnMessage_without_a_number_has_no_effect conn ws rest p :
  all_spaces ws = true ->
  (forall c r, rest = String c r ->
     digit_of c = None /\ isspace c = false /\ c <> "-"%char /\ c <> "+"%char) ->
  OnMessage conn (ws ++ rest) p = Throws invalid_argument p.
Proof.
  intros Hws Hrest. unfold OnMessage.
  rewrite (stoll_skips_spaces ws _ Hws).
  destruct rest as [|c r]; [reflexivity|].
  destruct (Hrest c r eq_refl) as (Hd & Hs & Hm & Hp).
  assert (E : stoll (String c r) = inl invalid_argument).
  { clear Hrest. revert Hd Hs Hm Hp.
    destruct c as [[] [] [] [] [] [] [] []]; intros Hd Hs Hm Hp;
      try (vm_compute in Hd; discriminate);
      try (vm_compute in Hs; discriminate);
      try (exfalso; apply Hm; reflexivity);
      try (exfalso; apply Hp; reflexivity);
      reflexivity. }
  rewrite E. reflexivity.
Qed.

(** (X15) Called for one message after the other, [OnMessage] numbers and echoes
    exactly the messages that parse, each one back to its connection as it
    came, in the order of arrival; at the first message that does not parse
    it throws, having printed, counted and sent nothing for it. *)
Theorem OnMessages_echo_in_order ok : forall p conn bad rest e,
  forallb parses ok = true -> i p + Z.of_nat (length ok) <= INT_MAX ->
  let p' := {| i := i p + Z.of_nat (length ok);
               stdout := stdout p ++ lines (i p) ok;
               sent := (sent p ++ ok)%list |} in
  OnMessages ok p = Normal p'
  /\ (stoll bad = inl e ->
      OnMessages (ok ++ (conn, bad) :: rest)%list p = Throws e p').
Proof.
  induction ok as [|[c m] ok IH]; intros p conn bad rest e Hok Hi p'.
  - assert (Hp : p' = p).
    { subst p'. destruct p as [n out snt]. simpl.
      rewrite Z.add_0_r, app_nil_r. f_equal.
      clear. induction out as [|x out IHo]; [reflexivity|].
      rewrite append_cons. f_equal. exact IHo. }
    rewrite Hp. split; [reflexivity|].
    intros Hbad. simpl. unfold OnMessage. rewrite Hbad. reflexivity.
  - simpl in Hok. apply andb_prop in Hok as [Hm Hok].
    unfold parses in Hm. simpl in Hm.
    destruct (stoll m) as [err|v] eqn:Em; [discriminate|].
    assert (Hi1 : i p <> INT_MAX).
    { simpl length in Hi. lia. }
    set (p1 := Send c m
                 {| i := i p + 1;
                    stdout := stdout p ++ "[" ++ print_d (i p) ++ "]: "
                                ++ print_d (to_int v) ++ newline;
                    sent := sent p |}).
    assert (E1 : OnMessage c m p = Normal p1).
    { unfold OnMessage. rewrite Em.
      destruct (i p =? INT_MAX)%Z eqn:Ei; [apply Z.eqb_eq in Ei; contradiction|].
      reflexivity. }
    destruct (IH p1 conn bad rest e Hok) as [I1 I2].
    { subst p1. simpl. simpl length in Hi. lia. }
    assert (Hp : {| i := i p1 + Z.of_nat (length ok);
                    stdout := stdout p1 ++ lines (i p1) ok;
                    sent := (sent p1 ++ ok)%list |} = p').
    { subst p' p1. simpl. rewrite Em. f_equal.
      - simpl length. lia.
      - rewrite !string_app_assoc. reflexivity.
      - rewrite <- app_assoc. reflexivity. }
    rewrite Hp in I1, I2. split.
    + simpl. rewrite E1. exact I1.
    + intros Hbad. simpl. rewrite E1. apply I2. exact Hbad.
Qed.

End Echo.

Lemma OnMessage_prints_the_number_and_echoes_the_text_witness :
  ServerTest.OnMessage 1%nat " 1234;"
    {| ServerTest.i := 0; ServerTest.stdout := ""; ServerTest.sent := [] |}
  = ServerTest.Normal
      {| ServerTest.i := 1;
         ServerTest.stdout
         := String.append "[0]: 1234" ServerTest.newline;
         ServerTest.sent := [(1%nat, " 1234;"%string)] |}.
Proof.
  refine (proj1 (OnMessage_prints_the_number_and_echoes_the_text 1%nat " " 1234 ";"
                   {| ServerTest.i := 0; ServerTest.stdout := "";
                      ServerTest.sent := [] |}
                   eq_refl eq_refl _ _)).
  - unfold ServerTest.LLONG_MIN, ServerTest.LLONG_MAX. lia.
  - discriminate.
Defined.

Lemma OnMessage_without_a_number_has_no_effect_witness :
  ServerTest.OnMessage 1%nat " abc"
    {| ServerTest.i := 7; ServerTest.stdout := ""; ServerTest.sent := [] |}
  = ServerTest.Throws ServerTest.invalid_argument
      {| ServerTest.i := 7; ServerTest.stdout := ""; ServerTest.sent := [] |}.
Proof.
  refine (OnMessage_without_a_number_has_no_effect 1%nat " " "abc"
            {| ServerTest.i := 7; ServerTest.stdout := "";
               ServerTest.sent := [] |} eq_refl _).
  intros c r H. inversion H. vm_compute. repeat split; discriminate.
Defined.

Lemma OnMessages_echo_in_order_witness :
  ServerTest.OnMessages [(1%nat, "1234"%string); (2%nat, " -5x"%string)]
    {| ServerTest.i := 0; ServerTest.stdout := ""; ServerTest.sent := [] |}
  = ServerTest.Normal
      {| ServerTest.i := 2;
         ServerTest.stdout
         := String.append "[0]: 1234"
              (String.append ServerTest.newline
                 (String.append "[1]: -5" ServerTest.newline));
         ServerTest.sent := [(1%nat, "1234"%string); (2%nat, " -5x"%string)] |}.
Proof.
  refine (proj1 (OnMessages_echo_in_order
                   [(1%nat, "1234"%string); (2%nat, " -5x"%string)]
                   {| ServerTest.i := 0; ServerTest.stdout := "";
                      ServerTest.sent := [] |}
                   3%nat "x" [] ServerTest.invalid_argument eq_refl _)).
  unfold ServerTest.INT_MAX. simpl. lia.
Defined.

(** ** The reports of the exception callback *)

Lemma loop_action_no_run_start name ce we evs d :
  Forall (loop_action name ce we evs) d -> tally is_run_start d = O.
Proof. apply tally_Forall. intros [] H; try reflexivity; destruct H. Qed.

Lemma run_delta_counts en name hev close r d :
  run_delta en name hev close r d ->
  tally is_exception_call d = O
  /\ tally is_run_start d = match en with FromStart => 1%nat | _ => O end.
Proof.
  destruct en as [|c w p]; simpl.
  - intros H. inversion H as [e|ce e Hce|ce we dl r' Hce Hwe HF HE]; subst;
      try (split; reflexivity).
    change (CreateEventA true true ce :: CreateEventA false false we
              :: dl ++ unwound r ce we)
      with ([CreateEventA true true ce; CreateEventA false false we]
              ++ dl ++ unwound r ce we).
    rewrite !tally_app, (loop_action_no_exception _ _ _ _ _ HF),
      (loop_action_no_run_start _ _ _ _ _ HF).
    rewrite !tally_unwound by reflexivity. split; reflexivity.
  - intros (dl & -> & HF & _).
    rewrite !tally_app, (loop_action_no_exception _ _ _ _ _ HF),
      (loop_action_no_run_start _ _ _ _ _ HF).
    rewrite !tally_unwound by reflexivity. split; reflexivity.
Qed.

Section Reported.

Context {U : Type}.
Implicit Types (s : State U).

Lemma thread_function_run en waits s :
  0 < next s ->
  exists r d,
    run_delta en (pipe_name_ (acc s)) (hEvent (connect_overlap_ (acc s)))
      (close_event_ (acc s)) r d
    /\ fst (thread_function en waits s) = thread_of r
    /\ trace (snd (thread_function en waits s))
       = trace s ++ d ++ reported r (exception_callback_ (acc s)).
Proof.
  intros Hpos.
  destruct (thread_function_cases en waits s Hpos)
    as (r & s1 & d & E & HM & HD & Hcb & HL).
  pose proof (mv_trace _ _ _ HM) as Ht.
  exists r, d. rewrite HL. split; [exact HD|].
  destruct r as [[|c w p]|e]; simpl; rewrite ?app_nil_r; auto.
  rewrite call_exception_state, Hcb.
  destruct (exception_callback_ (acc s)); simpl;
    rewrite ?Ht, ?app_nil_r, <- ?app_assoc; auto.
Qed.

Lemma reported_counts (r : Res LoopExit) (cb : option (ExceptionCallback (U:=U))) :
  tally is_run_start (reported r cb) = O
  /\ (tally is_exception_call (reported r cb)
      + match thread_of r with Waiting _ _ _ => 1 | Exited => 0 end <= 1)%nat.
Proof. destruct r as [[|c w p]|e], cb as [f|]; simpl; split; auto. Qed.

Lemma reports_kept_owner s s' d :
  reports_kept s -> trace s' = trace s ++ d -> Forall owner_action d ->
  next_pipe_ (acc s') = next_pipe_ (acc s) ->
  pipe_name_ (acc s') = pipe_name_ (acc s) ->
  listen_thread_ (acc s') = listen_thread_ (acc s) -> reports_kept s'.
Proof.
  unfold reports_kept. intros HK Ht Hd _ _ Hl. rewrite Ht, Hl, !tally_app.
  assert (H0 : tally is_exception_call d = O).
  { revert Hd. apply tally_Forall. intros [] H; try reflexivity; destruct H. }
  rewrite H0. lia.
Qed.

Lemma reports_kept_listen waits s :
  0 < next s -> reports_kept s -> listen_thread_ (acc s) = None ->
  let run := thread_function FromStart waits s in
  reports_kept (set_acc (set_listen_thread_ (Some (fst run)) (acc (snd run)))
                  (snd run)).
Proof.
  intros Hpos HK Hn run. unfold reports_kept in *. rewrite Hn in HK.
  destruct (thread_function_run FromStart waits s Hpos) as (r & d & HD & Hf & Ht).
  fold run in Hf, Ht. simpl. rewrite Ht, Hf, !tally_app.
  destruct (run_delta_counts _ _ _ _ _ _ HD) as [C1 C2].
  destruct (reported_counts r (exception_callback_ (acc s))) as [R1 R2].
  rewrite C1, C2, R1. lia.
Qed.

Lemma reports_kept_join c w p waits s :
  0 < next s -> reports_kept s -> listen_thread_ (acc s) = Some (Waiting c w p) ->
  let run := thread_function (FromWait c w p) waits s in
  fst run = Exited ->
  reports_kept (set_acc (set_listen_thread_ None (acc (snd run))) (snd run)).
Proof.
  intros Hpos HK Hw run Hex. unfold reports_kept in *. rewrite Hw in HK.
  destruct (thread_function_run (FromWait c w p) waits s Hpos)
    as (r & d & HD & Hf & Ht).
  fold run in Hf, Ht. simpl. rewrite Ht, !tally_app.
  destruct (run_delta_counts _ _ _ _ _ _ HD) as [C1 C2].
  destruct (reported_counts r (exception_callback_ (acc s))) as [R1 R2].
  rewrite C1, C2, R1. lia.
Qed.

(** (X12) Over the lifetime of an acceptor the exception callback is called at
    most once for each run of the thread function that was started, that
    is, for each [Listen]: a loop reports its end at most once, and what
    its owner does on its own thread reports nothing. *)
Theorem exceptions_reported_at_most_once_per_run endpoint o (u : U) cs waits s :
  lifetime endpoint o u cs waits = Finished s ->
  (tally is_exception_call (trace s) <= tally is_run_start (trace s))%nat.
Proof.
  intros H.
  assert (HK : reports_kept s).
  { apply (K_lifetime reports_kept)
      with (endpoint := endpoint) (o := o) (u := u) (cs := cs) (waits := waits);
      try exact H.
    - apply reports_kept_owner.
    - apply reports_kept_listen.
    - apply reports_kept_join.
    - unfold reports_kept. intros s0 HK Hs0. rewrite Hs0 in HK. simpl. lia.
    - unfold reports_kept, Acceptor_ctor, ownerCreateEvent, on_other_thread,
        Win32.CreateEvent.
      simpl. destruct (on_CreateEvent o 0%nat); simpl; lia. }
  unfold reports_kept in HK. lia.
Qed.

End Reported.

Lemma exceptions_reported_at_most_once_per_run_witness :
  lifetime "svc-a" calm []
    [CallSetNewConnectionCallback (Some note_connection);
     CallSetExceptionCallback (Some note_exception);
     CallListen [WAIT_OBJECT_0]]
    [WAIT_OBJECT_0 + 2]
  = Finished one_client_end
  /\ (tally is_exception_call (trace one_client_end)
      <= tally is_run_start (trace one_client_end))%nat.
Proof.
  assert (E : lifetime "svc-a" calm []
                [CallSetNewConnectionCallback (Some note_connection);
                 CallSetExceptionCallback (Some note_exception);
                 CallListen [WAIT_OBJECT_0]]
                [WAIT_OBJECT_0 + 2]
              = Finished one_client_end) by (vm_compute; reflexivity).
  split; [exact E|].
  exact (exceptions_reported_at_most_once_per_run _ _ _ _ _ _ E).
Defined.

(** ** Failures before the loop waits *)

Section Failures.

Context {U : Type}.
Implicit Types (s : State U).

(** (X16) When [CreateNamedPipe] fails, [CreateConnectInstance] has already
    overwritten [next_pipe_] with INVALID_HANDLE_VALUE: the endpoint the
    acceptor held before is forgotten, no connect is started, and the
    exception carries the code of the failure under the text of
    [CreateNamedPipe]. *)
Theorem failed_pipe_creation_overwrites_the_endpoint s code :
  on_CreateNamedPipe (oracle (ker s)) (clock (ker s)) = Some code ->
  let run := CreateConnectInstance s in
  let e := failure "CreateNamedPipe failed GLE = " code in
  fst run = Exc e
  /\ acc (snd run) = set_next_pipe_ INVALID_HANDLE_VALUE (acc s)
  /\ user (snd run) = user s
  /\ trace (snd run)
     = trace s ++ [CreateNamedPipeA (c_str (pipe_name_ (acc s))) INVALID_HANDLE_VALUE;
                   ThrowA e].
Proof.
  intros Hc.
  unfold CreateConnectInstance, bind, get, sys, modify, fail_GLE, throw, ret,
    sysCreateNamedPipe, GetLastError, Win32.CreateNamedPipe.
  simpl. rewrite Hc. simpl. rewrite <- app_assoc. auto.
Qed.

(** (X17) When one of the two events of the loop cannot be created, the
    thread function starts no loop: it creates no pipe instance and waits
    for nothing, throws with the code of the failure under the text of that
    event, and reports to the exception callback.  A connect event that was
    not created is not closed; when it is the write event that fails, the
    connect event is closed, once, and nothing else. *)
Theorem failed_event_creation_starts_no_loop waits s :
  0 < next s ->
  let run := thread_function FromStart waits s in
  let o := oracle (ker s) in
  match on_CreateEvent o (clock (ker s)) with
  | Some code =>
      let e := failure "CreateEvent (connect event) failed GLE = " code in
      fst run = Exited /\ acc (snd run) = acc s
      /\ trace (snd run)
         = trace s ++ [CreateEventA true true NULL; ThrowA e]
             ++ reported (@Exc LoopExit e) (exception_callback_ (acc s))
  | None =>
      match on_CreateEvent o (S (clock (ker s))) with
      | Some code =>
          let e := failure "CreateEvent (write event) failed GLE = " code in
          fst run = Exited /\ acc (snd run) = acc s
          /\ trace (snd run)
             = trace s ++ [CreateEventA true true (next s);
                           CreateEventA false false NULL; ThrowA e;
                           CloseHandleA (next s)]
                 ++ reported (@Exc LoopExit e) (exception_callback_ (acc s))
      | None => True
      end
  end.
Proof.
  intros Hpos run o. subst run o.
  assert (Hh : (next_handle (ker s) =? NULL) = false).
  { apply Z.eqb_neq. unfold next, NULL in *. lia. }
  assert (Hev : forall m i (s0 : State U),
            sysCreateEvent m i s0
            = match on_CreateEvent (oracle (ker s0)) (clock (ker s0)) with
              | Some c =>
                  (NULL, log (CreateEventA m i NULL)
                           (set_ker (answered (Some c) (ker s0)) s0))
              | None =>
                  (next_handle (ker s0),
                   log (CreateEventA m i (next_handle (ker s0)))
                     (set_ker
                        (with_objects
                           (<[next_handle (ker s0)
                              := {| ev_manual_reset := m; ev_signaled := i |}]>
                              (objects (ker s0)))
                           (allocate (answered None (ker s0)))) s0))
              end).
  { intros m i s0. unfold sysCreateEvent, Win32.CreateEvent.
    destruct (on_CreateEvent (oracle (ker s0)) (clock (ker s0))); reflexivity. }
  unfold thread_function, run_thread, try_segment, try_block.
  rewrite bind_sys, Hev.
  destruct (on_CreateEvent (oracle (ker s)) (clock (ker s))) as [code|] eqn:E1.
  - cbn [fst snd]. change (NULL =? NULL) with true. cbv iota.
    rewrite scoped_unfold.
    unfold fail_GLE, bind, sys, GetLastError, throw, leave_scope. simpl.
    unfold call_exception. simpl.
    destruct (exception_callback_ (acc s)); simpl;
      rewrite <- ?app_assoc; auto.
  - cbn [fst snd]. rewrite Hh. rewrite !scoped_unfold, bind_sys, Hev.
    cbn [ker oracle clock set_ker log with_objects allocate answered].
    destruct (on_CreateEvent (oracle (ker s)) (S (clock (ker s))))
      as [code|] eqn:E2; [|exact I].
    cbn [fst snd]. change (NULL =? NULL) with true. cbv iota.
    rewrite scoped_unfold.
    unfold fail_GLE, bind, sys, GetLastError, throw, leave_scope. simpl.
    unfold call_exception. simpl. unfold next.
    destruct (exception_callback_ (acc s)); simpl;
      rewrite <- ?app_assoc; auto.
Qed.

End Failures.

Lemma failed_pipe_creation_overwrites_the_endpoint_witness :
  fst (CreateConnectInstance (armed (served no_pipes)))
  = Exc (failure "CreateNamedPipe failed GLE = " 231)
  /\ acc (snd (CreateConnectInstance (armed (served no_pipes))))
     = set_next_pipe_ INVALID_HANDLE_VALUE (acc (armed (served no_pipes))).
Proof.
  destruct (failed_pipe_creation_overwrites_the_endpoint
              (armed (served no_pipes)) 231 eq_refl) as (H1 & H2 & _).
  split; [exact H1|exact H2].
Defined.

Lemma failed_event_creation_starts_no_loop_witness :
  fst (thread_function FromStart [WAIT_OBJECT_0] (served no_events_left))
  = Exited.
Proof.
  exact (proj1 (failed_event_creation_starts_no_loop [WAIT_OBJECT_0]
                  (served no_events_left) eq_refl)).
Defined.

(** ** Callbacks and wake-ups *)

Lemma rearmed_no_wake {le} name hev h r dr (p : Action -> bool) :
  rearmed name hev le h r dr ->
  (forall n x, p (CreateNamedPipeA n x) = false) ->
  (forall x y b, p (ConnectNamedPipeA x y b) = false) ->
  (forall x b, p (SetEventA x b) = false) ->
  (forall e, p (ThrowA e) = false) ->
  tally p dr = O.
Proof.
  intros H P1 P2 P3 P4. destruct H; simpl; rewrite ?P1, ?P2, ?P3, ?P4; reflexivity.
Qed.

Lemma looped_deliveries {le} name hev ce we evs io pipe pedding r d :
  looped name hev ce we evs true io le pipe pedding r d ->
  tally is_connect_wake d
  = (tally is_new_connection d + tally is_failed_result d)%nat.
Proof.
  assert (R : forall h r dr, rearmed name hev le h r dr ->
            tally is_connect_wake dr = O /\ tally is_new_connection dr = O
            /\ tally is_failed_result dr = O).
  { intros h r0 dr H. split_and!; apply (rearmed_no_wake _ _ _ _ _ _ H);
      reflexivity. }
  induction 1 as [pipe pd|pipe pd h pd' dr r d Hr Hl IH
                 |pipe pd h e dr Hr|pipe|pipe pd e Hnc
                 |pipe pd r d Hl IH|pipe pd e Hio
                 |pipe pd|pipe pd r d Hl IH|pipe pd w];
    try reflexivity.
  - destruct (R _ _ _ Hr) as (R1 & R2 & R3).
    rewrite !tally_mid, !tally_app, R1, R2, R3, IH. destruct pd; simpl; lia.
  - destruct (R _ _ _ Hr) as (R1 & R2 & R3).
    rewrite !tally_mid, R1, R2, R3. destruct pd; simpl; lia.
  - destruct pd; reflexivity.
  - destruct io; simpl; exact IH.
  - exact IH.
  - simpl. destruct (w =? WAIT_OBJECT_0) eqn:E; [|reflexivity].
    apply Z.eqb_eq in E. contradiction.
Qed.

Lemma looped_deferrals {le} name hev ce we evs nc pipe pedding r d :
  looped name hev ce we evs nc true le pipe pedding r d ->
  tally is_deferred_wake d = tally is_async_io d.
Proof.
  assert (R : forall h r dr, rearmed name hev le h r dr ->
            tally is_deferred_wake dr = O /\ tally is_async_io dr = O).
  { intros h r0 dr H. split; apply (rearmed_no_wake _ _ _ _ _ _ H);
      reflexivity. }
  induction 1 as [pipe pd|pipe pd h pd' dr r d Hr Hl IH
                 |pipe pd h e dr Hr|pipe|pipe pd e Hnc
                 |pipe pd r d Hl IH|pipe pd e Hio
                 |pipe pd|pipe pd r d Hl IH|pipe pd w];
    try reflexivity.
  - destruct (R _ _ _ Hr) as (R1 & R2).
    rewrite !tally_mid, !tally_app, R1, R2, IH. destruct pd, nc; simpl; lia.
  - destruct (R _ _ _ Hr) as (R1 & R2).
    rewrite !tally_mid, R1, R2. destruct pd, nc; simpl; lia.
  - destruct pd; reflexivity.
  - simpl. rewrite IH. reflexivity.
  - exact IH.
  - simpl. destruct (w =? WAIT_OBJECT_0 + 1) eqn:E; [|reflexivity].
    apply Z.eqb_eq in E. contradiction.
Qed.

Lemma looped_deliveries_le {le} name hev ce we evs nc io pipe pedding r d :
  looped name hev ce we evs nc io le pipe pedding r d ->
  (tally is_new_connection d <= tally is_connect_wake d)%nat.
Proof.
  induction 1 as [pipe pd|pipe pd h pd' dr r d Hr Hl IH
                 |pipe pd h e dr Hr|pipe|pipe pd e Hnc
                 |pipe pd r d Hl IH|pipe pd e Hio
                 |pipe pd|pipe pd r d Hl IH|pipe pd w].
  - simpl. lia.
  - rewrite !tally_mid, !tally_app.
    rewrite (rearmed_no_wake _ _ _ _ _ is_new_connection Hr) by reflexivity.
    destruct pd, nc; simpl; lia.
  - rewrite !tally_mid.
    rewrite (rearmed_no_wake _ _ _ _ _ is_new_connection Hr) by reflexivity.
    destruct pd, nc; simpl; lia.
  - simpl. lia.
  - destruct pd; simpl; lia.
  - destruct io; simpl; exact IH.
  - simpl. lia.
  - simpl. lia.
  - exact IH.
  - simpl. destruct (w =? WAIT_OBJECT_0); lia.
Qed.

Lemma looped_deferrals_le {le} name hev ce we evs nc io pipe pedding r d :
  looped name hev ce we evs nc io le pipe pedding r d ->
  (tally is_async_io d <= tally is_deferred_wake d)%nat.
Proof.
  induction 1 as [pipe pd|pipe pd h pd' dr r d Hr Hl IH
                 |pipe pd h e dr Hr|pipe|pipe pd e Hnc
                 |pipe pd r d Hl IH|pipe pd e Hio
                 |pipe pd|pipe pd r d Hl IH|pipe pd w].
  - simpl. lia.
  - rewrite !tally_mid, !tally_app.
    rewrite (rearmed_no_wake _ _ _ _ _ is_async_io Hr) by reflexivity.
    destruct pd, nc; simpl; lia.
  - rewrite !tally_mid.
    rewrite (rearmed_no_wake _ _ _ _ _ is_async_io Hr) by reflexivity.
    destruct pd, nc; simpl; lia.
  - simpl. lia.
  - destruct pd; simpl; lia.
  - destruct io; simpl; lia.
  - simpl. lia.
  - simpl. lia.
  - exact IH.
  - simpl. destruct (w =? WAIT_OBJECT_0 + 1); lia.
Qed.

Section Callbacks.

Context {U : Type}.
Implicit Types (s : State U).

(** (X18) In every run of the thread function the callbacks match the
    wake-ups: with a new-connection callback registered, each connect-ready
    wake hands over exactly one endpoint, but for the one whose pending
    connect failed; with a deferred-work callback registered, each
    deferred-work wake runs it exactly once.  No callback runs without its
    wake. *)
Theorem callbacks_match_the_wakes en waits s :
  0 < next s ->
  let d := since s (snd (thread_function en waits s)) in
  (registered (new_connection_callback_ (acc s)) = true ->
   tally is_connect_wake d
   = (tally is_new_connection d + tally is_failed_result d)%nat)
  /\ (registered (async_io_callback_ (acc s)) = true ->
      tally is_deferred_wake d = tally is_async_io d)
  /\ (tally is_new_connection d <= tally is_connect_wake d)%nat
  /\ (tally is_async_io d <= tally is_deferred_wake d)%nat.
Proof.
  intros Hpos d.
  destruct (thread_function_since en waits s Hpos) as (r & d0 & HG & _ & Hs).
  subst d. rewrite Hs. clear Hs.
  rewrite !tally_app, !tally_reported by reflexivity. rewrite !Nat.add_0_r.
  assert (HL : (exists name hev ce we evs le pipe pd dl,
                  looped name hev ce we evs
                    (registered (new_connection_callback_ (acc s)))
                    (registered (async_io_callback_ (acc s))) le pipe pd r dl
                  /\ forall p, counts_wakes_only p -> tally p d0 = tally p dl)
               \/ (forall p, counts_wakes_only p -> tally p d0 = O)).
  { destruct en as [|c w pd]; simpl in HG.
    - destruct HG as [|ce Hce|ce we r' da Hce Hwe HA].
      + right. intros p (P1 & P2 & P3 & P4 & P5 & P6). simpl.
        rewrite P1, P6. reflexivity.
      + right. intros p (P1 & P2 & P3 & P4 & P5 & P6). simpl.
        rewrite !P1, P2, P6. reflexivity.
      + destruct HA as [h pd dr r'' dl Hr Hl|h e dr Hr].
        * left. do 9 eexists. split; [exact Hl|].
          intros p (P1 & P2 & P3 & P4 & P5 & P6). simpl. rewrite !P1.
          rewrite !tally_app, (rearmed_no_wake _ _ _ _ _ p Hr) by assumption.
          rewrite tally_unwound by assumption. lia.
        * right. intros p (P1 & P2 & P3 & P4 & P5 & P6). simpl. rewrite !P1.
          rewrite !tally_app, (rearmed_no_wake _ _ _ _ _ p Hr) by assumption.
          simpl. rewrite !P2. reflexivity.
    - destruct HG as (dl & -> & HL). left. do 9 eexists. split; [exact HL|].
      intros p (P1 & P2 & P3 & P4 & P5 & P6).
      rewrite tally_app, tally_unwound by assumption. lia. }
  assert (Q : counts_wakes_only is_connect_wake
              /\ counts_wakes_only is_new_connection
              /\ counts_wakes_only is_failed_result
              /\ counts_wakes_only is_deferred_wake
              /\ counts_wakes_only is_async_io).
  { unfold counts_wakes_only. split_and!; reflexivity. }
  destruct Q as (Q1 & Q2 & Q3 & Q4 & Q5).
  destruct HL as [(name & hev & ce & we & evs & le & pipe & pd & dl & HL & Hp)|Hp].
  - rewrite (Hp _ Q1), (Hp _ Q2), (Hp _ Q3), (Hp _ Q4), (Hp _ Q5).
    assert (H1 : registered (new_connection_callback_ (acc s)) = true ->
                 tally is_connect_wake dl
                 = (tally is_new_connection dl + tally is_failed_result dl)%nat).
    { intros E. rewrite E in HL. eapply looped_deliveries. exact HL. }
    assert (H2 : registered (async_io_callback_ (acc s)) = true ->
                 tally is_deferred_wake dl = tally is_async_io dl).
    { intros E. rewrite E in HL. eapply looped_deferrals. exact HL. }
    split; [exact H1|]. split; [exact H2|]. split.
    + eapply looped_deliveries_le. exact HL.
    + eapply looped_deferrals_le. exact HL.
  - rewrite (Hp _ Q1), (Hp _ Q2), (Hp _ Q3), (Hp _ Q4), (Hp _ Q5).
    split_and!; intros; reflexivity || lia.
Qed.

End Callbacks.

Lemma callbacks_match_the_wakes_witness :
  let d := since (served calm)
             (snd (thread_function FromStart
                     [WAIT_OBJECT_0; WAIT_OBJECT_0 + 1; WAIT_OBJECT_0]
                     (served calm))) in
  (tally is_new_connection d <= tally is_connect_wake d)%nat.
Proof.
  exact (proj1 (proj2 (proj2 (callbacks_match_the_wakes FromStart
                                [WAIT_OBJECT_0; WAIT_OBJECT_0 + 1; WAIT_OBJECT_0]
                                (served calm) eq_refl)))).
Defined.
